(** * Closure Library: prefixed storage, IE userData key codec, jsloader

    A shallow embedding of three Closure Library modules,

    - [goog.storage.mechanism.PrefixedMechanism] (namespacing wrapper),
    - [goog.storage.mechanism.IEUserData] (the attribute-name codec
      [encodeKey_] / [decodeKey_]),
    - [goog.net.jsloader] (serial script loading on [goog.async.Deferred]),

    together with the properties their specification states about them. *)

From Stdlib Require Import ZArith Lia Ascii String.
From stdpp Require Import base option list strings gmap.

Local Open Scope Z_scope.

(** ** JavaScript strings

    A JavaScript string is a finite sequence of 16-bit code units. *)
Module JsString.

Definition char16 := Z.
Definition jsstring := list char16.

(** A string literal of the source, written with ASCII characters. *)
Definition lit (s : string) : jsstring :=
  (λ a, Z.of_N (N_of_ascii a)) <$> list_ascii_of_string s.

(** [s.substr(start, len)] and [s.substr(start)] for [start >= 0]. *)
Definition substr (s : jsstring) (start : nat) (len : option nat) : jsstring :=
  match len with
  | Some n => take n (drop start s)
  | None => drop start s
  end.

(** A well-formed string holds code units only. *)
Definition is_char16 (c : Z) : Prop := 0 <= c < 65536.
Definition wf_string (s : jsstring) : Prop := Forall is_char16 s.

End JsString.
Export JsString.

(** ** Exceptions *)

Inductive result (E A : Type) : Type :=
| Ok (a : A)
| Throw (e : E).
Arguments Ok {E A} a.
Arguments Throw {E A} e.

(** ** goog.storage.mechanism.PrefixedMechanism *)
Module PrefixedMechanism.

(** The wrapped [goog.storage.mechanism.IterableMechanism] is an external
    collaborator: a store [B] with [set], [get], [remove], which may throw
    the backend's own errors [E], and an iterator over its keys. *)
Class IterableMechanism (B E : Type) := {
  mech_set : B → jsstring → jsstring → result E B;
  mech_get : B → jsstring → result E (option jsstring);
  mech_remove : B → jsstring → result E B;
  (** Modelled from the spec: [mechanism[Symbol.iterator]()], declared in
      iterablemechanism.js, is a lazy finite sequence over the keys held by
      the store; its state is the list of keys not produced yet. *)
  mech_keys : B → list jsstring
}.

Section Wrapper.
Context {B E : Type} `{!IterableMechanism B E}.

(** The object: [mechanism_] is the shared store, threaded through the
    operations; [prefix_] is the constructor's argument plus ['::']. *)
Record t := { prefix_ : jsstring }.

Definition new (prefix : jsstring) : t :=
  {| prefix_ := prefix ++ lit "::" |}.

Definition set (self : t) (key value : jsstring) (mechanism_ : B) : result E B :=
  mech_set mechanism_ (prefix_ self ++ key) value.

Definition get (self : t) (key : jsstring) (mechanism_ : B)
  : result E (option jsstring) :=
  mech_get mechanism_ (prefix_ self ++ key).

Definition remove (self : t) (key : jsstring) (mechanism_ : B) : result E B :=
  mech_remove mechanism_ (prefix_ self ++ key).

(** The test of the [while] loop:
    [key.substr(0, selfObj.prefix_.length) != selfObj.prefix_]. *)
Definition mismatch (self : t) (key : jsstring) : bool :=
  negb (bool_decide (substr key 0 (Some (length (prefix_ self))) = prefix_ self)).

(** What [newIter.next] hands out. *)
Inductive IterResult :=
| Done
| Yield (value : result E (option jsstring)).

(** The value yielded for a matching key. A thrown [get] leaves
    [next] as the exception it is. *)
Definition yielded (self : t) (opt_keys : bool) (mechanism_ : B) (key : jsstring)
  : result E (option jsstring) :=
  if opt_keys then Ok (Some (substr key (length (prefix_ self)) None))
  else mech_get mechanism_ key.

(** The loop of [newIter.next], entered with [key] in hand and the
    sub-iterator at [subIter]. *)
Fixpoint next_loop (self : t) (opt_keys : bool) (mechanism_ : B)
    (key : jsstring) (subIter : list jsstring) : IterResult * list jsstring :=
  if mismatch self key then
    match subIter with
    | [] => (Done, [])
    | key' :: subIter' => next_loop self opt_keys mechanism_ key' subIter'
    end
  else (Yield (yielded self opt_keys mechanism_ key), subIter).

Definition next (self : t) (opt_keys : bool) (mechanism_ : B)
    (subIter : list jsstring) : IterResult * list jsstring :=
  match subIter with
  | [] => (Done, [])
  | key :: subIter' => next_loop self opt_keys mechanism_ key subIter'
  end.

(** [__iterator__]: the new iterator starts from a fresh sub-iterator. *)
Definition __iterator__ (mechanism_ : B) : list jsstring := mech_keys mechanism_.

(** Drives an iterator to its end, at most [fuel] calls of [next]. *)
Fixpoint drain (fuel : nat) (self : t) (opt_keys : bool) (mechanism_ : B)
    (subIter : list jsstring) : option (list (result E (option jsstring))) :=
  match fuel with
  | O => None
  | S fuel' =>
      match next self opt_keys mechanism_ subIter with
      | (Done, _) => Some []
      | (Yield v, subIter') =>
          (v ::.) <$> drain fuel' self opt_keys mechanism_ subIter'
      end
  end.

(** Everything the iterator of the wrapper yields over a store. *)
Definition iterate (self : t) (opt_keys : bool) (mechanism_ : B)
  : option (list (result E (option jsstring))) :=
  drain (S (length (mech_keys mechanism_))) self opt_keys mechanism_
    (__iterator__ mechanism_).

(** The specification's reading: the keys under the namespace. *)
Definition in_namespace (self : t) (key : jsstring) : bool :=
  bool_decide (prefix_ self `prefix_of` key).

End Wrapper.

(** A concrete store: an association list, newest binding first, that
    never throws. *)
Definition alist := list (jsstring * jsstring).

Fixpoint alist_get (b : alist) (k : jsstring) : option jsstring :=
  match b with
  | [] => None
  | (k', v) :: b' => if bool_decide (k' = k) then Some v else alist_get b' k
  end.

Definition alist_remove (b : alist) (k : jsstring) : alist :=
  filter (λ kv, kv.1 ≠ k) b.

#[export] Instance alist_mechanism : IterableMechanism alist Empty_set := {
  mech_set b k v := Ok ((k, v) :: alist_remove b k);
  mech_get b k := Ok (alist_get b k);
  mech_remove b k := Ok (alist_remove b k);
  mech_keys b := b.*1
}.

End PrefixedMechanism.

(** ** The URI functions of the host

    [encodeURIComponent] and [decodeURIComponent] are builtins of the
    language; they are embedded from their definition in ECMA-262
    (sections Encode, Decode, CodePointAt, ParseHexOctet,
    UTF16EncodeCodePoint), with an index [k] into the string kept as the
    suffix of the string that starts at [k]. *)
Module URI.

Inductive exn := URIError.

Definition contains (set : jsstring) (c : char16) : bool := bool_decide (c ∈ set).

(** The ASCII word characters, and the set left alone by
    [encodeURIComponent]. *)
Definition asciiWord : jsstring :=
  lit "ABCDEFGHIJKLMNOPQRSTUVWXYZabcdefghijklmnopqrstuvwxyz0123456789_".
Definition alwaysUnescaped : jsstring := asciiWord ++ lit "-.!~*'()".

Definition is_leading_surrogate (c : char16) : bool :=
  (0xD800 <=? c) && (c <=? 0xDBFF).
Definition is_trailing_surrogate (c : char16) : bool :=
  (0xDC00 <=? c) && (c <=? 0xDFFF).

Definition UTF16SurrogatePairToCodePoint (lead trail : char16) : Z :=
  (lead - 0xD800) * 0x400 + (trail - 0xDC00) + 0x10000.

Record CodePointRecord := {
  CodePoint : Z;
  CodeUnitCount : nat;
  IsUnpairedSurrogate : bool
}.

(** [CodePointAt(string, position)], on the suffix [first :: rest] that
    starts at [position]. *)
Definition CodePointAt (first : char16) (rest : jsstring) : CodePointRecord :=
  if negb (is_leading_surrogate first) && negb (is_trailing_surrogate first)
  then {| CodePoint := first; CodeUnitCount := 1; IsUnpairedSurrogate := false |}
  else
    match is_trailing_surrogate first, rest with
    | true, _ | _, [] =>
        {| CodePoint := first; CodeUnitCount := 1; IsUnpairedSurrogate := true |}
    | false, second :: _ =>
        if negb (is_trailing_surrogate second)
        then {| CodePoint := first; CodeUnitCount := 1;
                IsUnpairedSurrogate := true |}
        else {| CodePoint := UTF16SurrogatePairToCodePoint first second;
                CodeUnitCount := 2; IsUnpairedSurrogate := false |}
    end.

(** The UTF-8 transformation of a code point into octets. *)
Definition utf8_octets (cp : Z) : list Z :=
  if cp <? 0x80 then [cp]
  else if cp <? 0x800 then
    [Z.lor 0xC0 (Z.shiftr cp 6); Z.lor 0x80 (Z.land cp 0x3F)]
  else if cp <? 0x10000 then
    [Z.lor 0xE0 (Z.shiftr cp 12);
     Z.lor 0x80 (Z.land (Z.shiftr cp 6) 0x3F);
     Z.lor 0x80 (Z.land cp 0x3F)]
  else
    [Z.lor 0xF0 (Z.shiftr cp 18);
     Z.lor 0x80 (Z.land (Z.shiftr cp 12) 0x3F);
     Z.lor 0x80 (Z.land (Z.shiftr cp 6) 0x3F);
     Z.lor 0x80 (Z.land cp 0x3F)].

(** One hexadecimal digit, upper case. *)
Definition hex_digit (d : Z) : char16 :=
  if d <? 10 then 0x30 + d else 0x41 + (d - 10).

(** ["%"] and the octet as two upper-case hexadecimal digits. *)
Definition percent_escape (octet : Z) : jsstring :=
  [0x25; hex_digit (Z.shiftr octet 4); hex_digit (Z.land octet 0xF)].

(** The loop of [Encode(string, extraUnescaped)], with no extra set. *)
Fixpoint Encode_loop (fuel : nat) (s : jsstring) : option (result exn jsstring) :=
  match s with
  | [] => Some (Ok [])
  | C :: rest =>
      match fuel with
      | O => None
      | S fuel' =>
          if contains alwaysUnescaped C then
            match Encode_loop fuel' rest with
            | Some (Ok R) => Some (Ok (C :: R))
            | other => other
            end
          else
            let cp := CodePointAt C rest in
            if IsUnpairedSurrogate cp then Some (Throw URIError)
            else
              match Encode_loop fuel' (drop (CodeUnitCount cp) s) with
              | Some (Ok R) =>
                  Some (Ok (mbind percent_escape (utf8_octets (CodePoint cp)) ++ R))
              | other => other
              end
      end
  end.

Definition encodeURIComponent (s : jsstring) : option (result exn jsstring) :=
  Encode_loop (length s) s.

(** The value of one hexadecimal digit, of either case. *)
Definition hex_value (c : char16) : option Z :=
  if (0x30 <=? c) && (c <=? 0x39) then Some (c - 0x30)
  else if (0x41 <=? c) && (c <=? 0x46) then Some (c - 0x41 + 10)
  else if (0x61 <=? c) && (c <=? 0x66) then Some (c - 0x61 + 10)
  else None.

(** [ParseHexOctet(string, position)] on the two code units there. *)
Definition ParseHexOctet (h1 h2 : char16) : option Z :=
  match hex_value h1, hex_value h2 with
  | Some hi, Some lo => Some (Z.lor (Z.shiftl hi 4) lo)
  | _, _ => None
  end.

(** The number of leading 1 bits of an octet, from bit [i] down. *)
Fixpoint leading_ones_from (i : nat) (B : Z) : nat :=
  if Z.testbit B (Z.of_nat i) then
    match i with
    | O => 1
    | S i' => S (leading_ones_from i' B)
    end
  else 0.
Definition leading_ones (B : Z) : nat := leading_ones_from 7 B.

(** The loop that reads the [n - 1] continuation octets ["%XX"]. *)
Fixpoint continuation_octets (j : nat) (s : jsstring) : option (list Z * jsstring) :=
  match j with
  | O => Some ([], s)
  | S j' =>
      match s with
      | pct :: h1 :: h2 :: rest =>
          if pct =? 0x25 then
            match ParseHexOctet h1 h2 with
            | Some continuationByte =>
                match continuation_octets j' rest with
                | Some (Octets, rest') => Some (continuationByte :: Octets, rest')
                | None => None
                end
            | None => None
            end
          else None
      | _ => None
      end
  end.

Definition is_continuation (B : Z) : bool := Z.land B 0xC0 =? 0x80.

(** The UTF-8 transformation of octets into a 21-bit value. *)
Definition utf8_value (Octets : list Z) : Z :=
  match Octets with
  | [b0; b1] =>
      Z.lor (Z.shiftl (Z.land b0 0x1F) 6) (Z.land b1 0x3F)
  | [b0; b1; b2] =>
      Z.lor (Z.shiftl (Z.land b0 0x0F) 12)
        (Z.lor (Z.shiftl (Z.land b1 0x3F) 6) (Z.land b2 0x3F))
  | [b0; b1; b2; b3] =>
      Z.lor (Z.shiftl (Z.land b0 0x07) 18)
        (Z.lor (Z.shiftl (Z.land b1 0x3F) 12)
           (Z.lor (Z.shiftl (Z.land b2 0x3F) 6) (Z.land b3 0x3F)))
  | _ => 0
  end.

(** Whether the octets are the UTF-8 encoding of a code point: the
    followers are continuation octets, the value needs this many octets,
    is no surrogate and is at most 0x10FFFF. *)
Definition valid_utf8 (Octets : list Z) : bool :=
  match Octets with
  | b0 :: followers =>
      forallb is_continuation followers &&
      let V := utf8_value Octets in
      match length Octets with
      | 2%nat => 0x80 <=? V
      | 3%nat => (0x800 <=? V) && negb ((0xD800 <=? V) && (V <=? 0xDFFF))
      | 4%nat => (0x10000 <=? V) && (V <=? 0x10FFFF)
      | _ => false
      end
  | [] => false
  end.

Definition UTF16EncodeCodePoint (cp : Z) : jsstring :=
  if cp <=? 0xFFFF then [cp]
  else [Z.shiftr (cp - 0x10000) 10 + 0xD800;
        Z.land (cp - 0x10000) 0x3FF + 0xDC00].

(** The loop of [Decode(string, preserveEscapeSet)], with the empty set
    to preserve. *)
Fixpoint Decode_loop (fuel : nat) (s : jsstring) : option (result exn jsstring) :=
  match s with
  | [] => Some (Ok [])
  | C :: rest =>
      match fuel with
      | O => None
      | S fuel' =>
          let continue (S : jsstring) (rest : jsstring) :=
            match Decode_loop fuel' rest with
            | Some (Ok R) => Some (Ok (S ++ R))
            | other => other
            end in
          if C =? 0x25 then
            match rest with
            | h1 :: h2 :: rest2 =>
                match ParseHexOctet h1 h2 with
                | None => Some (Throw URIError)
                | Some B =>
                    let n := leading_ones B in
                    if (n =? 0)%nat then continue [B] rest2
                    else if (n =? 1)%nat || (4 <? n)%nat then Some (Throw URIError)
                    else
                      match continuation_octets (n - 1) rest2 with
                      | None => Some (Throw URIError)
                      | Some (followers, rest3) =>
                          let Octets := B :: followers in
                          if valid_utf8 Octets
                          then continue (UTF16EncodeCodePoint (utf8_value Octets)) rest3
                          else Some (Throw URIError)
                      end
                end
            | _ => Some (Throw URIError)
            end
          else continue [C] rest
      end
  end.

Definition decodeURIComponent (s : jsstring) : option (result exn jsstring) :=
  Decode_loop (length s) s.

End URI.

(** ** goog.storage.mechanism.IEUserData: the key codec *)
Module IEUserData.
Import URI.

(** [ENCODE_MAP], the characters [encodeURIComponent] leaves alone and the
    percent sign. *)
Definition ENCODE_MAP : list (char16 * jsstring) :=
  [ (0x2E, lit ".2E"); (0x21, lit ".21"); (0x7E, lit ".7E"); (0x2A, lit ".2A");
    (0x27, lit ".27"); (0x28, lit ".28"); (0x29, lit ".29"); (0x25, lit ".") ].

Fixpoint lookup_map (m : list (char16 * jsstring)) (c : char16) : option jsstring :=
  match m with
  | [] => None
  | (c', r) :: m' => if c' =? c then Some r else lookup_map m' c
  end.

(** [s.replace(/[.!~*'()%]/g, function(c) { return ENCODE_MAP[c]; })]. *)
Definition replace_reserved (s : jsstring) : jsstring :=
  c ← s;
  if contains (lit ".!~*'()%") c
  then default (lit "undefined") (lookup_map ENCODE_MAP c)
  else [c].

(** [s.replace(/\./g, '%')]. *)
Definition replace_dots (s : jsstring) : jsstring :=
  (λ c, if c =? 0x2E then 0x25 else c) <$> s.

Definition encodeKey_ (key : jsstring) : option (result exn jsstring) :=
  match encodeURIComponent key with
  | Some (Ok e) => Some (Ok (lit "_" ++ replace_reserved e))
  | other => other
  end.

Definition decodeKey_ (key : jsstring) : option (result exn jsstring) :=
  match decodeURIComponent (replace_dots key) with
  | Some (Ok d) => Some (Ok (substr d 1 None))
  | other => other
  end.

(** A string with no unpaired surrogate: each leading surrogate is
    followed by a trailing one, and no trailing one stands alone. *)
Fixpoint well_formed_utf16 (s : jsstring) : bool :=
  match s with
  | [] => true
  | c :: rest =>
      if is_leading_surrogate c then
        match rest with
        | c2 :: rest' => is_trailing_surrogate c2 && well_formed_utf16 rest'
        | [] => false
        end
      else negb (is_trailing_surrogate c) && well_formed_utf16 rest
  end.

(** *** Auxiliary notions for the round trip *)

(** The octets below [n], for exhaustive checks. *)
Definition octets_below (n : nat) : list Z := Z.of_nat <$> seq 0 n.


Definition is_octet (B : Z) : Prop := 0 <= B < 256.


(** What the two replacements of the codec do to an encoded string. *)
Definition requoted (R : jsstring) : jsstring := replace_dots (replace_reserved R).

Definition octet_check (B : Z) : bool :=
  bool_decide (ParseHexOctet (hex_digit (Z.shiftr B 4)) (hex_digit (Z.land B 0xF))
               = Some B)
  && bool_decide (requoted (percent_escape B) = percent_escape B)
  && bool_decide (leading_ones B =
       if B <? 0x80 then 0%nat else if B <? 0xC0 then 1%nat
       else if B <? 0xE0 then 2%nat else if B <? 0xF0 then 3%nat
       else if B <? 0xF8 then 4%nat else leading_ones B)
  && bool_decide (is_continuation B = (0x80 <=? B) && (B <? 0xC0)).

(** *** Notions for the names of attributes *)

(** The characters of an encoded key: [-a-zA-Z0-9_], which stand for
    themselves, and the dot of the escapes. *)
Definition plainChars : jsstring := asciiWord ++ lit "-".
Definition nameChars : jsstring := plainChars ++ lit ".".

Definition safe_name (e : jsstring) : bool := forallb (contains nameChars) e.

(** A piece of what [encodeURIComponent] returns: a character left
    alone, or the escape of an octet. *)
Definition is_piece (p : jsstring) : Prop :=
  (∃ C, p = [C] ∧ contains alwaysUnescaped C = true)
  ∨ (∃ B, is_octet B ∧ p = percent_escape B).

Definition piece_check (B : Z) : bool :=
  safe_name (replace_reserved (percent_escape B)).


(** *** The iterator of the mechanism

    [__iterator__] walks the attributes of the storage node, an array of
    items with a [nodeName] and a [nodeValue], by an index [i] of its
    own. According to the source a value that is not a string (a number
    or a boolean) is a storage error. *)
Inductive NodeValue :=
| StringValue (v : jsstring)
| OtherValue.

Record Attr := { nodeName : jsstring; nodeValue : NodeValue }.

(** What the mechanism throws: its own error codes and the error of
    [decodeURIComponent]. *)
Inductive Thrown :=
| INVALID_VALUE
| QUOTA_EXCEEDED
| Uri (e : exn).

Inductive IterStep :=
| Done
| Yield (v : jsstring)
| Raise (e : Thrown).

(** [newIter.next]: the step and the index [i] it leaves. *)
Definition next (opt_keys : bool) (attributes : list Attr) (i : nat)
  : option (IterStep * nat) :=
  match attributes !! i with
  | None => Some (Done, i)
  | Some item =>
      if opt_keys then
        match decodeKey_ (nodeName item) with
        | Some (Ok key) => Some (Yield key, S i)
        | Some (Throw e) => Some (Raise (Uri e), S i)
        | None => None
        end
      else
        match nodeValue item with
        | StringValue value => Some (Yield value, S i)
        | OtherValue => Some (Raise INVALID_VALUE, S i)
        end
  end.

(** A loop over the iterator, as [goog.iter.forEach] runs it: the items
    up to the end, or the exception that ends it; at most [fuel] calls of
    [next]. *)
Fixpoint drain (fuel : nat) (opt_keys : bool) (attributes : list Attr) (i : nat)
  : option (result Thrown (list jsstring)) :=
  match fuel with
  | O => None
  | S fuel' =>
      match next opt_keys attributes i with
      | None => None
      | Some (Done, _) => Some (Ok [])
      | Some (Raise e, _) => Some (Throw e)
      | Some (Yield v, i') =>
          match drain fuel' opt_keys attributes i' with
          | Some (Ok vs) => Some (Ok (v :: vs))
          | other => other
          end
      end
  end.

Definition iterate (opt_keys : bool) (attributes : list Attr)
  : option (result Thrown (list jsstring)) :=
  drain (S (length attributes)) opt_keys attributes 0.

(** *** Clearing the node

    [node.removeAttribute(name)] of the DOM takes the attribute of that
    name off the element; [node.attributes] is live, it is the list of
    the attributes that are left. *)
Definition removeAttribute (name : jsstring) (attributes : list Attr) : list Attr :=
  filter (λ a, nodeName a ≠ name) attributes.

(** What can end [clear]: reading [nodeName] of an index that holds no
    attribute is a [TypeError] of the language. *)
Inductive ClearError :=
| TypeError
| Storage (e : Thrown).

(** The loop of [clear], with its counter [left]. *)
Fixpoint clear_loop (left : nat) (attributes : list Attr)
  : result ClearError (list Attr) :=
  match left with
  | O => Ok attributes
  | S left' =>
      match attributes !! left' with
      | Some item => clear_loop left' (removeAttribute (nodeName item) attributes)
      | None => Throw TypeError
      end
  end.

(** [clear]; whether the [save] of the browser goes through is not up to
    the mechanism: [saved] tells. *)
Definition clear (saved : bool) (attributes : list Attr)
  : result ClearError (list Attr) :=
  match clear_loop (length attributes) attributes with
  | Ok attributes' =>
      if saved then Ok attributes' else Throw (Storage QUOTA_EXCEEDED)
  | Throw e => Throw e
  end.

End IEUserData.

(** ** goog.net.jsloader

    The loader runs in the single thread of the page: the calls of its
    functions and the events of the browser (a script has loaded, a script
    has failed, a timer has elapsed) each run to completion, one after the
    other, over the state of the page. The state holds the two module
    variables of jsloader, the [goog.async.Deferred] objects, the script
    elements, the timers of [window.setTimeout] and the registry of
    verification objects. Objects are named by their address, the index
    at which they were allocated. *)
Module JsLoader.

Local Open Scope nat_scope.

(** *** Values *)

Inductive ErrorCode :=
| LOAD_ERROR
| TIMEOUT
| VERIFY_ERROR
| VERIFY_OBJECT_ALREADY_EXISTS.

Definition ErrorCode_number (code : ErrorCode) : string :=
  match code with
  | LOAD_ERROR => "0"
  | TIMEOUT => "1"
  | VERIFY_ERROR => "2"
  | VERIFY_OBJECT_ALREADY_EXISTS => "3"
  end.

(** [goog.net.jsloader.Error]. *)
Record Error := { code : ErrorCode; message : string }.

Definition new_Error (code : ErrorCode) (opt_message : string) : Error :=
  let msg := "Jsloader error (code #" +:+ ErrorCode_number code +:+ ")" in
  {| code := code;
     message := if bool_decide (opt_message = "") then msg
                else msg +:+ ": " +:+ opt_message |}.

(** What a slot of the registry of verification objects may read as: a
    value that a loaded script has left there, which is any value but
    [undefined] (an empty slot), or the value that the registry, a plain
    object, inherits under a name of [Object.prototype]. *)
Inductive data :=
| DNull
| DObject (tag : string)
| DInherited (name : string).

(** The values handed along the callbacks of a Deferred. *)
Inductive value :=
| VUndefined
| VData (v : data)
| VError (e : Error)
| VAlreadyCalledError (deferred : nat)
| VDeferred (deferred : nat).

Definition is_VDeferred (v : value) : bool :=
  match v with
  | VDeferred _ => true
  | _ => false
  end.

Definition isError (v : value) : bool :=
  match v with
  | VError _ | VAlreadyCalledError _ => true
  | _ => false
  end.

#[export] Instance ErrorCode_eq_dec : EqDecision ErrorCode.
Proof. solve_decision. Defined.
#[export] Instance Error_eq_dec : EqDecision Error.
Proof. solve_decision. Defined.
#[export] Instance data_eq_dec : EqDecision data.
Proof. solve_decision. Defined.
#[export] Instance value_eq_dec : EqDecision value.
Proof. solve_decision. Defined.

(** [goog.net.jsloader.Options]. *)
Record Options := {
  timeout : option Z;
  document : option nat;
  cleanupWhenDone : option bool;
  attributes : option (gmap string string)
}.

(** *** Functions

    The closures the loader hangs on Deferreds, script elements and
    timers, each with the variables it has captured, and the callbacks
    of the callers, of which the model keeps what they were called
    with. *)
Inductive fn :=
| popAndLoadNextScript (opt_options : option Options)
| continue_ (this : nat) (isSuccess : bool)
| verifyCallback (deferred : nat) (verificationObjName uri : string)
| verifyErrback (deferred : nat) (verificationObjName : string)
| observer (tag : nat).

(** The request of [safeLoad], the scope of the canceller. *)
Record Request := { script_ : nat; timeout_ : option nat }.

(** [goog.async.Deferred]: the fields [fire_] works on. The fields that
    serve cancellation, branching and the report of unhandled errors are
    left out, with the methods that use them. *)
Record Deferred := {
  sequence_ : list (option fn * option fn);
  defaultScope_ : option Request;
  fired_ : bool;
  hadError_ : bool;
  result_ : value;
  blocked_ : bool;
  blocking_ : bool
}.

(** The handlers [onload], [onreadystatechange] and [onerror] that
    [safeLoad] sets on a script element share these captured variables. *)
Record Handlers := {
  h_deferred : nat;
  h_timeout : option nat;
  h_removeScriptNode : bool;
  h_uri : string
}.

Record Script := {
  src : string;
  properties : gmap string string;
  ownerDocument : nat;
  (** [None] once [cleanup_] has put [goog.nullFunction] in their place. *)
  handlers : option Handlers;
  (** Whether the element hangs in its document. *)
  attached : bool
}.

Inductive TimerTask :=
| timeoutTask (script deferred : nat) (uri : string)
| removeNodeTask (scriptNode : nat).

(** What an observer of the page sees, in order. *)
Inductive Trace :=
| LoadStarted (script : nat) (uri : string)
| LoadCompleted (script : nat) (failure : option ErrorCode)
| Observed (tag : nat) (asError : bool) (v : value).

Record State := {
  scriptsToLoad_ : list string;
  scriptLoadingDeferred_ : option nat;
  deferreds : list Deferred;
  scripts : list Script;
  (** The timers set; [None] once cleared or run. *)
  timers : list (option TimerTask);
  (** [goog.global['closure_verification']], if it has been made. *)
  verifyObjs : option (gmap string data);
  trace : list Trace
}.

Definition initial : State :=
  {| scriptsToLoad_ := []; scriptLoadingDeferred_ := None; deferreds := [];
     scripts := []; timers := []; verifyObjs := None; trace := [] |}.

Definition DEFAULT_TIMEOUT : Z := 5000.
Definition GLOBAL_VERIFY_OBJS_ : string := "closure_verification".

(** *** Updates of the state *)

Definition set_scriptsToLoad_ (q : list string) (s : State) : State :=
  {| scriptsToLoad_ := q; scriptLoadingDeferred_ := scriptLoadingDeferred_ s;
     deferreds := deferreds s; scripts := scripts s; timers := timers s;
     verifyObjs := verifyObjs s; trace := trace s |}.

Definition set_scriptLoadingDeferred_ (d : nat) (s : State) : State :=
  {| scriptsToLoad_ := scriptsToLoad_ s; scriptLoadingDeferred_ := Some d;
     deferreds := deferreds s; scripts := scripts s; timers := timers s;
     verifyObjs := verifyObjs s; trace := trace s |}.

Definition set_deferreds (h : list Deferred) (s : State) : State :=
  {| scriptsToLoad_ := scriptsToLoad_ s;
     scriptLoadingDeferred_ := scriptLoadingDeferred_ s;
     deferreds := h; scripts := scripts s; timers := timers s;
     verifyObjs := verifyObjs s; trace := trace s |}.

Definition set_scripts (n : list Script) (s : State) : State :=
  {| scriptsToLoad_ := scriptsToLoad_ s;
     scriptLoadingDeferred_ := scriptLoadingDeferred_ s;
     deferreds := deferreds s; scripts := n; timers := timers s;
     verifyObjs := verifyObjs s; trace := trace s |}.

Definition set_timers (t : list (option TimerTask)) (s : State) : State :=
  {| scriptsToLoad_ := scriptsToLoad_ s;
     scriptLoadingDeferred_ := scriptLoadingDeferred_ s;
     deferreds := deferreds s; scripts := scripts s; timers := t;
     verifyObjs := verifyObjs s; trace := trace s |}.

Definition set_verifyObjs (r : gmap string data) (s : State) : State :=
  {| scriptsToLoad_ := scriptsToLoad_ s;
     scriptLoadingDeferred_ := scriptLoadingDeferred_ s;
     deferreds := deferreds s; scripts := scripts s; timers := timers s;
     verifyObjs := Some r; trace := trace s |}.

Definition emit (e : Trace) (s : State) : State :=
  {| scriptsToLoad_ := scriptsToLoad_ s;
     scriptLoadingDeferred_ := scriptLoadingDeferred_ s;
     deferreds := deferreds s; scripts := scripts s; timers := timers s;
     verifyObjs := verifyObjs s; trace := trace s ++ [e] |}.

(** A change of one Deferred in place; nothing happens at an address
    that holds none. *)
Definition modify (d : nat) (f : Deferred → Deferred) (s : State) : State :=
  set_deferreds (alter f d (deferreds s)) s.

Definition with_sequence_ (q : list (option fn * option fn)) (D : Deferred)
  : Deferred :=
  {| sequence_ := q; defaultScope_ := defaultScope_ D; fired_ := fired_ D;
     hadError_ := hadError_ D; result_ := result_ D; blocked_ := blocked_ D;
     blocking_ := blocking_ D |}.

Definition with_fired_ (b : bool) (D : Deferred) : Deferred :=
  {| sequence_ := sequence_ D; defaultScope_ := defaultScope_ D; fired_ := b;
     hadError_ := hadError_ D; result_ := result_ D; blocked_ := blocked_ D;
     blocking_ := blocking_ D |}.

Definition with_hadError_ (b : bool) (D : Deferred) : Deferred :=
  {| sequence_ := sequence_ D; defaultScope_ := defaultScope_ D;
     fired_ := fired_ D; hadError_ := b; result_ := result_ D;
     blocked_ := blocked_ D; blocking_ := blocking_ D |}.

Definition with_result_ (v : value) (D : Deferred) : Deferred :=
  {| sequence_ := sequence_ D; defaultScope_ := defaultScope_ D;
     fired_ := fired_ D; hadError_ := hadError_ D; result_ := v;
     blocked_ := blocked_ D; blocking_ := blocking_ D |}.

Definition with_blocked_ (b : bool) (D : Deferred) : Deferred :=
  {| sequence_ := sequence_ D; defaultScope_ := defaultScope_ D;
     fired_ := fired_ D; hadError_ := hadError_ D; result_ := result_ D;
     blocked_ := b; blocking_ := blocking_ D |}.

Definition with_blocking_ (b : bool) (D : Deferred) : Deferred :=
  {| sequence_ := sequence_ D; defaultScope_ := defaultScope_ D;
     fired_ := fired_ D; hadError_ := hadError_ D; result_ := result_ D;
     blocked_ := blocked_ D; blocking_ := b |}.


(** *** goog.async.Deferred

    Modelled from the spec: mochikit/async/deferred.js is not among the
    sources. The completion handle of the specification is an object with
    callbacks for success and failure, run in the order of their
    registration once the handle has a result; a callback that returns
    another handle makes the first wait for it. The methods follow
    [goog.async.Deferred]: [callback], [errback], [addCallbacks],
    [addBoth], [continue_], [updateResult_], [fire_], [succeed], [fail].
    Assertions of [goog.asserts] are taken as compiled out. The methods
    that run callbacks take [fire], the method [fire_], as an argument. *)

Inductive completion :=
| Return (v : value)
| Raise (ex : value).

Definition new_Deferred (opt_defaultScope : option Request) : Deferred :=
  {| sequence_ := []; defaultScope_ := opt_defaultScope; fired_ := false;
     hadError_ := false; result_ := VUndefined; blocked_ := false;
     blocking_ := false |}.

Definition alloc_Deferred (opt_defaultScope : option Request) (s : State)
  : nat * State :=
  (length (deferreds s),
   set_deferreds (deferreds s ++ [new_Deferred opt_defaultScope]) s).

Definition hasFired (d : nat) (s : State) : bool :=
  match deferreds s !! d with
  | Some D => fired_ D
  | None => false
  end.

Definition current_result (d : nat) (s : State) : value :=
  match deferreds s !! d with
  | Some D => result_ D
  | None => VUndefined
  end.

Section Methods.
Variable fire : nat → State → option State.

Definition updateResult_ (d : nat) (isSuccess : bool) (res : value) (s : State)
  : option State :=
  fire d (modify d (λ D, with_hadError_ (negb isSuccess)
                           (with_result_ res (with_fired_ true D))) s).

(** [callback] and [errback]; [check_] throws on a Deferred that has
    fired. *)
Definition callback (d : nat) (opt_result : value) (s : State)
  : option (State * completion) :=
  if hasFired d s then Some (s, Raise (VAlreadyCalledError d))
  else s' ← updateResult_ d true opt_result s; Some (s', Return VUndefined).

Definition errback (d : nat) (opt_result : value) (s : State)
  : option (State * completion) :=
  if hasFired d s then Some (s, Raise (VAlreadyCalledError d))
  else s' ← updateResult_ d false opt_result s; Some (s', Return VUndefined).

Definition addCallbacks (d : nat) (cb eb : option fn) (s : State) : option State :=
  let s1 := modify d (λ D, with_sequence_ (sequence_ D ++ [(cb, eb)]) D) s in
  if hasFired d s1 then fire d s1 else Some s1.

Definition addBoth (d : nat) (f : fn) (s : State) : option State :=
  addCallbacks d (Some f) (Some f) s.

Definition do_continue_ (d : nat) (isSuccess : bool) (res : value) (s : State)
  : option State :=
  updateResult_ d isSuccess res (modify d (with_blocked_ false) s).

(** [goog.async.Deferred.succeed] and [goog.async.Deferred.fail]. *)
Definition succeed (res : value) (s : State) : option (State * nat) :=
  let '(d, s1) := alloc_Deferred None s in
  '(s2, _) ← callback d res s1; Some (s2, d).

Definition fail (res : value) (s : State) : option (State * nat) :=
  let '(d, s1) := alloc_Deferred None s in
  '(s2, _) ← errback d res s1; Some (s2, d).

End Methods.

(** *** The functions of jsloader *)

Definition setTimeout (task : TimerTask) (s : State) : nat * State :=
  (length (timers s), set_timers (timers s ++ [Some task]) s).

Definition clearTimeout (t : nat) (s : State) : State :=
  set_timers (<[t := None]> (timers s)) s.

Definition modify_script (n : nat) (f : Script → Script) (s : State) : State :=
  set_scripts (alter f n (scripts s)) s.

Definition with_handlers (h : option Handlers) (N : Script) : Script :=
  {| src := src N; properties := properties N;
     ownerDocument := ownerDocument N; handlers := h; attached := attached N |}.

Definition with_attached (b : bool) (N : Script) : Script :=
  {| src := src N; properties := properties N;
     ownerDocument := ownerDocument N; handlers := handlers N; attached := b |}.

(** [goog.net.jsloader.cleanup_]. *)
Definition cleanup_ (scriptNode : nat) (removeScriptNode : bool)
    (opt_timeout : option nat) (s : State) : State :=
  let s1 := match opt_timeout with
            | Some t => clearTimeout t s
            | None => s
            end in
  let s2 := modify_script scriptNode (with_handlers None) s1 in
  if removeScriptNode then (setTimeout (removeNodeTask scriptNode) s2).2 else s2.

(** [goog.net.jsloader.safeLoad]. The current document is document 0.
    [goog.dom.setProperties] sets each of the properties on the element
    and [goog.dom.safe.setScriptSrc] then sets [src]: of a [src] among
    the attributes of the options nothing is left, the field [src] is
    the URI. [properties] holds what [setProperties] has set and nothing
    has set again. *)
Definition safeLoad (uri : string) (opt_options : option Options) (s : State)
  : nat * State :=
  let doc := default 0 (opt_options ≫= document) in
  let script := length (scripts s) in
  let s1 := set_scripts (scripts s ++
              [{| src := ""; properties := ∅; ownerDocument := doc;
                  handlers := None; attached := false |}]) s in
  let '(deferred, s2) :=
    alloc_Deferred (Some {| script_ := script; timeout_ := None |}) s1 in
  let timeoutDuration := default DEFAULT_TIMEOUT (opt_options ≫= timeout) in
  let '(timeout, s3) :=
    if (0 <? timeoutDuration)%Z then
      let '(t, s') := setTimeout (timeoutTask script deferred uri) s2 in
      (Some t,
       modify deferred (λ D,
         {| sequence_ := sequence_ D;
            defaultScope_ := Some {| script_ := script; timeout_ := Some t |};
            fired_ := fired_ D; hadError_ := hadError_ D; result_ := result_ D;
            blocked_ := blocked_ D; blocking_ := blocking_ D |}) s')
    else (None, s2) in
  let h := {| h_deferred := deferred; h_timeout := timeout;
              h_removeScriptNode := default false (opt_options ≫= cleanupWhenDone);
              h_uri := uri |} in
  let props := delete "src"
                 (<["charset" := "UTF-8"]>
                    (<["type" := "text/javascript"]>
                       (default ∅ (opt_options ≫= attributes)))) in
  let s4 := modify_script script (λ N,
              {| src := uri; properties := props; ownerDocument := doc;
                 handlers := Some h; attached := true |}) s3 in
  (deferred, emit (LoadStarted script uri) s4).

(** The handler [onload] / [onreadystatechange] of a script element. *)
Definition is_ready (readyState : option string) : bool :=
  match readyState with
  | None => true
  | Some r =>
      bool_decide (r = "") || bool_decide (r = "loaded")
      || bool_decide (r = "complete")
  end.

Section Callbacks.
Variable fire : nat → State → option State.

Definition onload (script : nat) (h : Handlers) (readyState : option string)
    (s : State) : option (State * completion) :=
  if is_ready readyState then
    let s1 := emit (LoadCompleted script None) s in
    let s2 := cleanup_ script (h_removeScriptNode h) (h_timeout h) s1 in
    callback fire (h_deferred h) (VData DNull) s2
  else Some (s, Return VUndefined).

Definition onerror (script : nat) (h : Handlers) (s : State)
  : option (State * completion) :=
  let s1 := emit (LoadCompleted script (Some LOAD_ERROR)) s in
  let s2 := cleanup_ script true (h_timeout h) s1 in
  errback fire (h_deferred h)
    (VError (new_Error LOAD_ERROR ("Error while loading script " +:+ h_uri h))) s2.

(** The function given to [window.setTimeout] by [safeLoad], and the one
    given by [cleanup_]. *)
Definition run_task (task : TimerTask) (s : State) : option (State * completion) :=
  match task with
  | timeoutTask script deferred uri =>
      let s1 := emit (LoadCompleted script (Some TIMEOUT)) s in
      let s2 := cleanup_ script true None s1 in
      errback fire deferred
        (VError (new_Error TIMEOUT ("Timeout reached for loading script " +:+ uri)))
        s2
  | removeNodeTask scriptNode =>
      Some (modify_script scriptNode (with_attached false) s, Return VUndefined)
  end.

(** [popAndLoadNextScript], the closure of [safeLoadMany]; [trustedUris]
    is [scriptsToLoad_] itself. A [shift] of the empty array gives
    [undefined], which [TrustedResourceUrl.unwrap] turns into a string
    that names the type error. *)
Definition do_popAndLoadNextScript (opt_options : option Options) (s : State)
  : option (State * nat) :=
  let trustedUri := head (scriptsToLoad_ s) in
  let s1 := set_scriptsToLoad_ (tail (scriptsToLoad_ s)) s in
  let '(deferred, s2) :=
    safeLoad (default "type_error:TrustedResourceUrl" trustedUri) opt_options s1 in
  s3 ← (if bool_decide (length (scriptsToLoad_ s2) ≠ 0)
        then addBoth fire deferred (popAndLoadNextScript opt_options) s2
        else Some s2);
  Some (s3, deferred).

(** The registry of verification objects is a plain object, [{}]: it
    has the properties that scripts have set on it, its own, and it
    inherits those of [Object.prototype]. *)
Definition Object_prototype : list string :=
  ["constructor"; "__defineGetter__"; "__defineSetter__"; "hasOwnProperty";
   "__lookupGetter__"; "__lookupSetter__"; "isPrototypeOf";
   "propertyIsEnumerable"; "toString"; "valueOf"; "__proto__";
   "toLocaleString"]%string.

Definition inherited (name : string) : option data :=
  if bool_decide (name ∈ Object_prototype) then Some (DInherited name) else None.

(** The own property [name] of the registry. *)
Definition own_verifyObj (name : string) (s : State) : option data :=
  verifyObjs s ≫= (.!! name).

(** [verifyObjs[name]]: the own property, or else the inherited one;
    [None] is [undefined]. Before the registry has been made the name
    reads as in the empty registry that [safeLoadAndVerify] makes. *)
Definition lookup_verifyObj (name : string) (s : State) : option data :=
  match own_verifyObj name s with
  | Some v => Some v
  | None => inherited name
  end.

(** [delete verifyObjs[name]] takes the own property away. *)
Definition delete_verifyObj (name : string) (s : State) : State :=
  match verifyObjs s with
  | Some r => set_verifyObjs (delete name r) s
  | None => s
  end.

(** The callback and the errback that [safeLoadAndVerify] hangs on the
    Deferred of the load. *)
Definition do_verifyCallback (deferred : nat) (verificationObjName uri : string)
    (s : State) : option (State * completion) :=
  match lookup_verifyObj verificationObjName s with
  | Some result =>
      r ← callback fire deferred (VData result) s;
      match r with
      | (s1, Return _) =>
          Some (delete_verifyObj verificationObjName s1, Return VUndefined)
      | (s1, Raise ex) => Some (s1, Raise ex)
      end
  | None =>
      r ← errback fire deferred
            (VError (new_Error VERIFY_ERROR
               ("Script " +:+ uri +:+ " loaded, but verification object "
                +:+ verificationObjName +:+ " was not defined."))) s;
      match r with
      | (s1, Return _) => Some (s1, Return VUndefined)
      | (s1, Raise ex) => Some (s1, Raise ex)
      end
  end.

Definition do_verifyErrback (deferred : nat) (verificationObjName : string)
    (error : value) (s : State) : option (State * completion) :=
  let s1 := match lookup_verifyObj verificationObjName s with
            | Some _ => delete_verifyObj verificationObjName s
            | None => s
            end in
  r ← errback fire deferred error s1;
  match r with
  | (s2, Return _) => Some (s2, Return VUndefined)
  | (s2, Raise ex) => Some (s2, Raise ex)
  end.

(** The call [f(res)] of a function hung on a Deferred. *)
Definition invoke (f : fn) (onErrorPath : bool) (res : value) (s : State)
  : option (State * completion) :=
  match f with
  | popAndLoadNextScript opt_options =>
      '(s1, deferred) ← do_popAndLoadNextScript opt_options s;
      Some (s1, Return (VDeferred deferred))
  | continue_ this isSuccess =>
      s1 ← do_continue_ fire this isSuccess res s; Some (s1, Return VUndefined)
  | verifyCallback deferred name uri => do_verifyCallback deferred name uri s
  | verifyErrback deferred name => do_verifyErrback deferred name res s
  | observer tag => Some (emit (Observed tag onErrorPath res) s, Return VUndefined)
  end.

End Callbacks.

Definition STRICT_ERRORS : bool := false.

(** [goog.async.Deferred.prototype.fire_]: one turn of the loop over
    [sequence_], with its variables [res] and [isNewlyBlocked], and what
    follows the loop. [fire] is [fire_] as the callbacks call it and [loop]
    is the rest of the loop. *)
Section FireBody.
Variable fire : nat → State → option State.
Variable loop : nat → value → bool → State → option State.

Definition fire_body (d : nat) (res : value) (isNewlyBlocked : bool) (s : State)
  : option State :=
  match deferreds s !! d with
  | None => Some s
  | Some D =>
      match sequence_ D, blocked_ D with
      | sequenceEntry :: sequence', false =>
          let s1 := modify d (with_sequence_ sequence') s in
          match (if hadError_ D then sequenceEntry.2 else sequenceEntry.1) with
          | None => loop d res isNewlyBlocked s1
          | Some f =>
              match invoke fire f (hadError_ D) res s1 with
              | None => None
              | Some (s2, Return ret) =>
                  let '(s3, res') :=
                    if bool_decide (ret = VUndefined) then (s2, res)
                    else
                      (modify d (λ D2,
                         with_result_ ret
                           (with_hadError_
                              (hadError_ D2 &&
                               (bool_decide (ret = res) || isError ret)) D2))
                         s2, ret) in
                  if is_VDeferred res'
                  then loop d res' true (modify d (with_blocked_ true) s3)
                  else loop d res' isNewlyBlocked s3
              | Some (s2, Raise ex) =>
                  loop d ex isNewlyBlocked (modify d (with_hadError_ true) s2)
              end
          end
      | _, _ =>
          let s1 := modify d (with_result_ res) s in
          if isNewlyBlocked then
            match res with
            | VDeferred r =>
                s2 ← addCallbacks fire r (Some (continue_ d true))
                       (Some (continue_ d false)) s1;
                Some (modify r (with_blocking_ true) s2)
            | _ => Some s1
            end
          else if STRICT_ERRORS && isError res
          then Some (modify d (with_hadError_ true) s1)
          else Some s1
      end
  end.

End FireBody.

(** The loop, by the turns it may still take: each turn of the loop and
    each call of [fire_] from a callback takes one unit of [fuel]. *)
Fixpoint fire_loop (fuel : nat) : nat → value → bool → State → option State :=
  match fuel with
  | O => λ _ _ _ _, None
  | S fuel' =>
      fire_body (λ d s, fire_loop fuel' d (current_result d s) false s)
        (fire_loop fuel')
  end.

Definition fire_ (fuel : nat) (d : nat) (s : State) : option State :=
  fire_loop fuel d (current_result d s) false s.

Section Api.
Variable fire : nat → State → option State.

(** [goog.net.jsloader.safeLoadMany]. *)
Definition safeLoadMany (trustedUris : list string)
    (opt_options : option Options) (s : State) : option (State * value) :=
  if bool_decide (length trustedUris = 0) then
    '(s1, d) ← succeed fire (VData DNull) s; Some (s1, VDeferred d)
  else
    let isAnotherModuleLoading := length (scriptsToLoad_ s) in
    let s1 := set_scriptsToLoad_ (scriptsToLoad_ s ++ trustedUris) s in
    if bool_decide (isAnotherModuleLoading ≠ 0) then
      Some (s1, match scriptLoadingDeferred_ s1 with
                | Some d => VDeferred d
                | None => VUndefined
                end)
    else
      '(s2, d) ← do_popAndLoadNextScript fire opt_options s1;
      Some (set_scriptLoadingDeferred_ d s2, VDeferred d).

(** [goog.net.jsloader.safeLoadAndVerify]. *)
Definition safeLoadAndVerify (uri verificationObjName : string)
    (options : option Options) (s : State) : option (State * value) :=
  let s1 := match verifyObjs s with
            | Some _ => s
            | None => set_verifyObjs ∅ s
            end in
  match lookup_verifyObj verificationObjName s1 with
  | Some _ =>
      '(s2, d) ← fail fire
         (VError (new_Error VERIFY_OBJECT_ALREADY_EXISTS
            ("Verification object " +:+ verificationObjName
             +:+ " already defined."))) s1;
      Some (s2, VDeferred d)
  | None =>
      let '(sendDeferred, s2) := safeLoad uri options s1 in
      let '(deferred, s3) := alloc_Deferred None s2 in
      s4 ← addCallbacks fire sendDeferred
             (Some (verifyCallback deferred verificationObjName uri)) None s3;
      s5 ← addCallbacks fire sendDeferred
             None (Some (verifyErrback deferred verificationObjName)) s4;
      Some (s5, VDeferred deferred)
  end.

End Api.

(** *** The page

    What happens to the loader: its functions are called, a caller hangs
    callbacks of its own on a handle, a loaded script leaves its
    verification object, the browser calls the function that [safeLoad]
    has set on a script element as [onload] and [onreadystatechange] or
    the one it has set as [onerror], a timer elapses. A script leaves its
    object by an assignment to [closure_verification[name]], which makes
    an own property of the registry; an assignment to [__proto__] makes
    none and the prototype of the registry is held fixed, so that event
    leaves the page as it is. [Fires_onload] and [Fires_onerror] are the
    calls of the functions of [safeLoad]: where an attribute of the
    options has taken the place of such a function on the element, the
    browser makes no such call. That a caller cancels a handle is not
    among the events. *)
Inductive Event :=
| Call_safeLoadMany (trustedUris : list string) (opt_options : option Options)
| Call_safeLoad (uri : string) (opt_options : option Options)
| Call_safeLoadAndVerify (uri verificationObjName : string)
    (options : option Options)
| Call_addCallbacks (d : nat) (cb eb : option nat)
| Script_sets (verificationObjName : string) (v : data)
| Fires_onload (script : nat) (readyState : option string)
| Fires_onerror (script : nat)
| Timer_elapses (timer : nat).

(** The entries of all sequences: the callbacks that can still be run. *)
Definition entries (s : State) : nat :=
  sum_list (length ∘ sequence_ <$> deferreds s).

(** The units of fuel that [fire_] is given in a state. *)
Definition budget (s : State) : nat :=
  2 * (entries s + length (deferreds s) + length (scriptsToLoad_ s)) + 8.

(** One event, run to completion. The result is [None] when the fuel
    did not suffice, and else the state and what the call returned or
    threw. *)
Definition exec (e : Event) (s : State) : option (State * completion) :=
  let fire := fire_ (budget s) in
  match e with
  | Call_safeLoadMany trustedUris opt_options =>
      '(s1, v) ← safeLoadMany fire trustedUris opt_options s;
      Some (s1, Return v)
  | Call_safeLoad uri opt_options =>
      let '(d, s1) := safeLoad uri opt_options s in
      Some (s1, Return (VDeferred d))
  | Call_safeLoadAndVerify uri name options =>
      '(s1, v) ← safeLoadAndVerify fire uri name options s;
      Some (s1, Return v)
  | Call_addCallbacks d cb eb =>
      s1 ← addCallbacks fire d (observer <$> cb) (observer <$> eb) s;
      Some (s1, Return (VDeferred d))
  | Script_sets name v =>
      if bool_decide (name = "__proto__") then Some (s, Return VUndefined)
      else
        Some (set_verifyObjs (<[name := v]> (default ∅ (verifyObjs s))) s,
              Return VUndefined)
  | Fires_onload script readyState =>
      match scripts s !! script ≫= handlers with
      | Some h => onload fire script h readyState s
      | None => Some (s, Return VUndefined)
      end
  | Fires_onerror script =>
      match scripts s !! script ≫= handlers with
      | Some h => onerror fire script h s
      | None => Some (s, Return VUndefined)
      end
  | Timer_elapses timer =>
      match timers s !! timer with
      | Some (Some task) => run_task fire task (clearTimeout timer s)
      | _ => Some (s, Return VUndefined)
      end
  end.

(** A run of events from a state. *)
Fixpoint run (es : list Event) (s : State) : option State :=
  match es with
  | [] => Some s
  | e :: es' => '(s1, _) ← exec e s; run es' s1
  end.

Definition reachable (s : State) : Prop := ∃ es, run es initial = Some s.

(** *** Notions for the properties *)

(** The callbacks of callers, as entries of a [sequence_], and what the
    trace shows when a Deferred runs them with [v]. *)
Definition observers (cbs : list (option nat * option nat))
  : list (option fn * option fn) :=
  (λ p : option nat * option nat, (observer <$> p.1, observer <$> p.2)) <$> cbs.

Definition observed (asError : bool) (v : value)
    (cbs : list (option nat * option nat)) : list Trace :=
  omap (λ p : option nat * option nat,
          (λ tag, Observed tag asError v) <$> (if asError then p.2 else p.1))
    cbs.

Definition emits (tr : list Trace) (s : State) : State :=
  {| scriptsToLoad_ := scriptsToLoad_ s;
     scriptLoadingDeferred_ := scriptLoadingDeferred_ s;
     deferreds := deferreds s; scripts := scripts s; timers := timers s;
     verifyObjs := verifyObjs s; trace := trace s ++ tr |}.

(** The functions hung on a Deferred. *)
Definition fns_of (q : list (option fn * option fn)) : list fn :=
  q ≫= λ entry, option_list entry.1 ++ option_list entry.2.

Definition is_pop (f : fn) : bool :=
  match f with
  | popAndLoadNextScript _ => true
  | _ => false
  end.

(** A Deferred that holds the next turn of the drain. *)
Definition has_pop (D : Deferred) : Prop :=
  Exists (λ f, is_pop f = true) (fns_of (sequence_ D)).

(** The Deferred a function will fire. *)
Definition target (f : fn) : option nat :=
  match f with
  | continue_ this _ => Some this
  | verifyCallback deferred _ _ => Some deferred
  | verifyErrback deferred _ => Some deferred
  | _ => None
  end.

Definition scope_script (D : Deferred) : option nat := script_ <$> defaultScope_ D.

(** Pages to try the properties on: a load with callbacks of a caller on
    its handle; a [safeLoadAndVerify] whose script has run and left its
    object, with callbacks of a caller on its handle; the same after a
    second script has been asked for under the same name. *)
Definition example_load : State :=
  default initial
    (run [Call_safeLoad "v.js" None; Call_addCallbacks 0 (Some 1) (Some 2)]
       initial).

Definition example_verify : State :=
  default initial
    (run [Call_safeLoadAndVerify "v.js" "obj" None;
          Call_addCallbacks 1 (Some 1) (Some 2);
          Script_sets "obj" (DObject "x")] initial).

(** The invariant of the loader. *)
Record Inv (s : State) : Prop := {
  (** A Deferred with the next turn of the drain has not fired; the turn is
      the first entry of its sequence and the only one. *)
  holder_shape : ∀ d D, deferreds s !! d = Some D → has_pop D →
    fired_ D = false ∧ blocked_ D = false ∧
    ∃ o rest, sequence_ D =
                (Some (popAndLoadNextScript o), Some (popAndLoadNextScript o)) :: rest
              ∧ Forall (λ f, is_pop f = false) (fns_of rest);
  holder_unique : ∀ d1 d2 D1 D2,
    deferreds s !! d1 = Some D1 → deferreds s !! d2 = Some D2 →
    has_pop D1 → has_pop D2 → d1 = d2;
  holder_queue : ∀ d D, deferreds s !! d = Some D → has_pop D →
    scriptsToLoad_ s ≠ [];
  (** The Deferreds that functions fire exist and do not hold a turn. *)
  target_quiet : ∀ d D f p, deferreds s !! d = Some D →
    f ∈ fns_of (sequence_ D) → target f = Some p →
    ∃ Dp, deferreds s !! p = Some Dp ∧ ¬ has_pop Dp;
  (** A Deferred whose result is a Deferred waits for it. *)
  result_blocked : ∀ d D, deferreds s !! d = Some D →
    is_VDeferred (result_ D) = true → blocked_ D = true;
  (** The handlers of a script and the timeout of a load fire the Deferred
      of that load. *)
  handler_scope : ∀ sc h, scripts s !! sc ≫= handlers = Some h →
    ∃ D, deferreds s !! h_deferred h = Some D ∧ scope_script D = Some sc;
  timer_scope : ∀ k sc d uri, timers s !! k = Some (Some (timeoutTask sc d uri)) →
    ∃ D, deferreds s !! d = Some D ∧ scope_script D = Some sc
}.


(** *** Notions for the order of the loads *)

(** The Deferreds that hold a turn of the drain are those of the script
    [sc]. *)
Definition holders_scope (s : State) (sc : nat) : Prop :=
  ∀ d D, deferreds s !! d = Some D → has_pop D → scope_script D = Some sc.


Definition no_holders (s : State) : Prop :=
  ∀ d D, deferreds s !! d = Some D → ¬ has_pop D.


Definition pop_entry (o : option Options) : option fn * option fn :=
  (Some (popAndLoadNextScript o), Some (popAndLoadNextScript o)).


Definition next_uri (s : State) : string :=
  default "type_error:TrustedResourceUrl" (head (scriptsToLoad_ s)).



(** How one Deferred may change while no turn of the drain is taken: not
    at all, or, if it holds no turn, by losing entries from the front of
    its sequence and changing its flags and result. *)
Definition evolves (D D' : Deferred) : Prop :=
  defaultScope_ D' = defaultScope_ D
  ∧ sequence_ D' `suffix_of` sequence_ D
  ∧ (has_pop D → sequence_ D' = sequence_ D ∧ fired_ D' = fired_ D
                 ∧ blocked_ D' = blocked_ D)
  ∧ (is_VDeferred (result_ D') = true →
     blocked_ D' = true ∨ (result_ D' = result_ D ∧ blocked_ D' = blocked_ D)).

(** A change of the page that takes no turn of the drain and starts no
    load. *)
Record quiet (s s' : State) : Prop := {
  quiet_queue : scriptsToLoad_ s' = scriptsToLoad_ s;
  quiet_length : length (deferreds s') = length (deferreds s);
  quiet_deferreds : ∀ d D, deferreds s !! d = Some D →
    ∃ D', deferreds s' !! d = Some D' ∧ evolves D D';
  quiet_handlers : ∀ sc h, scripts s' !! sc ≫= handlers = Some h →
    scripts s !! sc ≫= handlers = Some h;
  quiet_timers : ∀ k sc d uri,
    timers s' !! k = Some (Some (timeoutTask sc d uri)) →
    timers s !! k = Some (Some (timeoutTask sc d uri));
  quiet_scripts : length (scripts s') = length (scripts s);
  quiet_trace : trace s `prefix_of` trace s'
}.

(** The page with one more Deferred, which has no callbacks yet; the
    handlers and timers that are new fire the new Deferred, for the script
    of its scope. *)
Record extends (s s' : State) (Dn : Deferred) : Prop := {
  ext_deferreds : deferreds s' = deferreds s ++ [Dn];
  ext_sequence : sequence_ Dn = [];
  ext_result : is_VDeferred (result_ Dn) = false;
  ext_queue : scriptsToLoad_ s' = scriptsToLoad_ s;
  ext_handlers : ∀ sc h, scripts s' !! sc ≫= handlers = Some h →
    scripts s !! sc ≫= handlers = Some h
    ∨ (h_deferred h = length (deferreds s) ∧ scope_script Dn = Some sc);
  ext_timers : ∀ k sc d uri,
    timers s' !! k = Some (Some (timeoutTask sc d uri)) →
    timers s !! k = Some (Some (timeoutTask sc d uri))
    ∨ (d = length (deferreds s) ∧ scope_script Dn = Some sc)
}.

(** The page after [safeLoad]: one more Deferred, for the new script, and
    the start of the load in the trace. *)
Record loads (uri : string) (s s' : State) (Dn : Deferred) : Prop := {
  loads_extends : extends s s' Dn;
  loads_fired : fired_ Dn = false;
  loads_blocked : blocked_ Dn = false;
  loads_scope : scope_script Dn = Some (length (scripts s));
  loads_trace : trace s' = trace s ++ [LoadStarted (length (scripts s)) uri]
}.

(** The Deferreds that hold a turn of the drain in [s] hold it in [s']. *)
Definition holders_stay (s s' : State) : Prop :=
  ∀ d D, deferreds s !! d = Some D → has_pop D →
    ∃ D', deferreds s' !! d = Some D' ∧ has_pop D'.

(** A load has been started from [s]: in [s'] the new script has its
    handlers, which fire the new Deferred, and that Deferred holds the
    next turn of the drain if the URIs [rest] wait. *)
Definition turn_given (s s' : State) (rest : list string) : Prop :=
  (rest ≠ [] → ∃ D, deferreds s' !! length (deferreds s) = Some D ∧ has_pop D)
  ∧ ∃ h, scripts s' !! length (scripts s) ≫= handlers = Some h
         ∧ h_deferred h = length (deferreds s).

(** What one event does to the queue and to the trace: nothing is taken
    off the queue ([us] is put at its end by a [safeLoadMany] that finds it
    non-empty) and the turn of the drain stays where it is; or a
    [safeLoadMany] finds the queue empty and starts a drain with the first
    of its URIs; or the load that holds the turn of the drain completes
    and the next URI is taken off the queue and loaded. The load that is
    started is given the turn if URIs are left. *)
Inductive step_kind (e : Event) (s s' : State) : Prop :=
| step_quiet (us : list string) :
    scriptsToLoad_ s' = scriptsToLoad_ s ++ us →
    (us ≠ [] → scriptsToLoad_ s ≠ [] ∧ ∃ o, e = Call_safeLoadMany us o) →
    trace s `prefix_of` trace s' →
    (∀ sc, (∀ d D, deferreds s !! d = Some D → has_pop D →
                   scope_script D = Some sc) →
           (∀ d D, deferreds s' !! d = Some D → has_pop D →
                   scope_script D = Some sc)) →
    holders_stay s s' →
    step_kind e s s'
| step_drain (u : string) (us : list string) (o : option Options) :
    e = Call_safeLoadMany (u :: us) o →
    scriptsToLoad_ s = [] → scriptsToLoad_ s' = us →
    trace s' = trace s ++ [LoadStarted (length (scripts s)) u] →
    (∀ d D, deferreds s' !! d = Some D → has_pop D →
            scope_script D = Some (length (scripts s))) →
    turn_given s s' us →
    step_kind e s s'
| step_turn (u : string) (q : list string) (sc : nat) (failure : option ErrorCode) :
    scriptsToLoad_ s = u :: q → scriptsToLoad_ s' = q →
    trace s' = trace s ++ [LoadCompleted sc failure;
                           LoadStarted (length (scripts s)) u] →
    (∃ t D, deferreds s !! t = Some D ∧ has_pop D ∧ scope_script D = Some sc) →
    (∀ d D, deferreds s' !! d = Some D → has_pop D →
            scope_script D = Some (length (scripts s))) →
    turn_given s s' q →
    step_kind e s s'.

#[export] Instance has_pop_dec (D : Deferred) : Decision (has_pop D).
Proof. unfold has_pop. apply _. Defined.






Definition no_pop_at (d : nat) (s : State) : Prop :=
  ∀ D, deferreds s !! d = Some D → ¬ has_pop D.

Definition fire_quiet (fire : nat → State → option State) : Prop :=
  ∀ d s s', Inv s → no_pop_at d s →
    is_VDeferred (current_result d s) = false →
    fire d s = Some s' → quiet s s'.

Definition mild (c : completion) : Prop :=
  c = Return VUndefined ∨ ∃ x, c = Raise (VAlreadyCalledError x).

(** [fire] returns on the states with fewer than [n] entries. *)
Definition fire_total (n : nat) (fire : nat → State → option State) : Prop :=
  ∀ d s, Inv s → no_pop_at d s →
    is_VDeferred (current_result d s) = false →
    entries s < n → is_Some (fire d s).

(** *** Notions for the further properties of the loader *)

(** *** Cancelling a load *)

(** [goog.net.jsloader.cancel_], with the request as [this]. The nodes
    of the page are the SCRIPT elements that [safeLoad] has made, so the
    test of [tagName] holds for the node of a request. *)
Definition cancel_ (this : option Request) (s : State) : State :=
  match this with
  | Some request => cleanup_ (script_ request) true (timeout_ request) s
  | None => s
  end.

(** The length of time [safeLoad] waits with these options. *)
Definition timeoutDuration (opt_options : option Options) : Z :=
  default DEFAULT_TIMEOUT (opt_options ≫= timeout).


(** *** What the callbacks of the handles keep

    A property of the page is kept by the callbacks when it is kept by
    what they do to the page: they change a Deferred or make one, take
    URIs off the queue, change the registry of verification objects,
    tell a caller, and load a script. *)
Record kept (P : State → Prop) : Prop := {
  kept_modify : ∀ d f s, P s → P (modify d f s);
  kept_alloc : ∀ D s, P s → P (set_deferreds (deferreds s ++ [D]) s);
  kept_queue : ∀ q s, P s → P (set_scriptsToLoad_ q s);
  kept_verifyObjs : ∀ r s, P s → P (set_verifyObjs r s);
  kept_observed : ∀ tag b v s, P s → P (emit (Observed tag b v) s);
  kept_safeLoad : ∀ uri o s, P s → P (safeLoad uri o s).2
}.

(** The calls of the loader, among the events. *)
Definition is_call (e : Event) : bool :=
  match e with
  | Call_safeLoadMany _ _ | Call_safeLoad _ _ | Call_safeLoadAndVerify _ _ _
  | Call_addCallbacks _ _ _ | Script_sets _ _ => true
  | _ => false
  end.

(** *** The history of a load *)

(** What the trace tells of the script [sc]. *)
Definition about (sc : nat) (t : Trace) : bool :=
  match t with
  | LoadStarted sc' _ | LoadCompleted sc' _ => bool_decide (sc' = sc)
  | Observed _ _ _ => false
  end.

Definition history (sc : nat) (tr : list Trace) : list Trace :=
  filter (λ t, about sc t = true) tr.

(** The script elements, their handlers and the timers against the
    trace: a script that has its handlers is loading, a script that has
    lost them has completed its load, a timer of a timeout is the timer
    of a script that is loading, and the timeout that the handlers of a
    script know of is a timer that fires the Deferred they fire. *)
Record Page (s : State) : Prop := {
  page_fresh : ∀ sc, length (scripts s) <= sc → history sc (trace s) = [];
  page_live : ∀ sc h, scripts s !! sc ≫= handlers = Some h →
    history sc (trace s) = [LoadStarted sc (h_uri h)];
  page_done : ∀ sc N, scripts s !! sc = Some N → handlers N = None →
    ∃ u failure, history sc (trace s) = [LoadStarted sc u; LoadCompleted sc failure];
  page_timer : ∀ k sc d uri, timers s !! k = Some (Some (timeoutTask sc d uri)) →
    ∃ h, scripts s !! sc ≫= handlers = Some h ∧ h_timeout h = Some k;
  page_armed : ∀ sc h t, scripts s !! sc ≫= handlers = Some h →
    h_timeout h = Some t →
    timers s !! t = Some (Some (timeoutTask sc (h_deferred h) (h_uri h)))
}.

End JsLoader.

(** * Properties *)

(** ** The namespacing wrapper *)
Module PrefixedMechanismSpec.
Import PrefixedMechanism.

Section Wrapper.
Context {B E : Type} `{!IterableMechanism B E}.

Lemma mismatch_false (self : t) (key : jsstring) :
  mismatch self key = false ↔ prefix_ self `prefix_of` key.
Proof.
  unfold mismatch, substr. rewrite negb_false_iff, bool_decide_eq_true, drop_0.
  split.
  - intros Heq. exists (drop (length (prefix_ self)) key).
    rewrite <- Heq at 1. symmetry. apply take_drop.
  - intros [rest ->]. by rewrite take_app_length.
Qed.

Lemma mismatch_true (self : t) (key : jsstring) :
  mismatch self key = true ↔ ¬ prefix_ self `prefix_of` key.
Proof.
  rewrite <- mismatch_false. destruct (mismatch self key); naive_solver.
Qed.

Lemma next_cons (self : t) (opt_keys : bool) (b : B)
    (key : jsstring) (rest : list jsstring) :
  next self opt_keys b (key :: rest) =
    if mismatch self key then next self opt_keys b rest
    else (Yield (yielded self opt_keys b key), rest).
Proof. destruct rest; reflexivity. Qed.

Lemma drain_filter (self : t) (opt_keys : bool) (b : B)
    (subIter : list jsstring) (fuel : nat) :
  (length subIter < fuel)%nat →
  drain fuel self opt_keys b subIter =
    Some (yielded self opt_keys b <$>
            filter (λ k, prefix_ self `prefix_of` k) subIter).
Proof.
  revert fuel. induction subIter as [|key rest IH]; intros fuel Hfuel.
  - destruct fuel; [simpl in Hfuel; lia|]. done.
  - destruct fuel as [|fuel]; [simpl in Hfuel; lia|].
    simpl in Hfuel. cbn [drain]. rewrite next_cons.
    destruct (mismatch self key) eqn:Hm.
    + apply mismatch_true in Hm. rewrite filter_cons_False by done.
      specialize (IH (S fuel) ltac:(lia)). cbn [drain] in IH. exact IH.
    + apply mismatch_false in Hm. rewrite filter_cons_True by done.
      rewrite IH by lia. done.
Qed.

(** C4. Setting [k] to [v] through the wrapper and then getting [k] through
    the same wrapper returns [v], over any store that returns what was last
    set under a key; both operations reach the store under the key
    [prefix + '::' + k]. *)
Theorem set_then_get (prefix k v : jsstring) (b b' : B)
    (store_law : ∀ (m m' : B) (key value : jsstring),
        mech_set m key value = Ok m' → mech_get m' key = Ok (Some value)) :
  set (new prefix) k v b = Ok b' →
  get (new prefix) k b' = Ok (Some v)
  ∧ set (new prefix) k v b = mech_set b (prefix ++ lit "::" ++ k) v
  ∧ get (new prefix) k b' = mech_get b' (prefix ++ lit "::" ++ k).
Proof.
  unfold set, get, new. cbn [prefix_]. rewrite <- !(assoc (++)).
  intros Hset. split; [|done]. by eapply store_law.
Qed.

(** C5. Iterating the wrapper yields, in the order of the store's own
    iteration, one item for each key of the store that begins with
    [prefix + '::'] and nothing for the others: the key without the prefix
    when keys are asked for, what the store's [get] gives for the raw key
    otherwise. *)
Theorem iterate_namespace (prefix : jsstring) (opt_keys : bool) (b : B) :
  let self := new prefix in
  let matching := filter (λ k, (prefix ++ lit "::") `prefix_of` k) (mech_keys b) in
  iterate self opt_keys b =
    Some ((λ key, if opt_keys
                  then Ok (Some (drop (length (prefix ++ lit "::")) key))
                  else mech_get b key) <$> matching)
  ∧ Forall (λ key, (prefix ++ lit "::") ++
                     drop (length (prefix ++ lit "::")) key = key) matching
  ∧ matching `sublist_of` mech_keys b.
Proof.
  intros self matching. split; [|split].
  - unfold iterate, __iterator__. rewrite drain_filter by lia. done.
  - apply Forall_forall. intros key [[rest ->] _]%list_elem_of_filter.
    by rewrite drop_app_length.
  - apply sublist_filter.
Qed.

End Wrapper.

(** [set_then_get] at the association-list store. *)
Lemma set_then_get_witness :
  let b : alist := [(lit "other::a", lit "0")] in
  let b' : alist := (lit "ns::a", lit "1") :: b in
  set (new (lit "ns")) (lit "a") (lit "1") b = Ok b'
  ∧ get (new (lit "ns")) (lit "a") b' = Ok (Some (lit "1")).
Proof.
  intros b b'.
  assert (Hset : set (new (lit "ns")) (lit "a") (lit "1") b = Ok b')
    by (vm_compute; reflexivity).
  split; [exact Hset|].
  refine (proj1 (set_then_get (lit "ns") (lit "a") (lit "1") b b' _ Hset)).
  intros m m' key value [= <-]. cbn. by rewrite bool_decide_eq_true_2.
Defined.

End PrefixedMechanismSpec.

(** ** More on the namespacing wrapper *)
Module PrefixedMechanismMore.
Import PrefixedMechanism PrefixedMechanismSpec.

Section Wrapper.
Context {B E : Type} `{!IterableMechanism B E}.

(** Two prefixes without a colon that differ: no key of the store lies
    in both namespaces. *)
Lemma store_keys_differ (p1 p2 k1 k2 : jsstring) :
  0x3A ∉ p1 → 0x3A ∉ p2 → p1 ≠ p2 →
  prefix_ (new p1) ++ k1 ≠ prefix_ (new p2) ++ k2.
Proof.
  intros H1 H2 Hne Heq. cbn [new prefix_] in Heq.
  rewrite <- !(assoc (++)) in Heq.
  change (lit "::" ++ ?k) with (0x3A :: 0x3A :: k) in Heq.
  by destruct (not_elem_of_app_cons_inv_l _ _ _ _ _ _ H2 H1 Heq) as [? _].
Qed.

(** X1. A wrapper whose prefix is [p::q] is the part of the wrapper with
    prefix [p] whose keys begin with [q::]: [set], [get] and [remove]
    through the one with a key [k] are [set], [get] and [remove] through
    the other with the key [q::k]. *)
Theorem nested_namespace (p q k v : jsstring) (b : B) :
  let inner := new (p ++ lit "::" ++ q) in
  let outer := new p in
  set inner k v b = set outer (q ++ lit "::" ++ k) v b
  ∧ get inner k b = get outer (q ++ lit "::" ++ k) b
  ∧ remove inner k b = remove outer (q ++ lit "::" ++ k) b.
Proof.
  unfold set, get, remove, new. cbn [prefix_].
  by rewrite <- !(assoc (++)).
Qed.

(** X2. Wrappers over one store whose prefixes differ and hold no colon
    do not reach each other's keys: over a store in which [set] and
    [remove] leave the other keys alone, what [get] returns through the
    one wrapper is not changed by a [set] or a [remove] through the
    other. *)
Theorem namespaces_apart (p1 p2 k1 k2 v : jsstring) (b b' : B)
    (set_frame : ∀ (m m' : B) (key key' value : jsstring),
        mech_set m key value = Ok m' → key ≠ key' →
        mech_get m' key' = mech_get m key')
    (remove_frame : ∀ (m m' : B) (key key' : jsstring),
        mech_remove m key = Ok m' → key ≠ key' →
        mech_get m' key' = mech_get m key') :
  0x3A ∉ p1 → 0x3A ∉ p2 → p1 ≠ p2 →
  set (new p1) k1 v b = Ok b' ∨ remove (new p1) k1 b = Ok b' →
  get (new p2) k2 b' = get (new p2) k2 b.
Proof.
  intros H1 H2 Hne Hop. unfold get.
  pose proof (store_keys_differ p1 p2 k1 k2 H1 H2 Hne) as Hkeys.
  destruct Hop as [Hset|Hrem].
  - by eapply set_frame.
  - by eapply remove_frame.
Qed.

(** X3. The iteration over the values goes along the iteration over the
    keys: it yields, for each key the wrapper yields and in the same
    order, what [get] of the wrapper returns for that key. *)
Theorem values_follow_keys (prefix : jsstring) (b : B) :
  let self := new prefix in
  ∃ keys : list jsstring,
    iterate self true b = Some ((λ k, Ok (Some k)) <$> keys)
    ∧ iterate self false b = Some ((λ k, get self k b) <$> keys).
Proof.
  intros self.
  exists (drop (length (prefix_ self)) <$>
            filter (λ k, prefix_ self `prefix_of` k) (mech_keys b)).
  unfold iterate, __iterator__. rewrite !drain_filter by lia.
  rewrite <- !list_fmap_compose. split; [done|].
  f_equal. apply list_fmap_ext. intros i key Hkey.
  apply list_elem_of_lookup_2, list_elem_of_filter in Hkey as [[rest ->] _].
  unfold yielded, get, compose. by rewrite drop_app_length.
Qed.

(** X4. A key set through the wrapper is among the keys the wrapper
    iterates, under the name it was set with, over a store that lists
    the keys set in it. *)
Theorem set_then_iterated (prefix k v : jsstring) (b b' : B)
    (keys_law : ∀ (m m' : B) (key value : jsstring),
        mech_set m key value = Ok m' → key ∈ mech_keys m') :
  set (new prefix) k v b = Ok b' →
  ∃ items, iterate (new prefix) true b' = Some items ∧ Ok (Some k) ∈ items.
Proof.
  intros Hset. unfold iterate, __iterator__. rewrite drain_filter by lia.
  eexists. split; [done|].
  apply list_elem_of_fmap. exists (prefix_ (new prefix) ++ k). split.
  - unfold yielded, substr. by rewrite drop_app_length.
  - apply list_elem_of_filter. split; [by exists k|].
    by eapply keys_law.
Qed.

(** X5. A key removed through the wrapper is gone for the wrapper: [get]
    returns [null] for it and the iteration of the keys does not yield
    it, over a store that forgets the keys removed from it. *)
Theorem remove_then_absent (prefix k : jsstring) (b b' : B)
    (get_law : ∀ (m m' : B) (key : jsstring),
        mech_remove m key = Ok m' → mech_get m' key = Ok None)
    (keys_law : ∀ (m m' : B) (key : jsstring),
        mech_remove m key = Ok m' → key ∉ mech_keys m') :
  remove (new prefix) k b = Ok b' →
  get (new prefix) k b' = Ok None
  ∧ ∃ items, iterate (new prefix) true b' = Some items ∧ Ok (Some k) ∉ items.
Proof.
  intros Hrem. split; [by eapply get_law|].
  unfold iterate, __iterator__. rewrite drain_filter by lia.
  eexists. split; [done|].
  intros (key & Hkey & [[rest ->] Hin]%list_elem_of_filter)%list_elem_of_fmap.
  unfold yielded, substr in Hkey. rewrite drop_app_length in Hkey.
  injection Hkey as ->. by eapply keys_law.
Qed.

End Wrapper.

(** The association-list store keeps the laws asked of a store. *)
Lemma alist_remove_cons (b : alist) (k k' v : jsstring) :
  alist_remove ((k', v) :: b) k =
    if decide (k' = k) then alist_remove b k else (k', v) :: alist_remove b k.
Proof.
  unfold alist_remove, alist. rewrite filter_cons. cbn [fst].
  destruct (decide (k' ≠ k)), (decide (k' = k)); naive_solver.
Qed.

Lemma alist_get_remove (b : alist) (k : jsstring) :
  alist_get (alist_remove b k) k = None.
Proof.
  induction b as [|[k' v] b IH]; [done|]. rewrite alist_remove_cons.
  destruct (decide (k' = k)) as [->|Hne]; [done|].
  cbn. by rewrite bool_decide_eq_false_2.
Qed.

Lemma alist_get_remove_ne (b : alist) (k k' : jsstring) :
  k ≠ k' → alist_get (alist_remove b k) k' = alist_get b k'.
Proof.
  intros Hne. induction b as [|[k0 v] b IH]; [done|]. rewrite alist_remove_cons.
  destruct (decide (k0 = k)) as [->|Hne0].
  - cbn. by rewrite bool_decide_eq_false_2.
  - cbn. by rewrite IH.
Qed.

Lemma alist_keys_remove (b : alist) (k : jsstring) : k ∉ (alist_remove b k).*1.
Proof.
  intros ([k' v] & -> & [Hne _]%list_elem_of_filter)%list_elem_of_fmap.
  by apply Hne.
Qed.

(** [namespaces_apart] at the association-list store. *)
Lemma namespaces_apart_witness :
  let b : alist := [(lit "b::k", lit "0")] in
  let b' : alist := (lit "a::k", lit "1") :: b in
  get (new (lit "b")) (lit "k") b' = get (new (lit "b")) (lit "k") b.
Proof.
  intros b b'.
  apply (namespaces_apart (lit "a") (lit "b") (lit "k") (lit "k") (lit "1") b b').
  - intros m m' key key' value [= <-] Hne. cbn.
    rewrite bool_decide_eq_false_2 by done. f_equal.
    by apply alist_get_remove_ne.
  - intros m m' key key' [= <-] Hne. cbn. f_equal. by apply alist_get_remove_ne.
  - vm_compute. by intros ?%list_elem_of_singleton.
  - vm_compute. by intros ?%list_elem_of_singleton.
  - done.
  - left. vm_compute. reflexivity.
Defined.

(** [set_then_iterated] at the association-list store. *)
Lemma set_then_iterated_witness :
  let b : alist := [(lit "other::a", lit "0")] in
  let b' : alist := (lit "ns::a", lit "1") :: b in
  ∃ items, iterate (new (lit "ns")) true b' = Some items
           ∧ Ok (Some (lit "a")) ∈ items.
Proof.
  intros b b'.
  apply (set_then_iterated (lit "ns") (lit "a") (lit "1") b b').
  - intros m m' key value [= <-]. cbn. by left.
  - vm_compute. reflexivity.
Defined.

(** [remove_then_absent] at the association-list store. *)
Lemma remove_then_absent_witness :
  let b : alist := [(lit "ns::a", lit "1"); (lit "ns::b", lit "2")] in
  let b' : alist := [(lit "ns::b", lit "2")] in
  get (new (lit "ns")) (lit "a") b' = Ok None
  ∧ ∃ items, iterate (new (lit "ns")) true b' = Some items
             ∧ Ok (Some (lit "a")) ∉ items.
Proof.
  intros b b'.
  apply (remove_then_absent (lit "ns") (lit "a") b b').
  - intros m m' key [= <-]. cbn. f_equal. apply alist_get_remove.
  - intros m m' key [= <-]. apply alist_keys_remove.
  - vm_compute. reflexivity.
Defined.

End PrefixedMechanismMore.

(** ** The key codec of IEUserData *)
Module IEUserDataSpec.
Import URI IEUserData.

(** *** Exhaustive checks over octets *)

Lemma forallb_octets (P : Z → bool) (n : nat) :
  forallb P (octets_below n) = true →
  ∀ B, 0 <= B < Z.of_nat n → P B = true.
Proof.
  intros Hall B HB. rewrite forallb_forall in Hall. apply Hall.
  apply list_elem_of_In. unfold octets_below. apply list_elem_of_fmap.
  exists (Z.to_nat B). split; [lia|]. apply elem_of_seq. lia.
Qed.

(** *** Bit arithmetic *)

Lemma lor_shiftl_add (a b n : Z) :
  0 <= n → 0 <= b < 2 ^ n → Z.lor (Z.shiftl a n) b = a * 2 ^ n + b.
Proof.
  intros Hn Hb. rewrite <- Z.shiftl_mul_pow2 by done.
  rewrite <- Z.lxor_lor; [symmetry; apply Z.add_nocarry_lxor|];
    apply Z.bits_inj'; intros i Hi; rewrite Z.land_spec, Z.bits_0;
    destruct (Z.lt_ge_cases i n).
  - rewrite Z.shiftl_spec_low by done. done.
  - rewrite <- (Z.mod_small b (2 ^ n)) by done.
    rewrite Z.mod_pow2_bits_high by lia. apply andb_false_r.
  - rewrite Z.shiftl_spec_low by done. done.
  - rewrite <- (Z.mod_small b (2 ^ n)) by done.
    rewrite Z.mod_pow2_bits_high by lia. apply andb_false_r.
Qed.

Lemma land_mask (a n : Z) : 0 <= n → Z.land a (2 ^ n - 1) = a mod 2 ^ n.
Proof.
  intros Hn. rewrite <- Z.land_ones by done. f_equal.
  rewrite Z.ones_equiv. lia.
Qed.


Lemma octet_facts (B : Z) :
  0 <= B < 256 →
  ParseHexOctet (hex_digit (Z.shiftr B 4)) (hex_digit (Z.land B 0xF)) = Some B
  ∧ requoted (percent_escape B) = percent_escape B
  ∧ leading_ones B =
      (if B <? 0x80 then 0%nat else if B <? 0xC0 then 1%nat
       else if B <? 0xE0 then 2%nat else if B <? 0xF0 then 3%nat
       else if B <? 0xF8 then 4%nat else leading_ones B)
  ∧ is_continuation B = (0x80 <=? B) && (B <? 0xC0).
Proof.
  intros HB.
  assert (Hall : forallb octet_check (octets_below 256) = true)
    by (vm_compute; reflexivity).
  pose proof (forallb_octets _ _ Hall B HB) as Hc. unfold octet_check in Hc.
  rewrite !andb_true_iff, !bool_decide_eq_true in Hc. tauto.
Qed.

Ltac euclid := Z.div_mod_to_equations; lia.

Lemma utf8_octets_1 (cp : Z) : 0 <= cp < 0x80 → utf8_octets cp = [cp].
Proof.
  intros Hcp. unfold utf8_octets. by rewrite (proj2 (Z.ltb_lt _ _)) by lia.
Qed.

Lemma utf8_octets_2 (cp : Z) :
  0x80 <= cp < 0x800 →
  utf8_octets cp = [0xC0 + cp / 64; 0x80 + cp mod 64].
Proof.
  intros Hcp. unfold utf8_octets.
  rewrite (proj2 (Z.ltb_ge _ _)), (proj2 (Z.ltb_lt _ _)) by lia.
  rewrite Z.shiftr_div_pow2 by lia.
  change 0x3F with (2 ^ 6 - 1). rewrite land_mask by lia.
  change 0xC0 with (Z.shiftl 3 6). change 0x80 with (Z.shiftl 2 6).
  rewrite !lor_shiftl_add by euclid. done.
Qed.

Lemma utf8_octets_3 (cp : Z) :
  0x800 <= cp < 0x10000 →
  utf8_octets cp =
    [0xE0 + cp / 4096; 0x80 + (cp / 64) mod 64; 0x80 + cp mod 64].
Proof.
  intros Hcp. unfold utf8_octets.
  rewrite !(proj2 (Z.ltb_ge _ _)), (proj2 (Z.ltb_lt _ _)) by lia.
  rewrite !Z.shiftr_div_pow2 by lia.
  change 0x3F with (2 ^ 6 - 1). rewrite !land_mask by lia.
  change 0xE0 with (Z.shiftl 7 5). change 0x80 with (Z.shiftl 2 6).
  rewrite !lor_shiftl_add by euclid. done.
Qed.

Lemma utf8_octets_4 (cp : Z) :
  0x10000 <= cp < 0x110000 →
  utf8_octets cp =
    [0xF0 + cp / 262144; 0x80 + (cp / 4096) mod 64;
     0x80 + (cp / 64) mod 64; 0x80 + cp mod 64].
Proof.
  intros Hcp. unfold utf8_octets.
  rewrite !(proj2 (Z.ltb_ge _ _)) by lia.
  rewrite !Z.shiftr_div_pow2 by lia.
  change 0x3F with (2 ^ 6 - 1). rewrite !land_mask by lia.
  change 0xF0 with (Z.shiftl 15 4). change 0x80 with (Z.shiftl 2 6).
  rewrite !lor_shiftl_add by euclid. done.
Qed.

(** The value read back from the octets of a code point. *)
Lemma utf8_value_2 (cp : Z) :
  0x80 <= cp < 0x800 → utf8_value [0xC0 + cp / 64; 0x80 + cp mod 64] = cp.
Proof.
  intros Hcp. unfold utf8_value.
  change 0x1F with (2 ^ 5 - 1). change 0x3F with (2 ^ 6 - 1).
  rewrite !land_mask by lia. rewrite !lor_shiftl_add by euclid. euclid.
Qed.

Lemma utf8_value_3 (cp : Z) :
  0x800 <= cp < 0x10000 →
  utf8_value [0xE0 + cp / 4096; 0x80 + (cp / 64) mod 64; 0x80 + cp mod 64] = cp.
Proof.
  intros Hcp. unfold utf8_value.
  change 0x0F with (2 ^ 4 - 1). change 0x3F with (2 ^ 6 - 1).
  rewrite !land_mask by lia.
  rewrite (lor_shiftl_add _ _ 6) by euclid.
  rewrite (lor_shiftl_add _ _ 12) by euclid. euclid.
Qed.

Lemma utf8_value_4 (cp : Z) :
  0x10000 <= cp < 0x110000 →
  utf8_value [0xF0 + cp / 262144; 0x80 + (cp / 4096) mod 64;
              0x80 + (cp / 64) mod 64; 0x80 + cp mod 64] = cp.
Proof.
  intros Hcp. unfold utf8_value.
  change 0x07 with (2 ^ 3 - 1). change 0x3F with (2 ^ 6 - 1).
  rewrite !land_mask by lia.
  rewrite (lor_shiftl_add _ _ 6) by euclid.
  rewrite (lor_shiftl_add _ _ 12) by euclid.
  rewrite (lor_shiftl_add _ _ 18) by euclid. euclid.
Qed.

Lemma is_continuation_follower (x : Z) :
  0 <= x < 64 → is_continuation (0x80 + x) = true.
Proof.
  intros Hx. destruct (octet_facts (0x80 + x)) as (_ & _ & _ & ->); [lia|].
  apply andb_true_iff. split; [apply Z.leb_le|apply Z.ltb_lt]; lia.
Qed.


Lemma requoted_app (R1 R2 : jsstring) :
  requoted (R1 ++ R2) = requoted R1 ++ requoted R2.
Proof.
  unfold requoted, replace_reserved, replace_dots.
  by rewrite bind_app, fmap_app.
Qed.

Lemma requoted_escapes (Octets : list Z) :
  Forall is_octet Octets →
  requoted (Octets ≫= percent_escape) = Octets ≫= percent_escape.
Proof.
  induction 1 as [|B Octets HB _ IH]; [done|].
  rewrite bind_cons, requoted_app, IH.
  by destruct (octet_facts B HB) as (_ & -> & _).
Qed.

(** An unescaped character comes back as itself or as its escape. *)
Lemma requoted_unescaped (C : char16) :
  contains alwaysUnescaped C = true →
  (requoted [C] = [C] ∧ C ≠ 0x25)
  ∨ (requoted [C] = percent_escape C ∧ 0 <= C < 0x80).
Proof.
  unfold contains. rewrite bool_decide_eq_true.
  let l := eval vm_compute in alwaysUnescaped in
    change alwaysUnescaped with l.
  intros H.
  repeat (apply elem_of_cons in H as [-> | H];
          [first [left; split; [vm_compute; reflexivity|lia]
                 |right; split; [vm_compute; reflexivity|lia]]|]).
  by apply elem_of_nil in H.
Qed.

(** *** One turn of the loop of [Decode] *)

Lemma decode_plain (fuel : nat) (C : char16) (X r : jsstring) :
  C ≠ 0x25 →
  Decode_loop fuel X = Some (Ok r) →
  Decode_loop (S fuel) (C :: X) = Some (Ok (C :: r)).
Proof.
  intros HC HX. cbn [Decode_loop].
  rewrite (proj2 (Z.eqb_neq _ _) HC), HX. done.
Qed.

Lemma decode_escape_1 (fuel : nat) (B : Z) (X r : jsstring) :
  0 <= B < 0x80 →
  Decode_loop fuel X = Some (Ok r) →
  Decode_loop (S fuel) (percent_escape B ++ X) = Some (Ok (B :: r)).
Proof.
  intros HB HX. unfold percent_escape. cbn [app Decode_loop].
  destruct (octet_facts B) as (-> & _ & -> & _); [lia|].
  rewrite Z.eqb_refl, (proj2 (Z.ltb_lt _ _)) by lia. cbn [Nat.eqb].
  rewrite HX. done.
Qed.

Lemma continuation_octets_escapes (Octets : list Z) (X : jsstring) :
  Forall is_octet Octets →
  continuation_octets (length Octets) ((Octets ≫= percent_escape) ++ X)
    = Some (Octets, X).
Proof.
  induction 1 as [|B Octets HB _ IH]; [done|].
  rewrite bind_cons. unfold percent_escape at 1.
  cbn [length app continuation_octets].
  destruct (octet_facts B HB) as (-> & _). rewrite Z.eqb_refl, IH. done.
Qed.


Lemma decode_escape_multi (fuel : nat) (B : Z) (followers : list Z)
    (X r : jsstring) :
  is_octet B → Forall is_octet followers →
  leading_ones B = S (length followers) →
  (1 <= length followers <= 3)%nat →
  valid_utf8 (B :: followers) = true →
  Decode_loop fuel X = Some (Ok r) →
  Decode_loop (S fuel) (((B :: followers) ≫= percent_escape) ++ X)
    = Some (Ok (UTF16EncodeCodePoint (utf8_value (B :: followers)) ++ r)).
Proof.
  intros HB Hfs Hn Hlen Hvalid HX.
  rewrite bind_cons. unfold percent_escape at 1.
  rewrite <- (assoc (++)). cbn [app Decode_loop].
  destruct (octet_facts B HB) as (-> & _). rewrite Z.eqb_refl, Hn.
  replace (S (length followers) =? 0)%nat with false by done.
  replace ((S (length followers) =? 1)%nat || (4 <? S (length followers))%nat)
    with false.
  2:{ symmetry. apply orb_false_iff. split.
      - apply Nat.eqb_neq. lia.
      - apply Nat.ltb_ge. lia. }
  replace (S (length followers) - 1)%nat with (length followers) by lia.
  rewrite continuation_octets_escapes by done.
  rewrite Hvalid, HX. done.
Qed.

Lemma decode_escape_code_point (fuel : nat) (cp : Z) (X r : jsstring) :
  0x80 <= cp < 0x110000 → ¬ (0xD800 <= cp <= 0xDFFF) →
  Decode_loop fuel X = Some (Ok r) →
  Decode_loop (S fuel) ((utf8_octets cp ≫= percent_escape) ++ X)
    = Some (Ok (UTF16EncodeCodePoint cp ++ r)).
Proof.
  intros Hcp Hsur HX.
  destruct (Z.lt_ge_cases cp 0x800); [|destruct (Z.lt_ge_cases cp 0x10000)].
  - rewrite utf8_octets_2 by lia.
    rewrite <- (utf8_value_2 cp) at 3 by lia.
    apply decode_escape_multi; [| | |simpl; lia| |done].
    + red; euclid.
    + repeat (apply Forall_cons_2; [red; euclid|]); apply Forall_nil_2.
    + destruct (octet_facts (0xC0 + cp / 64)) as (_ & _ & -> & _); [euclid|].
      rewrite !(proj2 (Z.ltb_ge _ _)), (proj2 (Z.ltb_lt _ _)) by euclid. done.
    + unfold valid_utf8. rewrite utf8_value_2 by lia. cbn [forallb length].
      rewrite is_continuation_follower by euclid.
      apply andb_true_iff; split; [done|]. apply Z.leb_le. lia.
  - rewrite utf8_octets_3 by lia.
    rewrite <- (utf8_value_3 cp) at 4 by lia.
    apply decode_escape_multi; [| | |simpl; lia| |done].
    + red; euclid.
    + repeat (apply Forall_cons_2; [red; euclid|]); apply Forall_nil_2.
    + destruct (octet_facts (0xE0 + cp / 4096)) as (_ & _ & -> & _); [euclid|].
      rewrite !(proj2 (Z.ltb_ge _ _)), (proj2 (Z.ltb_lt _ _)) by euclid. done.
    + unfold valid_utf8. rewrite utf8_value_3 by lia. cbn [forallb length].
      rewrite !is_continuation_follower by euclid.
      apply andb_true_iff; split; [done|].
      apply andb_true_iff; split; [apply Z.leb_le; lia|].
      apply negb_true_iff, andb_false_iff.
      destruct (Z.lt_ge_cases cp 0xD800);
        [left; apply Z.leb_gt|right; apply Z.leb_gt]; lia.
  - rewrite utf8_octets_4 by lia.
    rewrite <- (utf8_value_4 cp) at 5 by lia.
    apply decode_escape_multi; [| | |simpl; lia| |done].
    + red; euclid.
    + repeat (apply Forall_cons_2; [red; euclid|]); apply Forall_nil_2.
    + destruct (octet_facts (0xF0 + cp / 262144)) as (_ & _ & -> & _); [euclid|].
      rewrite !(proj2 (Z.ltb_ge _ _)), (proj2 (Z.ltb_lt _ _)) by euclid. done.
    + unfold valid_utf8. rewrite utf8_value_4 by lia. cbn [forallb length].
      rewrite !is_continuation_follower by euclid.
      apply andb_true_iff; split; [done|].
      apply andb_true_iff; split; [apply Z.leb_le|apply Z.leb_le]; lia.
Qed.


Lemma utf8_octets_are_octets (cp : Z) :
  0 <= cp < 0x110000 → Forall is_octet (utf8_octets cp).
Proof.
  intros Hcp.
  destruct (Z.lt_ge_cases cp 0x80); [|destruct (Z.lt_ge_cases cp 0x800);
    [|destruct (Z.lt_ge_cases cp 0x10000)]].
  - rewrite utf8_octets_1 by lia.
    repeat (apply Forall_cons_2; [red; euclid|]); apply Forall_nil_2.
  - rewrite utf8_octets_2 by lia.
    repeat (apply Forall_cons_2; [red; euclid|]); apply Forall_nil_2.
  - rewrite utf8_octets_3 by lia.
    repeat (apply Forall_cons_2; [red; euclid|]); apply Forall_nil_2.
  - rewrite utf8_octets_4 by lia.
    repeat (apply Forall_cons_2; [red; euclid|]); apply Forall_nil_2.
Qed.

Lemma surrogate_pair_code_point (lead trail : char16) :
  is_leading_surrogate lead = true → is_trailing_surrogate trail = true →
  0x10000 <= UTF16SurrogatePairToCodePoint lead trail < 0x110000
  ∧ UTF16EncodeCodePoint (UTF16SurrogatePairToCodePoint lead trail)
    = [lead; trail].
Proof.
  unfold is_leading_surrogate, is_trailing_surrogate,
    UTF16SurrogatePairToCodePoint, UTF16EncodeCodePoint.
  rewrite !andb_true_iff, !Z.leb_le. intros [??] [??].
  split; [lia|]. rewrite (proj2 (Z.leb_gt _ _)) by lia.
  rewrite Z.shiftr_div_pow2 by lia.
  change 0x3FF with (2 ^ 10 - 1). rewrite land_mask by lia.
  f_equal; [|f_equal]; euclid.
Qed.

(** The escapes written for one code point are read back as the code
    units the code point came from. *)
Lemma decode_code_point (fuel : nat) (cp : Z) (X r : jsstring) :
  0 <= cp < 0x110000 → ¬ (0xD800 <= cp <= 0xDFFF) →
  Decode_loop fuel X = Some (Ok r) →
  Decode_loop (S fuel) (requoted (utf8_octets cp ≫= percent_escape) ++ X)
    = Some (Ok (UTF16EncodeCodePoint cp ++ r)).
Proof.
  intros Hcp Hsur HX.
  rewrite requoted_escapes by (by apply utf8_octets_are_octets).
  destruct (Z.lt_ge_cases cp 0x80).
  - rewrite utf8_octets_1 by lia. cbn [mbind list_bind]. rewrite app_nil_r.
    unfold UTF16EncodeCodePoint. rewrite (proj2 (Z.leb_le _ _)) by lia.
    by apply decode_escape_1; [lia|].
  - by apply decode_escape_code_point; [lia| |].
Qed.

(** *** The loops of [Encode] and [Decode] against each other *)

Lemma escapes_nonempty (cp : Z) :
  (1 <= length (utf8_octets cp ≫= percent_escape))%nat.
Proof.
  unfold utf8_octets. repeat case_match; cbn; lia.
Qed.

Lemma decode_encode_loop (fe : nat) :
  ∀ (s R : jsstring), wf_string s →
    Encode_loop fe s = Some (Ok R) →
    ∀ fd, (length (requoted R) <= fd)%nat →
      Decode_loop fd (requoted R) = Some (Ok s).
Proof.
  induction fe as [|fe IH]; intros [|C rest] R Hwf Henc fd Hfd;
    try (injection Henc as <-; by destruct fd); try discriminate.
  apply Forall_cons in Hwf as [HC Hwf]. red in HC.
  cbn [Encode_loop] in Henc.
  destruct (contains alwaysUnescaped C) eqn:Hun.
  - destruct (Encode_loop fe rest) as [[R0|]|] eqn:Hrest; try discriminate.
    injection Henc as <-.
    change (C :: R0) with ([C] ++ R0) in *. rewrite requoted_app in *.
    rewrite length_app in Hfd.
    destruct (requoted_unescaped C Hun) as [[HrC HC']|[HrC HC']];
      rewrite HrC in Hfd |- *; unfold percent_escape in Hfd;
      cbn [length] in Hfd;
      (destruct fd as [|fd]; [lia|]);
      pose proof (IH rest R0 Hwf Hrest fd ltac:(lia)) as Hdec.
    + by apply decode_plain.
    + by apply decode_escape_1.
  - unfold CodePointAt in Henc.
    destruct (is_leading_surrogate C) eqn:Hlead;
      destruct (is_trailing_surrogate C) eqn:Htrail;
      cbn [negb andb] in Henc; try discriminate.
    + destruct rest as [|second rest']; [discriminate|].
      destruct (is_trailing_surrogate second) eqn:Htrail2;
        cbn [negb IsUnpairedSurrogate CodeUnitCount CodePoint drop] in Henc;
        [|discriminate].
      rewrite drop_0 in Henc.
      destruct (Encode_loop fe rest') as [[R0|]|] eqn:Hrest; try discriminate.
      injection Henc as <-. rewrite requoted_app in *.
      apply Forall_cons in Hwf as [_ Hwf].
      destruct (surrogate_pair_code_point C second Hlead Htrail2) as [Hcp Hpair].
      rewrite length_app, requoted_escapes in Hfd
        by (apply utf8_octets_are_octets; lia).
      pose proof (escapes_nonempty (UTF16SurrogatePairToCodePoint C second)).
      destruct fd as [|fd]; [lia|].
      pose proof (IH rest' R0 Hwf Hrest fd ltac:(lia)) as Hdec.
      change (C :: second :: rest') with ([C; second] ++ rest').
      rewrite <- Hpair. apply decode_code_point; [lia|lia|done].
    + cbn [IsUnpairedSurrogate CodeUnitCount CodePoint drop] in Henc.
      rewrite drop_0 in Henc.
      destruct (Encode_loop fe rest) as [[R0|]|] eqn:Hrest; try discriminate.
      injection Henc as <-. rewrite requoted_app in *.
      unfold is_leading_surrogate, is_trailing_surrogate in Hlead, Htrail.
      apply andb_false_iff in Hlead, Htrail.
      rewrite !Z.leb_gt in Hlead, Htrail.
      rewrite length_app, requoted_escapes in Hfd
        by (apply utf8_octets_are_octets; lia).
      pose proof (escapes_nonempty C).
      destruct fd as [|fd]; [lia|].
      pose proof (IH rest R0 Hwf Hrest fd ltac:(lia)) as Hdec.
      change (C :: rest) with ([C] ++ rest).
      replace [C] with (UTF16EncodeCodePoint C)
        by (unfold UTF16EncodeCodePoint; by rewrite (proj2 (Z.leb_le _ _)) by lia).
      apply decode_code_point; [lia|lia|done].
Qed.

Lemma encode_loop_well_formed (fe : nat) :
  ∀ s : jsstring, (length s <= fe)%nat → well_formed_utf16 s = true →
    ∃ R, Encode_loop fe s = Some (Ok R).
Proof.
  induction fe as [|fe IH]; intros [|C rest] Hfe Hwf;
    try (by eexists); [simpl in Hfe; lia|].
  cbn [length] in Hfe. cbn [Encode_loop].
  destruct (contains alwaysUnescaped C) eqn:Hun.
  - assert (Hrest : well_formed_utf16 rest = true).
    { revert Hun Hwf. unfold contains. rewrite bool_decide_eq_true.
      let l := eval vm_compute in alwaysUnescaped in
        change alwaysUnescaped with l.
      intros H.
      repeat (apply elem_of_cons in H as [-> | H]; [by cbn|]).
      by apply elem_of_nil in H. }
    destruct (IH rest ltac:(lia) Hrest) as [R0 ->]. by eexists.
  - cbn [well_formed_utf16] in Hwf. unfold CodePointAt.
    destruct (is_leading_surrogate C) eqn:Hlead.
    + destruct rest as [|second rest']; [discriminate|].
      apply andb_true_iff in Hwf as [Htrail2 Hrest].
      assert (is_trailing_surrogate C = false) as ->.
      { revert Hlead. unfold is_leading_surrogate, is_trailing_surrogate.
        rewrite andb_true_iff, andb_false_iff, !Z.leb_le, !Z.leb_gt. lia. }
      rewrite Htrail2.
      cbn [negb andb IsUnpairedSurrogate CodeUnitCount CodePoint drop].
      rewrite drop_0. cbn [length] in Hfe.
      destruct (IH rest' ltac:(lia) Hrest) as [R0 ->]. by eexists.
    + apply andb_true_iff in Hwf as [Htrail Hrest].
      apply negb_true_iff in Htrail. rewrite Htrail.
      cbn [negb andb IsUnpairedSurrogate CodeUnitCount CodePoint drop].
      rewrite drop_0.
      destruct (IH rest ltac:(lia) Hrest) as [R0 ->]. by eexists.
Qed.


(** A string with an unpaired surrogate makes [encodeURIComponent] throw. *)
Lemma encode_loop_ill_formed (fe : nat) :
  ∀ s : jsstring, (length s <= fe)%nat → well_formed_utf16 s = false →
    Encode_loop fe s = Some (Throw URIError).
Proof.
  induction fe as [|fe IH]; intros [|C rest] Hfe Hwf;
    try discriminate; [simpl in Hfe; lia|].
  cbn [length] in Hfe. cbn [Encode_loop].
  destruct (contains alwaysUnescaped C) eqn:Hun.
  - assert (Hrest : well_formed_utf16 rest = false).
    { revert Hun Hwf. unfold contains. rewrite bool_decide_eq_true.
      let l := eval vm_compute in alwaysUnescaped in
        change alwaysUnescaped with l.
      intros H.
      repeat (apply elem_of_cons in H as [-> | H]; [by cbn|]).
      by apply elem_of_nil in H. }
    by rewrite (IH rest ltac:(lia) Hrest).
  - cbn [well_formed_utf16] in Hwf. unfold CodePointAt.
    destruct (is_leading_surrogate C) eqn:Hlead.
    + assert (is_trailing_surrogate C = false) as ->.
      { revert Hlead. unfold is_leading_surrogate, is_trailing_surrogate.
        rewrite andb_true_iff, andb_false_iff, !Z.leb_le, !Z.leb_gt. lia. }
      destruct rest as [|second rest']; [done|].
      destruct (is_trailing_surrogate second) eqn:Htrail2; [|done].
      cbn [negb andb IsUnpairedSurrogate CodeUnitCount CodePoint drop].
      rewrite drop_0. cbn [length andb] in Hfe, Hwf.
      by rewrite (IH rest' ltac:(lia) Hwf).
    + destruct (is_trailing_surrogate C) eqn:Htrail; [done|].
      cbn [negb andb IsUnpairedSurrogate CodeUnitCount CodePoint drop] in *.
      rewrite drop_0. by rewrite (IH rest ltac:(lia) Hwf).
Qed.

(** C10, as the code has it. For every string [k] of code units in which
    no surrogate is unpaired, [encodeKey_] returns an encoded key and
    [decodeKey_] of it returns [k]; on every other string [encodeKey_]
    throws the [URIError] of [encodeURIComponent]. *)
Theorem decodeKey_encodeKey (k : jsstring) :
  wf_string k →
  (well_formed_utf16 k = true →
     ∃ e, encodeKey_ k = Some (Ok e) ∧ decodeKey_ e = Some (Ok k))
  ∧ (well_formed_utf16 k = false → encodeKey_ k = Some (Throw URIError)).
Proof.
  intros Hwf. split; intros Hk.
  - destruct (encode_loop_well_formed (length k) k ltac:(lia) Hk) as [R HR].
    exists (lit "_" ++ replace_reserved R). split.
    + unfold encodeKey_, encodeURIComponent. by rewrite HR.
    + unfold decodeKey_, decodeURIComponent.
      change (replace_dots (lit "_" ++ replace_reserved R))
        with (0x5F :: requoted R).
      cbn [length].
      rewrite (decode_plain _ _ _ k); [done|lia|].
      by eapply decode_encode_loop.
  - unfold encodeKey_, encodeURIComponent.
    by rewrite encode_loop_ill_formed.
Qed.

(** [decodeKey_encodeKey] at a key that holds an escaped ASCII character, a
    character left alone, two-, three- and four-octet code points. *)
Lemma decodeKey_encodeKey_witness :
  let k := [0x61; 0x2E; 0x62; 0x20; 0x25; 0xE9; 0x20AC; 0xD83D; 0xDE00] in
  ∃ e, encodeKey_ k = Some (Ok e) ∧ decodeKey_ e = Some (Ok k).
Proof.
  intros k. apply (decodeKey_encodeKey k).
  - repeat (apply Forall_cons_2; [red; lia|]). apply Forall_nil_2.
  - vm_compute; reflexivity.
Defined.

(** C10, as stated, fails on the string that is one leading surrogate:
    [encodeKey_] throws and there is no encoded key to decode. *)
Lemma decodeKey_encodeKey_lone_surrogate :
  ¬ ∃ e, encodeKey_ [0xD800] = Some (Ok e)
         ∧ decodeKey_ e = Some (Ok [0xD800]).
Proof. intros (e & He & _). vm_compute in He. discriminate. Qed.

End IEUserDataSpec.

(** ** More on the key codec and the iterator of IEUserData *)
Module IEUserDataMore.
Import URI IEUserData IEUserDataSpec.

Lemma encode_loop_pieces (fe : nat) :
  ∀ (s R : jsstring), wf_string s →
    Encode_loop fe s = Some (Ok R) →
    ∃ pieces, R = mjoin pieces ∧ Forall is_piece pieces.
Proof.
  induction fe as [|fe IH]; intros [|C rest] R Hwf Henc;
    try (injection Henc as <-; by exists []); try discriminate.
  apply Forall_cons in Hwf as [HC Hwf]. red in HC.
  cbn [Encode_loop] in Henc.
  assert (∀ cp R0 ps, 0 <= cp < 0x110000 → R0 = mjoin ps → Forall is_piece ps →
            ∃ pieces, (utf8_octets cp ≫= percent_escape) ++ R0 = mjoin pieces
                      ∧ Forall is_piece pieces) as Hesc.
  { intros cp R0 ps Hcp -> Hps.
    exists ((percent_escape <$> utf8_octets cp) ++ ps). split.
    - rewrite join_app. f_equal.
      induction (utf8_octets cp) as [|B Bs IHB]; [done|].
      cbn [mbind list_bind fmap list_fmap mjoin list_join]. by rewrite IHB.
    - apply Forall_app. split; [|done]. apply Forall_fmap.
      eapply Forall_impl; [by apply utf8_octets_are_octets|].
      intros B HB. right. by exists B. }
  destruct (contains alwaysUnescaped C) eqn:Hun.
  - destruct (Encode_loop fe rest) as [[R0|]|] eqn:Hrest; try discriminate.
    injection Henc as <-.
    destruct (IH rest R0 Hwf Hrest) as (ps & -> & Hps).
    exists ([C] :: ps). split; [done|].
    apply Forall_cons_2; [|done]. left. by exists C.
  - unfold CodePointAt in Henc.
    destruct (is_leading_surrogate C) eqn:Hlead;
      destruct (is_trailing_surrogate C) eqn:Htrail;
      cbn [negb andb] in Henc; try discriminate.
    + destruct rest as [|second rest']; [discriminate|].
      destruct (is_trailing_surrogate second) eqn:Htrail2;
        cbn [negb IsUnpairedSurrogate CodeUnitCount CodePoint drop] in Henc;
        [|discriminate].
      rewrite drop_0 in Henc.
      destruct (Encode_loop fe rest') as [[R0|]|] eqn:Hrest; try discriminate.
      injection Henc as <-.
      apply Forall_cons in Hwf as [_ Hwf].
      destruct (surrogate_pair_code_point C second Hlead Htrail2) as [Hcp _].
      destruct (IH rest' R0 Hwf Hrest) as (ps & HR0 & Hps).
      apply (Hesc _ R0 ps); [lia|done|done].
    + cbn [IsUnpairedSurrogate CodeUnitCount CodePoint drop] in Henc.
      rewrite drop_0 in Henc.
      destruct (Encode_loop fe rest) as [[R0|]|] eqn:Hrest; try discriminate.
      injection Henc as <-.
      destruct (IH rest R0 Hwf Hrest) as (ps & HR0 & Hps).
      apply (Hesc _ R0 ps); [lia|done|done].
Qed.

Lemma safe_name_app (e1 e2 : jsstring) :
  safe_name (e1 ++ e2) = safe_name e1 && safe_name e2.
Proof. unfold safe_name. apply forallb_app. Qed.

Lemma replace_reserved_app (R1 R2 : jsstring) :
  replace_reserved (R1 ++ R2) = replace_reserved R1 ++ replace_reserved R2.
Proof. unfold replace_reserved. by rewrite bind_app. Qed.

Lemma piece_safe (p : jsstring) :
  is_piece p → safe_name (replace_reserved p) = true.
Proof.
  intros [(C & -> & HC)|(B & HB & ->)].
  - revert HC. unfold contains at 1. rewrite bool_decide_eq_true.
    let l := eval vm_compute in alwaysUnescaped in
      change alwaysUnescaped with l.
    intros H.
    repeat (apply elem_of_cons in H as [-> | H]; [vm_compute; reflexivity|]).
    by apply elem_of_nil in H.
  - assert (Hall : forallb piece_check (octets_below 256) = true)
      by (vm_compute; reflexivity).
    exact (forallb_octets _ _ Hall B HB).
Qed.

Lemma pieces_safe (pieces : list jsstring) :
  Forall is_piece pieces → safe_name (replace_reserved (mjoin pieces)) = true.
Proof.
  induction 1 as [|p ps Hp _ IH]; [done|].
  change (mjoin (p :: ps)) with (p ++ mjoin ps).
  rewrite replace_reserved_app, safe_name_app, IH.
  by rewrite piece_safe.
Qed.

(** X6. What [encodeKey_] returns is a name of the characters
    [-a-zA-Z0-9_] and the dot, and begins with an underscore: no percent
    sign and none of the characters that [encodeURIComponent] leaves
    alone and an attribute name cannot hold is left in it. *)
Theorem encodeKey_safe_name (k e : jsstring) :
  wf_string k → encodeKey_ k = Some (Ok e) →
  head e = Some 0x5F ∧ safe_name e = true.
Proof.
  intros Hwf. unfold encodeKey_, encodeURIComponent.
  destruct (Encode_loop (length k) k) as [[R|]|] eqn:Henc; try discriminate.
  intros He.
  assert (e = [0x5F] ++ replace_reserved R) as ->
    by (change ([0x5F] ++ replace_reserved R) with (lit "_" ++ replace_reserved R);
        congruence).
  clear He. split; [done|].
  destruct (encode_loop_pieces _ _ _ Hwf Henc) as (ps & -> & Hps).
  rewrite safe_name_app, pieces_safe by done. done.
Qed.

(** [encodeKey_safe_name] at a key with an escaped ASCII character, a
    character left alone, two-, three- and four-octet code points. *)
Lemma encodeKey_safe_name_witness :
  let k := [0x61; 0x2E; 0x62; 0x20; 0x25; 0xE9; 0x20AC; 0xD83D; 0xDE00] in
  let e := lit "_a.2Eb.20.25.C3.A9.E2.82.AC.F0.9F.98.80" in
  head e = Some 0x5F ∧ safe_name e = true.
Proof.
  intros k e. apply (encodeKey_safe_name k e).
  - repeat (apply Forall_cons_2; [red; lia|]). apply Forall_nil_2.
  - vm_compute. reflexivity.
Defined.

(** What [decodeKey_] makes of an encoded key. *)
Lemma decodeKey_of_encodeKey (k e : jsstring) :
  wf_string k → encodeKey_ k = Some (Ok e) → decodeKey_ e = Some (Ok k).
Proof.
  intros Hwf. unfold encodeKey_, encodeURIComponent.
  destruct (Encode_loop (length k) k) as [[R|]|] eqn:Henc; try discriminate.
  intros He. assert (e = lit "_" ++ replace_reserved R) as -> by congruence.
  clear He. unfold decodeKey_, decodeURIComponent.
  change (replace_dots (lit "_" ++ replace_reserved R))
    with (0x5F :: requoted R).
  cbn [length].
  rewrite (decode_plain _ _ _ k); [done|lia|].
  by eapply decode_encode_loop.
Qed.

(** X7. Two keys that [encodeKey_] gives the same name are the same key:
    no two keys share an attribute of the storage node. *)
Theorem encodeKey_injective (k1 k2 e : jsstring) :
  wf_string k1 → wf_string k2 →
  encodeKey_ k1 = Some (Ok e) → encodeKey_ k2 = Some (Ok e) → k1 = k2.
Proof.
  intros Hwf1 Hwf2 H1 H2.
  pose proof (decodeKey_of_encodeKey k1 e Hwf1 H1) as Hd1.
  pose proof (decodeKey_of_encodeKey k2 e Hwf2 H2) as Hd2.
  congruence.
Qed.

(** [encodeKey_injective] at a key with a dot and an accented letter. *)
Lemma encodeKey_injective_witness :
  [0x61; 0x2E; 0xE9] = [0x61; 0x2E; 0xE9].
Proof.
  apply (encodeKey_injective [0x61; 0x2E; 0xE9] [0x61; 0x2E; 0xE9]
           (lit "_a.2E.C3.A9")).
  - repeat (apply Forall_cons_2; [red; lia|]). apply Forall_nil_2.
  - repeat (apply Forall_cons_2; [red; lia|]). apply Forall_nil_2.
  - vm_compute. reflexivity.
  - vm_compute. reflexivity.
Defined.

Lemma plain_char (C : char16) :
  contains plainChars C = true →
  contains alwaysUnescaped C = true ∧ replace_reserved [C] = [C].
Proof.
  unfold contains at 1. rewrite bool_decide_eq_true.
  let l := eval vm_compute in plainChars in change plainChars with l.
  intros H.
  repeat (apply elem_of_cons in H as [-> | H];
          [split; vm_compute; reflexivity|]).
  by apply elem_of_nil in H.
Qed.

Lemma encode_loop_plain (k : jsstring) :
  forallb (contains plainChars) k = true →
  ∀ fe, (length k <= fe)%nat → Encode_loop fe k = Some (Ok k).
Proof.
  induction k as [|C k IH]; intros Hk fe Hfe; [by destruct fe|].
  cbn [forallb] in Hk. apply andb_true_iff in Hk as [HC Hk].
  destruct fe as [|fe]; [cbn in Hfe; lia|]. cbn [length] in Hfe.
  cbn [Encode_loop]. destruct (plain_char C HC) as [-> _].
  rewrite IH by (done || lia). done.
Qed.

(** X8. A key of the characters [-a-zA-Z0-9_] is its own encoding, with
    the underscore before it. *)
Theorem encodeKey_plain (k : jsstring) :
  forallb (contains plainChars) k = true →
  encodeKey_ k = Some (Ok (lit "_" ++ k)).
Proof.
  intros Hk. unfold encodeKey_, encodeURIComponent.
  rewrite encode_loop_plain by (done || lia). do 3 f_equal.
  induction k as [|C k IH]; [done|].
  cbn [forallb] in Hk. apply andb_true_iff in Hk as [HC Hk].
  change (C :: k) with ([C] ++ k). rewrite replace_reserved_app, IH by done.
  by destruct (plain_char C HC) as [_ ->].
Qed.

(** [encodeKey_plain] at a key of letters, digits, hyphen and underscore. *)
Lemma encodeKey_plain_witness :
  encodeKey_ (lit "user-id_42") = Some (Ok (lit "_" ++ lit "user-id_42")).
Proof.
  apply (encodeKey_plain (lit "user-id_42")). vm_compute. reflexivity.
Defined.


(** *** Names that are no encoded keys *)

Lemma hex_value_percent : hex_value 0x25 = None.
Proof. reflexivity. Qed.

Lemma ParseHexOctet_percent_l (h : char16) : ParseHexOctet 0x25 h = None.
Proof. reflexivity. Qed.

Lemma ParseHexOctet_percent_r (h : char16) : ParseHexOctet h 0x25 = None.
Proof. unfold ParseHexOctet. by destruct (hex_value h). Qed.

Lemma continuation_octets_truncated (tail : jsstring) (j : nat) :
  (length tail < 2)%nat →
  ∀ (s : jsstring) (followers : list Z) (rest : jsstring),
    continuation_octets j (s ++ 0x25 :: tail) = Some (followers, rest) →
    ∃ s', rest = s' ++ 0x25 :: tail ∧ (length s' <= length s)%nat.
Proof.
  intros Htail. induction j as [|j IH]; intros s followers rest.
  - intros [= _ <-]. by exists s.
  - destruct s as [|a [|b [|c s]]]; cbn [app continuation_octets].
    + destruct tail as [|t1 [|t2 tail]]; try done. cbn in Htail. lia.
    + destruct tail as [|t1 tail]; [done|].
      rewrite ParseHexOctet_percent_l. by destruct (a =? 0x25).
    + rewrite ParseHexOctet_percent_r. by destruct (a =? 0x25).
    + destruct (a =? 0x25); [|done].
      destruct (ParseHexOctet b c) as [B|]; [|done].
      destruct (continuation_octets j (s ++ 0x25 :: tail)) as [[fs r]|] eqn:Hc;
        [|done].
      intros [= _ <-]. destruct (IH s fs r Hc) as (s' & -> & Hlen).
      exists s'. split; [done|]. cbn. lia.
Qed.

Lemma decode_loop_truncated (tail : jsstring) (fuel : nat) :
  (length tail < 2)%nat →
  ∀ s : jsstring, (length s < fuel)%nat →
    Decode_loop fuel (s ++ 0x25 :: tail) = Some (Throw URIError).
Proof.
  intros Htail. induction fuel as [|fuel IH]; intros s Hfuel; [lia|].
  destruct s as [|C s]; cbn [app Decode_loop].
  - destruct tail as [|t1 [|t2 tail]]; try done. cbn in Htail. lia.
  - cbn [length] in Hfuel. destruct (C =? 0x25).
    + destruct s as [|h1 [|h2 s]]; cbn [app].
      * destruct tail as [|t1 tail]; [done|]. by rewrite ParseHexOctet_percent_l.
      * by rewrite ParseHexOctet_percent_r.
      * cbn [length] in Hfuel.
        destruct (ParseHexOctet h1 h2) as [B|]; [|done].
        destruct (leading_ones B =? 0)%nat.
        { rewrite IH by lia. done. }
        destruct ((leading_ones B =? 1)%nat || (4 <? leading_ones B)%nat); [done|].
        destruct (continuation_octets (leading_ones B - 1) (s ++ 0x25 :: tail))
          as [[followers rest]|] eqn:Hc; [|done].
        destruct (continuation_octets_truncated tail _ Htail s followers rest Hc)
          as (s' & -> & Hlen).
        destruct (valid_utf8 (B :: followers)); [|done].
        rewrite IH by (unfold jsstring, char16 in *; lia). done.
    + rewrite IH by lia. done.
Qed.

Lemma replace_dots_app (s1 s2 : jsstring) :
  replace_dots (s1 ++ s2) = replace_dots s1 ++ replace_dots s2.
Proof. unfold replace_dots. apply fmap_app. Qed.

(** X9. A name in which a dot has fewer than two characters after it is
    no encoded key: [decodeKey_] throws the [URIError] of
    [decodeURIComponent] on it, whatever stands before the dot. *)
Theorem decodeKey_truncated (pre tail : jsstring) :
  (length tail < 2)%nat →
  decodeKey_ (pre ++ lit "." ++ tail) = Some (Throw URIError).
Proof.
  intros Htail. unfold decodeKey_, decodeURIComponent.
  rewrite !replace_dots_app.
  change (replace_dots (lit ".")) with [0x25]. cbn [app].
  rewrite decode_loop_truncated; [done| |].
  - unfold replace_dots. by rewrite length_fmap.
  - rewrite length_app. cbn. lia.
Qed.

(** [decodeKey_truncated] at a name that ends in a dot and one digit. *)
Lemma decodeKey_truncated_witness :
  decodeKey_ (lit "_a.2Eb" ++ lit "." ++ lit "4") = Some (Throw URIError).
Proof. apply (decodeKey_truncated (lit "_a.2Eb") (lit "4")). cbn. lia. Defined.

(** *** The iterator over the keys *)

Lemma drain_keys (keys : list jsstring) :
  ∀ (done : list Attr) (attributes : list Attr) (fuel : nat),
    Forall wf_string keys →
    Forall2 (λ k a, encodeKey_ k = Some (Ok (nodeName a))) keys attributes →
    (length attributes < fuel)%nat →
    drain fuel true (done ++ attributes) (length done) = Some (Ok keys).
Proof.
  induction keys as [|k keys IH]; intros done attributes fuel Hwf Hnames Hfuel.
  - apply Forall2_nil_inv_l in Hnames as ->. rewrite app_nil_r.
    destruct fuel as [|fuel]; [cbn in Hfuel; lia|]. cbn [drain]. unfold next.
    by rewrite lookup_ge_None_2.
  - apply Forall2_cons_inv_l in Hnames as (a & attributes' & Hk & Hnames & ->).
    apply Forall_cons in Hwf as [Hwfk Hwf].
    destruct fuel as [|fuel]; [cbn in Hfuel; lia|]. cbn [length] in Hfuel.
    cbn [drain]. unfold next.
    rewrite list_lookup_middle by done.
    rewrite (decodeKey_of_encodeKey k (nodeName a) Hwfk Hk).
    change (done ++ a :: attributes') with (done ++ [a] ++ attributes').
    rewrite (assoc (++)).
    replace (S (length done)) with (length (done ++ [a]))
      by (rewrite length_app; cbn; lia).
    rewrite IH by (done || lia). done.
Qed.

(** X10. Over a storage node whose attributes are named by [encodeKey_]
    of the keys [keys], in that order, the iteration for keys yields
    [keys], in that order, and ends. *)
Theorem keys_iterated (keys : list jsstring) (attributes : list Attr) :
  Forall wf_string keys →
  Forall2 (λ k a, encodeKey_ k = Some (Ok (nodeName a))) keys attributes →
  iterate true attributes = Some (Ok keys).
Proof.
  intros Hwf Hnames. unfold iterate.
  apply (drain_keys keys [] attributes); [done|done|lia].
Qed.

(** [keys_iterated] at a node of two attributes. *)
Lemma keys_iterated_witness :
  let attributes :=
    [ {| nodeName := lit "_a.2Eb"; nodeValue := StringValue (lit "1") |};
      {| nodeName := lit "_.C3.A9"; nodeValue := OtherValue |} ] in
  iterate true attributes = Some (Ok [[0x61; 0x2E; 0x62]; [0xE9]]).
Proof.
  intros attributes.
  apply (keys_iterated [[0x61; 0x2E; 0x62]; [0xE9]] attributes).
  - apply Forall_cons_2; [|apply Forall_cons_2; [|apply Forall_nil_2]];
      repeat (apply Forall_cons_2; [red; lia|]); apply Forall_nil_2.
  - unfold attributes. repeat (constructor; [vm_compute; reflexivity|]).
    constructor.
Defined.

Lemma drain_values (values : list jsstring) :
  ∀ (done strs rest : list Attr) (fuel : nat),
    Forall2 (λ v a, nodeValue a = StringValue v) values strs →
    (length strs < fuel)%nat →
    match rest with
    | [] => True
    | a :: _ => nodeValue a = OtherValue
    end →
    drain fuel false (done ++ strs ++ rest) (length done) =
      Some (match rest with
            | [] => Ok values
            | _ :: _ => Throw INVALID_VALUE
            end).
Proof.
  induction values as [|v values IH]; intros done strs rest fuel Hvals Hfuel Hrest.
  - apply Forall2_nil_inv_l in Hvals as ->. cbn [app].
    destruct fuel as [|fuel]; [cbn in Hfuel; lia|]. cbn [drain]. unfold next.
    destruct rest as [|a rest].
    + rewrite app_nil_r. by rewrite lookup_ge_None_2.
    + rewrite list_lookup_middle by done. by rewrite Hrest.
  - apply Forall2_cons_inv_l in Hvals as (a & strs' & Hv & Hvals & ->).
    destruct fuel as [|fuel]; [cbn in Hfuel; lia|]. cbn [length] in Hfuel.
    cbn [drain]. unfold next. cbn [app].
    rewrite list_lookup_middle by done. rewrite Hv.
    change (done ++ a :: strs' ++ rest) with (done ++ [a] ++ strs' ++ rest).
    rewrite (assoc (++)).
    replace (S (length done)) with (length (done ++ [a]))
      by (rewrite length_app; cbn; lia).
    rewrite IH by (done || lia). by destruct rest.
Qed.

(** X11. The iteration for values yields the values of the attributes in
    their order when all of them are strings. When it comes to an
    attribute whose value is no string, having yielded the string values
    before it, each by one call of [next], the call of [next] for that
    attribute throws [INVALID_VALUE], which ends the iteration. *)
Theorem values_iterated (values : list jsstring) (strs : list Attr) :
  Forall2 (λ v a, nodeValue a = StringValue v) values strs →
  iterate false strs = Some (Ok values)
  ∧ ∀ a rest, nodeValue a = OtherValue →
      (∀ i v, values !! i = Some v →
              next false (strs ++ a :: rest) i = Some (Yield v, S i))
      ∧ next false (strs ++ a :: rest) (length strs)
        = Some (Raise INVALID_VALUE, S (length strs))
      ∧ iterate false (strs ++ a :: rest) = Some (Throw INVALID_VALUE).
Proof.
  intros Hvals. unfold iterate. split.
  - pose proof (drain_values values [] strs [] (S (length strs)) Hvals) as H.
    rewrite app_nil_r in H. apply H; [lia|done].
  - intros a rest Ha. split; [|split].
    + intros i v Hv.
      destruct (Forall2_lookup_l _ _ _ _ _ Hvals Hv) as (a' & Ha' & Hval).
      unfold next. by rewrite (lookup_app_l_Some _ _ _ _ Ha'), Hval.
    + unfold next. by rewrite list_lookup_middle, Ha.
    + apply (drain_values values [] strs (a :: rest)); [done| |done].
      rewrite length_app. lia.
Qed.

(** [values_iterated] at a node of two attributes with string values,
    followed by one whose value is no string. *)
Lemma values_iterated_witness :
  let strs :=
    [ {| nodeName := lit "_a"; nodeValue := StringValue (lit "1") |};
      {| nodeName := lit "_b"; nodeValue := StringValue (lit "2") |} ] in
  let a := {| nodeName := lit "_c"; nodeValue := OtherValue |} in
  iterate false strs = Some (Ok [lit "1"; lit "2"])
  ∧ next false (strs ++ [a]) 0 = Some (Yield (lit "1"), 1%nat)
  ∧ next false (strs ++ [a]) 1 = Some (Yield (lit "2"), 2%nat)
  ∧ next false (strs ++ [a]) 2 = Some (Raise INVALID_VALUE, 3%nat)
  ∧ iterate false (strs ++ [a]) = Some (Throw INVALID_VALUE).
Proof.
  intros strs a.
  destruct (values_iterated [lit "1"; lit "2"] strs) as [H1 H2].
  { unfold strs. repeat (constructor; [reflexivity|]). constructor. }
  destruct (H2 a [] eq_refl) as (Hy & Hr & Ht).
  split; [exact H1|]. split; [exact (Hy 0%nat _ eq_refl)|].
  split; [exact (Hy 1%nat _ eq_refl)|]. split; [exact Hr|exact Ht].
Defined.


(** *** Clearing the node *)

Lemma removeAttribute_last (init : list Attr) (a : Attr) :
  nodeName a ∉ nodeName <$> init →
  removeAttribute (nodeName a) (init ++ [a]) = init.
Proof.
  intros Hnot. unfold removeAttribute.
  rewrite filter_app, filter_cons_False, filter_nil, app_nil_r by naive_solver.
  induction init as [|b init IH]; [done|].
  rewrite filter_cons_True.
  - f_equal. apply IH. intros Hin. apply Hnot. cbn. by right.
  - intros Heq. apply Hnot. cbn. rewrite Heq. by left.
Qed.

Lemma clear_loop_empties (attributes : list Attr) :
  NoDup (nodeName <$> attributes) →
  clear_loop (length attributes) attributes = Ok [].
Proof.
  induction attributes as [|a init IH] using rev_ind; [done|].
  rewrite fmap_app, length_app. cbn [fmap list_fmap length].
  intros [Hinit [Hnot _]]%NoDup_app.
  rewrite Nat.add_1_r. cbn [clear_loop].
  rewrite lookup_app_r, Nat.sub_diag by done. cbn [lookup list_lookup].
  rewrite removeAttribute_last.
  - by apply IH.
  - intros Hin. apply (Hnot _ Hin). by left.
Qed.

(** X25. [clear] takes every attribute off the storage node: its loop,
    which goes down from the number of the attributes and removes the
    attribute at the end of what is left, reads no index that holds no
    attribute and leaves none. When the [save] of the browser then
    fails, [clear] throws [QUOTA_EXCEEDED]. *)
Theorem clear_empties (saved : bool) (attributes : list Attr) :
  NoDup (nodeName <$> attributes) →
  clear saved attributes
  = if saved then Ok [] else Throw (Storage QUOTA_EXCEEDED).
Proof.
  intros Hnames. unfold clear. by rewrite clear_loop_empties.
Qed.

(** [clear_empties] at a node of two attributes. *)
Lemma clear_empties_witness :
  clear true
    [ {| nodeName := lit "_a"; nodeValue := StringValue (lit "1") |};
      {| nodeName := lit "_b"; nodeValue := OtherValue |} ] = Ok [].
Proof.
  apply (clear_empties true). cbn [fmap list_fmap nodeName].
  apply NoDup_cons. split; [|apply NoDup_singleton].
  intros Hin%list_elem_of_singleton. vm_compute in Hin. discriminate.
Defined.

End IEUserDataMore.

(** ** The loader *)
Module JsLoaderSpec.
Import JsLoader.
Local Open Scope nat_scope.
Local Arguments fire_loop : simpl never.

Lemma fire_loop_S (fuel d : nat) (res : value) (nb : bool) (s : State) :
  fire_loop (S fuel) d res nb s
  = fire_body (fire_ fuel) (fire_loop fuel) d res nb s.
Proof. reflexivity. Qed.

Lemma budget_eq (s : State) :
  budget s = S (S (S (S (S (S (S (S (2 * (entries s
       + length (deferreds s) + length (scriptsToLoad_ s))))))))))%nat.
Proof. unfold budget. lia. Qed.

Lemma modify_fresh (f : Deferred → Deferred) (D : Deferred) (s : State) :
  modify (length (deferreds s)) f (set_deferreds (deferreds s ++ [D]) s)
  = set_deferreds (deferreds s ++ [f D]) s.
Proof.
  unfold modify, set_deferreds. cbn. f_equal.
  rewrite <- (Nat.add_0_r (length (deferreds s))) at 1.
  by rewrite alter_app_r.
Qed.

Lemma lookup_fresh (D : Deferred) (s : State) :
  deferreds (set_deferreds (deferreds s ++ [D]) s) !! length (deferreds s) = Some D.
Proof. cbn. by rewrite lookup_app_r, Nat.sub_diag by lia. Qed.

(** C9. [safeLoadMany] with no URI returns at once a new handle that has
    succeeded, with [null]; the queue, the script elements, the timers and
    the trace of loads are what they were. *)
Theorem safeLoadMany_empty (opt_options : option Options) (s : State) :
  let d := length (deferreds s) in
  let settled :=
    {| sequence_ := []; defaultScope_ := None; fired_ := true;
       hadError_ := false; result_ := VData DNull; blocked_ := false;
       blocking_ := false |} in
  exec (Call_safeLoadMany [] opt_options) s
  = Some (set_deferreds (deferreds s ++ [settled]) s, Return (VDeferred d))
  ∧ scriptsToLoad_ (set_deferreds (deferreds s ++ [settled]) s) = scriptsToLoad_ s
  ∧ scripts (set_deferreds (deferreds s ++ [settled]) s) = scripts s
  ∧ trace (set_deferreds (deferreds s ++ [settled]) s) = trace s.
Proof.
  intros d settled. split; [|done].
  unfold exec, safeLoadMany, succeed, alloc_Deferred, callback, hasFired,
    updateResult_. cbn [length bool_decide decide_rel].
  rewrite bool_decide_eq_true_2 by done.
  rewrite lookup_fresh. cbn [fired_ new_Deferred].
  rewrite modify_fresh. unfold fire_, current_result.
  rewrite lookup_fresh, budget_eq, fire_loop_S. unfold fire_body.
  rewrite lookup_fresh. cbn. rewrite modify_fresh. done.
Qed.


(** *** Updates of the state *)

Lemma modify_modify (d : nat) (f g : Deferred → Deferred) (s : State) :
  modify d f (modify d g s) = modify d (f ∘ g) s.
Proof.
  unfold modify, set_deferreds. cbn. f_equal.
  apply list_alter_alter_eq.
Qed.

Lemma modify_ext (d : nat) (f g : Deferred → Deferred) (s : State) :
  (∀ D, deferreds s !! d = Some D → f D = g D) → modify d f s = modify d g s.
Proof.
  intros Hfg. unfold modify. f_equal. by apply list_alter_ext.
Qed.

Lemma emits_emits (tr1 tr2 : list Trace) (s : State) :
  emits tr2 (emits tr1 s) = emits (tr1 ++ tr2) s.
Proof. unfold emits. cbn. by rewrite (assoc (++)). Qed.

Lemma emits_nil (s : State) : emits [] s = s.
Proof. destruct s. unfold emits. cbn. by rewrite app_nil_r. Qed.

Lemma lookup_modify (d : nat) (f : Deferred → Deferred) (s : State) :
  deferreds (modify d f s) !! d = f <$> deferreds s !! d.
Proof. cbn. apply list_lookup_alter_eq. Qed.

Lemma lookup_modify_ne (d d' : nat) (f : Deferred → Deferred) (s : State) :
  d ≠ d' → deferreds (modify d f s) !! d' = deferreds s !! d'.
Proof. intros. cbn. by apply list_lookup_alter_ne. Qed.

(** *** The page after [safeLoad] *)

Lemma alter_fresh {A : Type} (f : A → A) (l : list A) (x : A) :
  alter f (length l) (l ++ [x]) = l ++ [f x].
Proof.
  rewrite <- (Nat.add_0_r (length l)) at 1. by rewrite alter_app_r.
Qed.

Lemma safeLoad_eq (uri : string) (o : option Options) (s : State) :
  let sc := length (scripts s) in
  let d := length (deferreds s) in
  let t := if (0 <? timeoutDuration o)%Z then Some (length (timers s)) else None in
  safeLoad uri o s =
    (d,
     {| scriptsToLoad_ := scriptsToLoad_ s;
        scriptLoadingDeferred_ := scriptLoadingDeferred_ s;
        deferreds := deferreds s ++
          [{| sequence_ := [];
              defaultScope_ := Some {| script_ := sc; timeout_ := t |};
              fired_ := false; hadError_ := false; result_ := VUndefined;
              blocked_ := false; blocking_ := false |}];
        scripts := scripts s ++
          [{| src := uri;
              properties := delete "src"
                              (<["charset" := "UTF-8"]>
                                 (<["type" := "text/javascript"]>
                                    (default ∅ (o ≫= attributes))));
              ownerDocument := default 0 (o ≫= document);
              handlers := Some {| h_deferred := d; h_timeout := t;
                                  h_removeScriptNode :=
                                    default false (o ≫= cleanupWhenDone);
                                  h_uri := uri |};
              attached := true |}];
        timers := timers s ++
          (if (0 <? timeoutDuration o)%Z then [Some (timeoutTask sc d uri)] else []);
        verifyObjs := verifyObjs s;
        trace := trace s ++ [LoadStarted sc uri] |}).
Proof.
  unfold safeLoad, timeoutDuration, alloc_Deferred, setTimeout, modify,
    modify_script, set_deferreds, set_scripts, set_timers, emit.
  destruct (0 <? default DEFAULT_TIMEOUT (o ≫= timeout))%Z;
    cbn; rewrite ?alter_fresh, ?app_nil_r; done.
Qed.


(** *** A Deferred that runs the callbacks of callers *)

Lemma settle_step (d : nat) (res : value) (q : list (option fn * option fn))
    (tr0 tr : list Trace) (s : State) :
  emits tr (modify d (λ D, with_result_ res (with_sequence_ [] D))
              (emits tr0 (modify d (with_sequence_ q) s)))
  = emits (tr0 ++ tr) (modify d (λ D, with_result_ res (with_sequence_ [] D)) s).
Proof.
  unfold emits, modify, set_deferreds. cbn. f_equal.
  - by rewrite list_alter_alter_eq.
  - by rewrite (assoc (++)).
Qed.

Lemma fire_loop_observers (cbs : list (option nat * option nat)) :
  ∀ (fuel d : nat) (res : value) (s : State) (D : Deferred),
    length cbs < fuel →
    deferreds s !! d = Some D →
    sequence_ D = observers cbs → blocked_ D = false →
    is_VDeferred res = false →
    fire_loop fuel d res false s
    = Some (emits (observed (hadError_ D) res cbs)
              (modify d (λ D, with_result_ res (with_sequence_ [] D)) s)).
Proof.
  induction cbs as [|[cb eb] cbs IH]; intros fuel d res s D Hfuel Hd Hseq Hbl Hres;
    (destruct fuel as [|fuel]; [simpl in Hfuel; lia|]);
    rewrite fire_loop_S; unfold fire_body; rewrite Hd, Hseq.
  - cbn [observers fmap list_fmap observed omap list_omap].
    rewrite emits_nil. unfold STRICT_ERRORS. cbn [andb]. f_equal.
    apply modify_ext. intros D' HD'. rewrite Hd in HD'. injection HD' as <-.
    destruct D; cbn in *. by subst.
  - cbn [length] in Hfuel. rewrite Hbl.
    change (observers ((cb, eb) :: cbs))
      with ((observer <$> cb, observer <$> eb) :: observers cbs).
    cbn [fst snd].
    set (s1 := modify d (with_sequence_ (observers cbs)) s).
    assert (Hd1 : deferreds s1 !! d = Some (with_sequence_ (observers cbs) D))
      by (unfold s1; by rewrite lookup_modify, Hd).
    assert (Hstep : ∀ (o : option nat) (asError : bool),
      hadError_ D = asError →
      match observer <$> o with
      | Some f =>
          match invoke (fire_ fuel) f asError res s1 with
          | Some (s2, Return ret) =>
              let '(s3, res') :=
                if bool_decide (ret = VUndefined) then (s2, res)
                else (modify d (λ D2, with_result_ ret
                        (with_hadError_ (hadError_ D2 &&
                           (bool_decide (ret = res) || isError ret)) D2)) s2, ret) in
              if is_VDeferred res'
              then fire_loop fuel d res' true (modify d (with_blocked_ true) s3)
              else fire_loop fuel d res' false s3
          | Some (s2, Raise ex) =>
              fire_loop fuel d ex false (modify d (with_hadError_ true) s2)
          | None => None
          end
      | None => fire_loop fuel d res false s1
      end
      = Some (emits (from_option (λ tag, [Observed tag asError res]) [] o
                      ++ observed asError res cbs)
                (modify d (λ D, with_result_ res (with_sequence_ [] D)) s))).
    { intros [tag|] asError Herr; cbn [fmap option_fmap option_map invoke from_option].
      - rewrite bool_decide_eq_true_2 by done. rewrite Hres.
        erewrite (IH fuel d res (emit _ s1)); [|lia|exact Hd1|done|done|done].
        cbn [hadError_ with_sequence_]. rewrite Herr. f_equal.
        unfold s1. apply (settle_step d res _ [_]).
      - erewrite (IH fuel d res s1); [|lia|exact Hd1|done|done|done].
        cbn [hadError_ with_sequence_]. rewrite Herr. f_equal.
        unfold s1. rewrite <- (emits_nil (modify d (with_sequence_ _) s)).
        apply (settle_step d res _ []). }
    destruct (hadError_ D) eqn:Herr.
    + rewrite (Hstep eb true eq_refl). by destruct eb.
    + rewrite (Hstep cb false eq_refl). by destruct cb.
Qed.

Lemma sequence_le_budget (s : State) (d : nat) (D : Deferred) :
  deferreds s !! d = Some D → length (sequence_ D) + 8 <= budget s.
Proof.
  intros Hd. unfold budget, entries.
  assert (length (sequence_ D) <= sum_list (length ∘ sequence_ <$> deferreds s)); [|lia].
  revert d Hd. induction (deferreds s) as [|D0 l IH]; intros [|d] Hd; try done.
  - injection Hd as ->. cbn. lia.
  - cbn in *. specialize (IH d Hd). lia.
Qed.



Lemma lookup_delete_verifyObj (name : string) (s : State) :
  own_verifyObj name (delete_verifyObj name s) = None.
Proof.
  unfold own_verifyObj, delete_verifyObj.
  destruct (verifyObjs s) as [r|] eqn:Hr; cbn; [|by rewrite Hr].
  apply lookup_delete_eq.
Qed.

Lemma lookup_verifyObj_same (name : string) (s s' : State) :
  verifyObjs s' = verifyObjs s → lookup_verifyObj name s' = lookup_verifyObj name s.
Proof. intros H. unfold lookup_verifyObj, own_verifyObj. by rewrite H. Qed.

Lemma lookup_verifyObj_None (name : string) (s : State) :
  lookup_verifyObj name s = None → own_verifyObj name s = None.
Proof. unfold lookup_verifyObj. by destruct (own_verifyObj name s). Qed.

Lemma lookup_verifyObj_own (name : string) (s : State) :
  own_verifyObj name s = None → lookup_verifyObj name s = inherited name.
Proof. intros H. unfold lookup_verifyObj. by rewrite H. Qed.

(** The registry that [safeLoadAndVerify] makes when there is none is
    empty: the names read in it as before. *)
Lemma lookup_verifyObj_made (name : string) (s : State) :
  lookup_verifyObj name (match verifyObjs s with
                         | Some _ => s
                         | None => set_verifyObjs ∅ s
                         end) = lookup_verifyObj name s.
Proof.
  unfold lookup_verifyObj, own_verifyObj.
  destruct (verifyObjs s) as [r|] eqn:Hr; [by rewrite Hr|].
  cbn [verifyObjs set_verifyObjs mbind option_bind]. by rewrite lookup_empty.
Qed.

(** C6. When the script of a [safeLoadAndVerify] has loaded, the handle of
    the call not having fired: if the slot of the name holds a value, the
    handle succeeds with that value, given to the callbacks of the callers,
    and the slot is deleted: the registry has no property of its own
    under the name any more, and the name reads as what is inherited
    under it, which for a name that is not of [Object.prototype] is
    nothing; if the slot is empty, the handle fails with a [VERIFY_ERROR]
    error. *)
Theorem loaded_then_verified (s : State) (sc sendDeferred deferred : nat)
    (h : Handlers) (readyState : option string) (name uri : string)
    (Dsend Ddef : Deferred) (cbs : list (option nat * option nat)) :
  scripts s !! sc ≫= handlers = Some h →
  h_deferred h = sendDeferred →
  is_ready readyState = true →
  deferreds s !! sendDeferred = Some Dsend →
  fired_ Dsend = false → blocked_ Dsend = false →
  sequence_ Dsend = [(Some (verifyCallback deferred name uri), None);
                     (None, Some (verifyErrback deferred name))] →
  sendDeferred ≠ deferred →
  deferreds s !! deferred = Some Ddef →
  fired_ Ddef = false → blocked_ Ddef = false → sequence_ Ddef = observers cbs →
  ∃ s',
    exec (Fires_onload sc readyState) s = Some (s', Return VUndefined)
    ∧ match lookup_verifyObj name s with
      | Some v =>
          deferreds s' !! deferred =
            Some {| sequence_ := []; defaultScope_ := defaultScope_ Ddef;
                    fired_ := true; hadError_ := false; result_ := VData v;
                    blocked_ := false; blocking_ := blocking_ Ddef |}
          ∧ own_verifyObj name s' = None
          ∧ lookup_verifyObj name s' = inherited name
          ∧ trace s' = trace s ++ LoadCompleted sc None
                                 :: observed false (VData v) cbs
      | None =>
          let error := VError (new_Error VERIFY_ERROR
            ("Script " +:+ uri +:+ " loaded, but verification object "
             +:+ name +:+ " was not defined.")) in
          deferreds s' !! deferred =
            Some {| sequence_ := []; defaultScope_ := defaultScope_ Ddef;
                    fired_ := true; hadError_ := true; result_ := error;
                    blocked_ := false; blocking_ := blocking_ Ddef |}
          ∧ own_verifyObj name s' = None
          ∧ lookup_verifyObj name s' = None
          ∧ trace s' = trace s ++ LoadCompleted sc None :: observed true error cbs
      end.
Proof.
  intros Hh Hhd Hready Hsd Hsf Hsb Hsseq Hne Hd Hdf Hdb Hdseq.
  pose proof (sequence_le_budget s deferred Ddef Hd) as Hbudget.
  rewrite Hdseq in Hbudget. unfold observers in Hbudget.
  rewrite length_fmap in Hbudget.
  destruct (budget s) as [|[|[|fuel]]] eqn:Hfuel; try lia.
  unfold exec. rewrite Hh, Hfuel. unfold onload. rewrite Hready, Hhd.
  set (s0 := cleanup_ sc (h_removeScriptNode h) (h_timeout h)
               (emit (LoadCompleted sc None) s)).
  assert (Hd0 : ∀ d, deferreds s0 !! d = deferreds s !! d).
  { intros d'. unfold s0, cleanup_.
    by destruct (h_removeScriptNode h), (h_timeout h). }
  assert (Hv0 : ∀ n, lookup_verifyObj n s0 = lookup_verifyObj n s).
  { intros n. apply lookup_verifyObj_same. unfold s0, cleanup_.
    by destruct (h_removeScriptNode h), (h_timeout h). }
  assert (Ht0 : trace s0 = trace s ++ [LoadCompleted sc None]).
  { unfold s0, cleanup_. by destruct (h_removeScriptNode h), (h_timeout h). }
  clearbody s0.
  unfold callback at 1, hasFired. rewrite Hd0, Hsd, Hsf.
  unfold updateResult_ at 1, fire_ at 1, current_result.
  rewrite lookup_modify, Hd0, Hsd.
  cbn [fmap option_fmap option_map result_ with_hadError_ with_result_ with_fired_
       negb].
  rewrite fire_loop_S. unfold fire_body at 1. rewrite lookup_modify, Hd0, Hsd.
  cbn [fmap option_fmap option_map sequence_ blocked_ hadError_ with_hadError_
       with_result_ with_fired_ negb fst snd]. rewrite Hsseq, Hsb.
  cbn [fst snd invoke do_verifyCallback]. rewrite !modify_modify.
  set (s1 := modify sendDeferred _ s0).
  assert (Hd1 : deferreds s1 !! deferred = Some Ddef)
    by (unfold s1; by rewrite lookup_modify_ne, Hd0).
  assert (Hs1 : deferreds s1 !! sendDeferred
                = Some {| sequence_ := [(None, Some (verifyErrback deferred name))];
                          defaultScope_ := defaultScope_ Dsend;
                          fired_ := true; hadError_ := false;
                          result_ := VData DNull; blocked_ := false;
                          blocking_ := blocking_ Dsend |}).
  { unfold s1. rewrite lookup_modify, Hd0, Hsd. cbn.
    unfold with_result_, with_sequence_, with_hadError_, with_fired_. cbn.
    by rewrite Hsb. }
  assert (Hv1 : lookup_verifyObj name s1 = lookup_verifyObj name s)
    by (rewrite <- Hv0; done).
  assert (Ht1 : trace s1 = trace s ++ [LoadCompleted sc None]) by exact Ht0.
  clearbody s1. unfold do_verifyCallback. rewrite Hv1.
  (* the two turns of the loop that are left, from a state [s2] *)
  assert (Hrest : ∀ s2,
    deferreds s2 !! sendDeferred = deferreds s1 !! sendDeferred →
    ∃ s', fire_loop (S (S fuel)) sendDeferred (VData DNull) false s2 = Some s'
          ∧ deferreds s' !! deferred = deferreds s2 !! deferred
          ∧ verifyObjs s' = verifyObjs s2 ∧ trace s' = trace s2).
  { intros s2 Hs2. rewrite fire_loop_S. unfold fire_body. rewrite Hs2, Hs1.
    cbn [sequence_ blocked_ hadError_ fst snd].
    rewrite fire_loop_S. unfold fire_body. rewrite lookup_modify, Hs2, Hs1.
    cbn [fmap option_fmap option_map sequence_ blocked_ with_sequence_].
    unfold STRICT_ERRORS. cbn [andb]. eexists. split; [reflexivity|].
    by rewrite !lookup_modify_ne. }
  destruct (lookup_verifyObj name s) as [v|] eqn:Hv.
  - unfold callback, hasFired. rewrite Hd1, Hdf.
    unfold updateResult_, fire_, current_result.
    rewrite lookup_modify, Hd1.
    cbn [fmap option_fmap option_map result_ with_hadError_ with_result_
         with_fired_ negb mbind option_bind].
    erewrite (fire_loop_observers cbs);
      [|lia|by rewrite lookup_modify, Hd1|exact Hdseq|exact Hdb|done].
    cbn [mbind option_bind hadError_ with_hadError_ with_result_ with_fired_ negb].
    rewrite bool_decide_eq_true_2 by done. cbn [is_VDeferred].
    set (s2 := delete_verifyObj name _).
    destruct (Hrest s2) as (s' & -> & Hd' & Hv' & Ht').
    { unfold s2, delete_verifyObj. cbn [verifyObjs emits modify set_deferreds].
      destruct (verifyObjs s1); cbn; by rewrite !list_lookup_alter_ne. }
    cbn [mbind option_bind]. eexists. split; [reflexivity|].
    assert (own_verifyObj name s' = None) as Hown.
    { unfold own_verifyObj. rewrite Hv'. apply lookup_delete_verifyObj. }
    split; [|split; [|split]].
    + rewrite Hd'. unfold s2, delete_verifyObj.
      cbn [verifyObjs emits modify set_deferreds].
      destruct (verifyObjs s1); cbn; rewrite !list_lookup_alter_eq, Hd1; cbn;
        unfold with_result_, with_sequence_, with_hadError_, with_fired_; cbn;
        by rewrite Hdb.
    + exact Hown.
    + by apply lookup_verifyObj_own.
    + rewrite Ht'. unfold s2, delete_verifyObj.
      cbn [verifyObjs emits modify set_deferreds].
      destruct (verifyObjs s1); cbn; by rewrite Ht1, <- (assoc (++)).
  - unfold errback, hasFired. rewrite Hd1, Hdf.
    unfold updateResult_, fire_, current_result.
    rewrite lookup_modify, Hd1.
    cbn [fmap option_fmap option_map result_ with_hadError_ with_result_
         with_fired_ negb mbind option_bind].
    erewrite (fire_loop_observers cbs);
      [|lia|by rewrite lookup_modify, Hd1|exact Hdseq|exact Hdb|done].
    cbn [mbind option_bind hadError_ with_hadError_ with_result_ with_fired_ negb].
    rewrite bool_decide_eq_true_2 by done. cbn [is_VDeferred].
    set (s2 := emits _ _).
    destruct (Hrest s2) as (s' & -> & Hd' & Hv' & Ht').
    { unfold s2. cbn. by rewrite !list_lookup_alter_ne. }
    cbn [mbind option_bind]. eexists. split; [reflexivity|].
    assert (lookup_verifyObj name s' = None) as Hnone.
    { rewrite (lookup_verifyObj_same name s2 s' Hv'). exact Hv1. }
    split; [|split; [|split]].
    + rewrite Hd'. unfold s2. cbn. rewrite !list_lookup_alter_eq, Hd1. cbn.
      unfold with_result_, with_sequence_, with_hadError_, with_fired_. cbn.
      by rewrite Hdb.
    + by apply lookup_verifyObj_None.
    + exact Hnone.
    + rewrite Ht'. unfold s2. cbn. by rewrite Ht1, <- (assoc (++)).
Qed.


(** C7, the conditional. A call of [safeLoadAndVerify] for a name that
    reads as defined in the registry, by a property of its own or by one
    it inherits, returns at once a new handle that has failed with a
    [VERIFY_OBJECT_ALREADY_EXISTS] error; the registry is made if there
    was none, and nothing else changes: no script element is made, no
    timer is set and no load is started. *)
Theorem verify_slot_taken (s : State) (uri name : string)
    (options : option Options) (v : data) :
  lookup_verifyObj name s = Some v →
  let error := VError (new_Error VERIFY_OBJECT_ALREADY_EXISTS
                 ("Verification object " +:+ name +:+ " already defined.")) in
  let failed :=
    {| sequence_ := []; defaultScope_ := None; fired_ := true;
       hadError_ := true; result_ := error; blocked_ := false;
       blocking_ := false |} in
  let s' := set_deferreds (deferreds s ++ [failed])
              (match verifyObjs s with
               | Some _ => s
               | None => set_verifyObjs ∅ s
               end) in
  exec (Call_safeLoadAndVerify uri name options) s
  = Some (s', Return (VDeferred (length (deferreds s))))
  ∧ scriptsToLoad_ s' = scriptsToLoad_ s
  ∧ scripts s' = scripts s ∧ timers s' = timers s ∧ trace s' = trace s.
Proof.
  intros Hv error failed s'. split; [|subst s'; by destruct (verifyObjs s)].
  unfold exec, safeLoadAndVerify.
  rewrite lookup_verifyObj_made, Hv.
  subst s'. set (s0 := match verifyObjs s with
                       | Some _ => s
                       | None => set_verifyObjs ∅ s
                       end).
  assert (deferreds s0 = deferreds s) as Hd by (unfold s0; by destruct (verifyObjs s)).
  assert (budget s = budget s0) as ->.
  { unfold budget, entries, s0. by destruct (verifyObjs s). }
  rewrite <- Hd. clearbody s0.
  unfold fail, alloc_Deferred, errback, hasFired, updateResult_.
  rewrite lookup_fresh. cbn [fired_ new_Deferred].
  rewrite modify_fresh. unfold fire_, current_result.
  rewrite lookup_fresh, budget_eq, fire_loop_S. unfold fire_body.
  rewrite lookup_fresh. cbn. rewrite modify_fresh. done.
Qed.



(** [loaded_then_verified] at the call of [example_verify]. *)
Lemma loaded_then_verified_witness :
  ∃ s', exec (Fires_onload 0 None) example_verify = Some (s', Return VUndefined)
        ∧ current_result 1 s' = VData (DObject "x")
        ∧ own_verifyObj "obj" s' = None
        ∧ trace s' = [LoadStarted 0 "v.js"; LoadCompleted 0 None;
                      Observed 1 false (VData (DObject "x"))].
Proof.
  destruct (loaded_then_verified example_verify 0 0 1
              {| h_deferred := 0; h_timeout := Some 0;
                 h_removeScriptNode := false; h_uri := "v.js" |}
              None "obj" "v.js"
              {| sequence_ := [(Some (verifyCallback 1 "obj" "v.js"), None);
                               (None, Some (verifyErrback 1 "obj"))];
                 defaultScope_ := Some {| script_ := 0; timeout_ := Some 0 |};
                 fired_ := false; hadError_ := false; result_ := VUndefined;
                 blocked_ := false; blocking_ := false |}
              {| sequence_ := observers [(Some 1, Some 2)];
                 defaultScope_ := None;
                 fired_ := false; hadError_ := false; result_ := VUndefined;
                 blocked_ := false; blocking_ := false |}
              [(Some 1, Some 2)])
    as (s' & H1 & H2); try (vm_compute; reflexivity); [lia|].
  change (lookup_verifyObj "obj" example_verify) with (Some (DObject "x")) in H2.
  destruct H2 as (H2 & H3 & _ & H4).
  exists s'. split; [exact H1|]. split; [|split; [exact H3|exact H4]].
  unfold current_result. by rewrite H2.
Defined.

(** [verify_slot_taken] at [example_verify]: a second script is asked for
    under the name whose slot the first script has filled; and at the
    start of the page, for a script asked for under a name of
    [Object.prototype]. *)
Lemma verify_slot_taken_witness :
  (∃ s', exec (Call_safeLoadAndVerify "w.js" "obj" None) example_verify
         = Some (s', Return (VDeferred 2))
         ∧ (code <$> match current_result 2 s' with
                     | VError e => Some e
                     | _ => None
                     end) = Some VERIFY_OBJECT_ALREADY_EXISTS
         ∧ trace s' = trace example_verify)
  ∧ (∃ s', exec (Call_safeLoadAndVerify "v.js" "toString" None) initial
           = Some (s', Return (VDeferred 0))
           ∧ (code <$> match current_result 0 s' with
                       | VError e => Some e
                       | _ => None
                       end) = Some VERIFY_OBJECT_ALREADY_EXISTS
           ∧ scripts s' = [] ∧ trace s' = []).
Proof.
  split.
  - destruct (verify_slot_taken example_verify "w.js" "obj" None (DObject "x"))
      as (H1 & _ & _ & _ & H4); [vm_compute; reflexivity|].
    eexists. split; [exact H1|]. split; [|exact H4].
    vm_compute. reflexivity.
  - destruct (verify_slot_taken initial "v.js" "toString" None
                (DInherited "toString"))
      as (H1 & _ & H3 & _ & H4); [vm_compute; reflexivity|].
    eexists. split; [exact H1|]. split; [|split; [exact H3|exact H4]].
    vm_compute. reflexivity.
Defined.

(** C7, as stated, fails. A call does not fill the slot of its name: a
    second call under the same name, made before the first has settled and
    before its script has run, is not refused; it returns a handle that has
    not fired and starts the load of its script. *)
Lemma second_verify_not_refused :
  let s1 := default initial
              (run [Call_safeLoadAndVerify "v.js" "obj" None] initial) in
  hasFired 1 s1 = false
  ∧ ∃ s2, exec (Call_safeLoadAndVerify "v.js" "obj" None) s1
          = Some (s2, Return (VDeferred 3))
          ∧ hasFired 3 s2 = false
          ∧ trace s2 = trace s1 ++ [LoadStarted 1 "v.js"].
Proof.
  split; [vm_compute; reflexivity|].
  eexists. split; [vm_compute; reflexivity|]. split; vm_compute; reflexivity.
Qed.


(** C1, on the code. A batch of one URI is loading and the queue is empty;
    a second batch is taken for the only one: its first URI is loaded at
    once, next to the load of the first batch, and neither load has
    completed. *)
Lemma second_drain_while_loading :
  let s2 := default initial
              (run [Call_safeLoadMany ["a.js"] None;
                    Call_safeLoadMany ["b.js"] None] initial) in
  trace s2 = [LoadStarted 0 "a.js"; LoadStarted 1 "b.js"]
  ∧ is_Some (scripts s2 !! 0 ≫= handlers)
  ∧ is_Some (scripts s2 !! 1 ≫= handlers)
  ∧ hasFired 0 s2 = false ∧ hasFired 1 s2 = false.
Proof. vm_compute. repeat split; by eexists. Qed.

(** C3, on the code. The batch submitted while the one URI of an earlier
    batch is loading gets a handle of its own, which tells its callers of
    the end while the load of the earlier batch goes on. *)
Lemma late_batch_own_handle :
  let s1 := default initial (run [Call_safeLoadMany ["a.js"] None] initial) in
  scriptLoadingDeferred_ s1 = Some 0
  ∧ ∃ s2 s3,
      exec (Call_safeLoadMany ["b.js"] None) s1 = Some (s2, Return (VDeferred 1))
      ∧ run [Call_addCallbacks 1 (Some 7) None; Fires_onload 1 None] s2 = Some s3
      ∧ trace s3 = [LoadStarted 0 "a.js"; LoadStarted 1 "b.js";
                    LoadCompleted 1 None; Observed 7 false (VData DNull)]
      ∧ hasFired 0 s3 = false.
Proof.
  split; [vm_compute; reflexivity|].
  eexists _, _. split; [vm_compute; reflexivity|].
  split; [vm_compute; reflexivity|]. split; vm_compute; reflexivity.
Qed.

End JsLoaderSpec.

(** ** The order of the loads of a batch *)
Module JsLoaderInv.
Import JsLoader JsLoaderSpec.
Local Open Scope nat_scope.
Local Arguments fire_loop : simpl never.


Lemma elem_of_fns_of (f : fn) (q : list (option fn * option fn)) :
  f ∈ fns_of q ↔ ∃ entry, entry ∈ q ∧ (entry.1 = Some f ∨ entry.2 = Some f).
Proof.
  unfold fns_of. rewrite list_elem_of_bind. split.
  - intros ([cb eb] & Hf & He). exists (cb, eb). split; [done|].
    apply elem_of_app in Hf as [Hf|Hf];
      [left|right]; destruct cb, eb; cbn in *;
      repeat (apply elem_of_cons in Hf as [->|Hf]); try done;
      by apply elem_of_nil in Hf.
  - intros ([cb eb] & He & [Hf|Hf]); exists (cb, eb); (split; [|done]);
      cbn in Hf; subst; apply elem_of_app; [left|right]; by left.
Qed.

Lemma fns_of_app (q1 q2 : list (option fn * option fn)) :
  fns_of (q1 ++ q2) = fns_of q1 ++ fns_of q2.
Proof. unfold fns_of. apply bind_app. Qed.

Lemma fns_of_suffix (q1 q2 : list (option fn * option fn)) (f : fn) :
  q1 `suffix_of` q2 → f ∈ fns_of q1 → f ∈ fns_of q2.
Proof.
  intros [k ->]. rewrite fns_of_app, elem_of_app. by right.
Qed.

Lemma has_pop_iff (D : Deferred) :
  has_pop D ↔ ∃ f, f ∈ fns_of (sequence_ D) ∧ is_pop f = true.
Proof. unfold has_pop. by rewrite Exists_exists. Qed.

Lemma has_pop_suffix (D D' : Deferred) :
  sequence_ D' `suffix_of` sequence_ D → has_pop D' → has_pop D.
Proof.
  rewrite !has_pop_iff. intros Hsuf (f & Hf & Hp). exists f. split; [|done].
  by eapply fns_of_suffix.
Qed.

Lemma evolves_refl (D : Deferred) : evolves D D.
Proof. repeat split; try done. intros _. by right. Qed.

Lemma evolves_has_pop (D D' : Deferred) : evolves D D' → has_pop D' → has_pop D.
Proof. intros (_ & Hsuf & _) Hp. by eapply has_pop_suffix. Qed.

Lemma evolves_trans (D1 D2 D3 : Deferred) :
  evolves D1 D2 → evolves D2 D3 → evolves D1 D3.
Proof.
  intros (Hc & Hsuf & Hh & Hr) (Hc' & Hsuf' & Hh' & Hr').
  split; [congruence|]. split; [by etrans|]. split.
  - intros Hp. destruct (Hh Hp) as (Hs1 & Hf1 & Hb1).
    assert (has_pop D2) as Hp2 by (unfold has_pop in *; by rewrite Hs1).
    destruct (Hh' Hp2) as (Hs2 & Hf2 & Hb2). repeat split; congruence.
  - intros H3. destruct (Hr' H3) as [?|[Hr3 Hb3]]; [by left|].
    rewrite Hr3 in H3. destruct (Hr H3) as [?|[Hr2 Hb2]].
    + left. congruence.
    + right. split; congruence.
Qed.

Lemma evolves_scope (D D' : Deferred) :
  evolves D D' → scope_script D' = scope_script D.
Proof. unfold scope_script. by intros (-> & _). Qed.

Lemma quiet_refl (s : State) : quiet s s.
Proof.
  split; try done. intros d D Hd. exists D. split; [done|apply evolves_refl].
Qed.

Lemma quiet_trans (s1 s2 s3 : State) : quiet s1 s2 → quiet s2 s3 → quiet s1 s3.
Proof.
  intros H12 H23. split.
  - by rewrite (quiet_queue _ _ H23), (quiet_queue _ _ H12).
  - by rewrite (quiet_length _ _ H23), (quiet_length _ _ H12).
  - intros d D Hd.
    destruct (quiet_deferreds _ _ H12 d D Hd) as (D2 & Hd2 & He12).
    destruct (quiet_deferreds _ _ H23 d D2 Hd2) as (D3 & Hd3 & He23).
    exists D3. split; [done|]. by eapply evolves_trans.
  - intros sc h Hh. by apply (quiet_handlers _ _ H12), (quiet_handlers _ _ H23).
  - intros k sc d uri Hk. by apply (quiet_timers _ _ H12), (quiet_timers _ _ H23).
  - by rewrite (quiet_scripts _ _ H23), (quiet_scripts _ _ H12).
  - etrans; [apply (quiet_trace _ _ H12)|apply (quiet_trace _ _ H23)].
Qed.

Lemma quiet_preorder : PreOrder quiet.
Proof. split; [intros s; apply quiet_refl|intros s1 s2 s3; apply quiet_trans]. Qed.
#[local] Existing Instance quiet_preorder.

(** What is there after a quiet change was there before. *)
Lemma quiet_back (s s' : State) (d : nat) (D' : Deferred) :
  quiet s s' → deferreds s' !! d = Some D' →
  ∃ D, deferreds s !! d = Some D ∧ evolves D D'.
Proof.
  intros Hq Hd'.
  assert (d < length (deferreds s)) as Hlt.
  { rewrite <- (quiet_length _ _ Hq). by eapply lookup_lt_Some. }
  destruct (lookup_lt_is_Some_2 _ _ Hlt) as [D HD].
  destruct (quiet_deferreds _ _ Hq d D HD) as (D2 & Hd2 & He).
  exists D. split; [done|]. congruence.
Qed.

Lemma Inv_quiet (s s' : State) : Inv s → quiet s s' → Inv s'.
Proof.
  intros HI Hq. split.
  - intros d D' Hd' Hp.
    destruct (quiet_back _ _ _ _ Hq Hd') as (D & Hd & He).
    pose proof (evolves_has_pop _ _ He Hp) as Hp0.
    destruct He as (_ & _ & Hh & _). destruct (Hh Hp0) as (-> & -> & ->).
    by eapply holder_shape.
  - intros d1 d2 D1' D2' H1 H2 Hp1 Hp2.
    destruct (quiet_back _ _ _ _ Hq H1) as (D1 & Hd1 & He1).
    destruct (quiet_back _ _ _ _ Hq H2) as (D2 & Hd2 & He2).
    eapply (holder_unique s HI d1 d2 D1 D2); eauto using evolves_has_pop.
  - intros d D' Hd' Hp. rewrite (quiet_queue _ _ Hq).
    destruct (quiet_back _ _ _ _ Hq Hd') as (D & Hd & He).
    eapply holder_queue; eauto using evolves_has_pop.
  - intros d D' f p Hd' Hf Ht.
    destruct (quiet_back _ _ _ _ Hq Hd') as (D & Hd & He).
    assert (f ∈ fns_of (sequence_ D)) as Hf0.
    { destruct He as (_ & Hsuf & _). by eapply fns_of_suffix. }
    destruct (target_quiet s HI d D f p Hd Hf0 Ht) as (Dp & Hp & Hnop).
    destruct (quiet_deferreds _ _ Hq p Dp Hp) as (Dp' & Hp' & Hep).
    exists Dp'. split; [done|]. intros Hpop. apply Hnop.
    by eapply evolves_has_pop.
  - intros d D' Hd' Hres.
    destruct (quiet_back _ _ _ _ Hq Hd') as (D & Hd & (_ & _ & _ & Hr)).
    destruct (Hr Hres) as [?|[Hr0 Hb0]]; [done|].
    rewrite Hb0. eapply result_blocked; [done..|]. by rewrite <- Hr0.
  - intros sc h Hh.
    destruct (handler_scope s HI sc h (quiet_handlers _ _ Hq sc h Hh))
      as (D & Hd & Hs).
    destruct (quiet_deferreds _ _ Hq _ D Hd) as (D' & Hd' & He).
    exists D'. split; [done|]. by rewrite (evolves_scope _ _ He).
  - intros k sc d uri Hk.
    destruct (timer_scope s HI k sc d uri (quiet_timers _ _ Hq k sc d uri Hk))
      as (D & Hd & Hs).
    destruct (quiet_deferreds _ _ Hq _ D Hd) as (D' & Hd' & He).
    exists D'. split; [done|]. by rewrite (evolves_scope _ _ He).
Qed.


(** *** Quiet changes *)

Lemma quiet_modify (d : nat) (F : Deferred → Deferred) (s : State) :
  (∀ D, deferreds s !! d = Some D → evolves D (F D)) → quiet s (modify d F s).
Proof.
  intros HF. split; try done.
  - cbn. apply length_alter.
  - intros d' D Hd'. cbn. destruct (decide (d = d')) as [->|Hne].
    + exists (F D). rewrite list_lookup_alter_eq, Hd'. split; [done|]. by apply HF.
    + exists D. rewrite list_lookup_alter_ne by done. split; [done|apply evolves_refl].
Qed.

(** A change of the flags and the result of a Deferred that holds no
    turn. *)
Lemma evolves_flags (D D' : Deferred) :
  ¬ has_pop D → sequence_ D' `suffix_of` sequence_ D →
  defaultScope_ D' = defaultScope_ D →
  (is_VDeferred (result_ D') = true → blocked_ D' = true) → evolves D D'.
Proof. intros Hno Hsuf Hc Hr. repeat split; try done. intros H. left. by apply Hr. Qed.

Lemma quiet_page (s s' : State) :
  scriptsToLoad_ s' = scriptsToLoad_ s → deferreds s' = deferreds s →
  (∀ sc h, scripts s' !! sc ≫= handlers = Some h →
           scripts s !! sc ≫= handlers = Some h) →
  (∀ k sc d uri, timers s' !! k = Some (Some (timeoutTask sc d uri)) →
                 timers s !! k = Some (Some (timeoutTask sc d uri))) →
  length (scripts s') = length (scripts s) →
  trace s `prefix_of` trace s' → quiet s s'.
Proof.
  intros Hq Hd Hh Ht Hl Htr. split; try done.
  - by rewrite Hd.
  - intros d D HD. exists D. rewrite Hd. split; [done|apply evolves_refl].
Qed.

Lemma quiet_emit (e : Trace) (s : State) : quiet s (emit e s).
Proof. apply quiet_page; try done. by apply prefix_app_r. Qed.

Lemma quiet_emits (tr : list Trace) (s : State) : quiet s (emits tr s).
Proof. apply quiet_page; try done. by apply prefix_app_r. Qed.

Lemma lookup_insert_timer (l : list (option TimerTask)) (t k : nat)
    (task : TimerTask) :
  <[t := None]> l !! k = Some (Some task) → l !! k = Some (Some task).
Proof.
  destruct (decide (t = k)) as [->|Hne].
  - intros H. assert (k < length l) as Hlt.
    { rewrite <- (length_insert l k None). by eapply lookup_lt_Some. }
    rewrite list_lookup_insert_eq in H by done. done.
  - by rewrite list_lookup_insert_ne.
Qed.

Lemma quiet_clearTimeout (t : nat) (s : State) : quiet s (clearTimeout t s).
Proof.
  apply quiet_page; try done. intros k sc d uri. apply lookup_insert_timer.
Qed.

Lemma lookup_handlers_cleared (l : list Script) (n sc : nat) (h : Handlers) :
  alter (with_handlers None) n l !! sc ≫= handlers = Some h →
  l !! sc ≫= handlers = Some h.
Proof.
  destruct (decide (n = sc)) as [->|Hne].
  - rewrite list_lookup_alter_eq. by destruct (l !! sc).
  - by rewrite list_lookup_alter_ne.
Qed.

Lemma quiet_cleanup_ (scriptNode : nat) (removeScriptNode : bool)
    (opt_timeout : option nat) (s : State) :
  quiet s (cleanup_ scriptNode removeScriptNode opt_timeout s).
Proof.
  unfold cleanup_. apply quiet_page.
  - by destruct removeScriptNode, opt_timeout.
  - by destruct removeScriptNode, opt_timeout.
  - intros sc h. destruct removeScriptNode, opt_timeout; cbn;
      apply lookup_handlers_cleared.
  - intros k sc d uri.
    destruct removeScriptNode, opt_timeout; cbn; intros H;
      try (apply lookup_app_Some in H as [H|[_ H]];
           [|by destruct (k - _) as [|[|?]]]);
      try done; by eapply lookup_insert_timer.
  - destruct removeScriptNode, opt_timeout; cbn; apply length_alter.
  - by destruct removeScriptNode, opt_timeout.
Qed.

Lemma quiet_delete_verifyObj (name : string) (s : State) :
  quiet s (delete_verifyObj name s).
Proof. unfold delete_verifyObj. destruct (verifyObjs s); apply quiet_page; done. Qed.


(** *** Firing a Deferred that holds no turn of the drain *)

Lemma no_pop_at_quiet (d : nat) (s s' : State) :
  quiet s s' → no_pop_at d s → no_pop_at d s'.
Proof.
  intros Hq Hno D' Hd' Hp.
  destruct (quiet_back _ _ _ _ Hq Hd') as (D & Hd & He).
  apply (Hno D Hd). by eapply evolves_has_pop.
Qed.

Section Quiet.
Variable fire : nat → State → option State.
Hypothesis fire_is_quiet : fire_quiet fire.

Lemma quiet_settle (p : nat) (G : Deferred → Deferred) (v : value)
    (s s' : State) :
  Inv s → no_pop_at p s → is_VDeferred v = false →
  (∀ D, sequence_ (G D) = sequence_ D ∧ defaultScope_ (G D) = defaultScope_ D
        ∧ result_ (G D) = v) →
  fire p (modify p G s) = Some s' → quiet s s'.
Proof.
  intros HI Hno Hv HG Hfire.
  assert (quiet s (modify p G s)) as Hq.
  { apply quiet_modify. intros D HD. destruct (HG D) as (Hs & Hc & Hr).
    apply evolves_flags; [by apply Hno|by rewrite Hs|done|].
    rewrite Hr, Hv. done. }
  etrans; [exact Hq|]. eapply fire_is_quiet; [by eapply Inv_quiet| |..|exact Hfire].
  - by eapply no_pop_at_quiet.
  - unfold current_result. rewrite lookup_modify.
    destruct (deferreds s !! p) as [D|]; [|done]. cbn.
    destruct (HG D) as (_ & _ & ->). done.
Qed.

Lemma quiet_callback (p : nat) (v : value) (s s' : State) (c : completion) :
  Inv s → no_pop_at p s → is_VDeferred v = false →
  callback fire p v s = Some (s', c) → quiet s s' ∧ mild c.
Proof.
  intros HI Hno Hv. unfold callback, updateResult_.
  destruct (hasFired p s).
  - intros [= <- <-]. split; [apply quiet_refl|right; by eexists].
  - destruct (fire p _) as [s1|] eqn:Hfire; [|done]. intros [= <- <-].
    split; [|by left].
    eapply (quiet_settle p _ v); [done|done|done| |exact Hfire]. by intros D.
Qed.

Lemma quiet_errback (p : nat) (v : value) (s s' : State) (c : completion) :
  Inv s → no_pop_at p s → is_VDeferred v = false →
  errback fire p v s = Some (s', c) → quiet s s' ∧ mild c.
Proof.
  intros HI Hno Hv. unfold errback, updateResult_.
  destruct (hasFired p s).
  - intros [= <- <-]. split; [apply quiet_refl|right; by eexists].
  - destruct (fire p _) as [s1|] eqn:Hfire; [|done]. intros [= <- <-].
    split; [|by left].
    eapply (quiet_settle p _ v); [done|done|done| |exact Hfire]. by intros D.
Qed.

Lemma quiet_invoke (f : fn) (asError : bool) (res : value) (s s' : State)
    (c : completion) :
  Inv s → is_pop f = false →
  (∀ p, target f = Some p → no_pop_at p s) →
  is_VDeferred res = false →
  invoke fire f asError res s = Some (s', c) → quiet s s' ∧ mild c.
Proof.
  intros HI Hpop Htarget Hres.
  destruct f as [o|p b|p name uri|p name|tag]; cbn [invoke]; [done| | | |].
  - unfold do_continue_, updateResult_. rewrite modify_modify.
    destruct (fire p _) as [s1|] eqn:Hfire; [|done]. intros [= <- <-].
    split; [|by left].
    eapply (quiet_settle p _ res); [done|by apply Htarget|done| |exact Hfire].
    by intros D.
  - unfold do_verifyCallback.
    destruct (lookup_verifyObj name s) as [v|].
    + destruct (callback fire p (VData v) s) as [[s1 c1]|] eqn:Hcb; [|done].
      destruct (quiet_callback p (VData v) s s1 c1 HI (Htarget p eq_refl)
                  eq_refl Hcb) as [Hq Hc].
      cbn. destruct c1 as [r|ex]; intros [= <- <-].
      * split; [|by left]. etrans; [exact Hq|apply quiet_delete_verifyObj].
      * split; [done|]. destruct Hc as [?|[x ?]]; [done|]. right. by exists x.
    + match goal with |- context [errback fire p ?e s] => set (err := e) end.
      destruct (errback fire p err s) as [[s1 c1]|] eqn:Hcb; [|done].
      destruct (quiet_errback p err s s1 c1 HI (Htarget p eq_refl) eq_refl Hcb)
        as [Hq Hc].
      cbn. destruct c1 as [r|ex]; intros [= <- <-].
      * split; [done|by left].
      * split; [done|]. destruct Hc as [?|[x ?]]; [done|]. right. by exists x.
  - unfold do_verifyErrback.
    set (s0 := match lookup_verifyObj name s with
               | Some _ => delete_verifyObj name s
               | None => s
               end).
    assert (quiet s s0) as Hq0.
    { unfold s0. destruct (lookup_verifyObj name s);
        [apply quiet_delete_verifyObj|apply quiet_refl]. }
    destruct (errback fire p res s0) as [[s1 c1]|] eqn:Hcb; [|done].
    destruct (quiet_errback _ _ _ _ _ (Inv_quiet _ _ HI Hq0)
                (no_pop_at_quiet _ _ _ Hq0 (Htarget p eq_refl)) Hres Hcb)
      as [Hq Hc].
    cbn. destruct c1 as [r|ex]; intros [= <- <-].
    + split; [by etrans|by left].
    + split; [by etrans|]. destruct Hc as [?|[x ?]]; [done|]. right. by exists x.
  - intros [= <- <-]. split; [apply quiet_emit|by left].
Qed.

End Quiet.


Lemma with_result_same (D : Deferred) : with_result_ (result_ D) D = D.
Proof. by destruct D. Qed.

Lemma quiet_fire_loop (fuel : nat) :
  ∀ (d : nat) (res : value) (s s' : State),
    Inv s → no_pop_at d s → is_VDeferred res = false →
    fire_loop fuel d res false s = Some s' → quiet s s'.
Proof.
  induction fuel as [|fuel IH]; intros d res s s' HI Hno Hres; [done|].
  assert (fire_quiet (fire_ fuel)) as Hfire.
  { intros d0 s0 s0' HI0 Hno0 Hres0 H0. by eapply IH. }
  rewrite fire_loop_S. unfold fire_body.
  destruct (deferreds s !! d) as [D|] eqn:Hd; [|by intros [= <-]].
  assert (¬ has_pop D) as HnoD by (by apply Hno).
  assert (∀ D', sequence_ D' `suffix_of` sequence_ D →
                defaultScope_ D' = defaultScope_ D →
                result_ D' = result_ D → blocked_ D' = blocked_ D →
                evolves D D') as Hev.
  { intros D' Hs Hc Hr Hb. apply evolves_flags; try done.
    rewrite Hr, Hb. by eapply result_blocked. }
  assert (quiet s (modify d (with_result_ res) s)) as Hexit.
  { apply quiet_modify. intros D0 HD0. rewrite Hd in HD0. injection HD0 as <-.
    apply evolves_flags; try done. cbn. by rewrite Hres. }
  destruct (sequence_ D) as [|[cb eb] rest] eqn:Hseq.
  { unfold STRICT_ERRORS. cbn. by intros [= <-]. }
  destruct (blocked_ D) eqn:Hbl.
  { unfold STRICT_ERRORS. cbn. by intros [= <-]. }
  set (s1 := modify d (with_sequence_ rest) s).
  assert (quiet s s1) as Hq1.
  { apply quiet_modify. intros D0 HD0. rewrite Hd in HD0. injection HD0 as <-.
    apply Hev; try done. cbn. by apply suffix_cons_r. }
  pose proof (Inv_quiet _ _ HI Hq1) as HI1.
  pose proof (no_pop_at_quiet _ _ _ Hq1 Hno) as Hno1.
  cbn [fst snd].
  destruct (if hadError_ D then eb else cb) as [f|] eqn:Hf.
  2:{ intros Hloop. etrans; [exact Hq1|]. by eapply IH. }
  assert (f ∈ fns_of (sequence_ D)) as Hfin.
  { rewrite Hseq. apply elem_of_fns_of. exists (cb, eb). split; [by left|].
    cbn. destruct (hadError_ D); [by right|by left]. }
  assert (is_pop f = false) as Hfpop.
  { destruct (is_pop f) eqn:Hp; [|done]. destruct HnoD.
    apply has_pop_iff. by exists f. }
  assert (∀ p, target f = Some p → no_pop_at p s1) as Hftarget.
  { intros p Hp. apply (no_pop_at_quiet p s s1 Hq1).
    destruct (target_quiet s HI d D f p Hd Hfin Hp) as (Dp & HDp & Hnp).
    intros D0 HD0. congruence. }
  destruct (invoke (fire_ fuel) f (hadError_ D) res s1) as [[s2 c]|] eqn:Hinv;
    [|done].
  destruct (quiet_invoke _ Hfire _ _ _ _ _ _ HI1 Hfpop Hftarget Hres Hinv)
    as [Hq2 Hc].
  pose proof (Inv_quiet _ _ HI1 Hq2) as HI2.
  pose proof (no_pop_at_quiet _ _ _ Hq2 Hno1) as Hno2.
  destruct Hc as [->|[x ->]].
  - rewrite bool_decide_eq_true_2 by done. rewrite Hres.
    intros Hloop. etrans; [exact Hq1|]. etrans; [exact Hq2|]. by eapply IH.
  - intros Hloop. etrans; [exact Hq1|]. etrans; [exact Hq2|].
    assert (quiet s2 (modify d (with_hadError_ true) s2)) as Hq3.
    { apply quiet_modify. intros D2 HD2.
      apply evolves_flags; [by apply Hno2|done|done|].
      cbn. by eapply result_blocked. }
    etrans; [exact Hq3|]. eapply IH; [| | |exact Hloop]; [|
      by eapply no_pop_at_quiet|done].
    by eapply Inv_quiet.
Qed.

(** [fire_] on a Deferred that holds no turn of the drain is quiet. *)
Lemma quiet_fire_ (fuel d : nat) (s s' : State) :
  Inv s → no_pop_at d s → fire_ fuel d s = Some s' → quiet s s'.
Proof.
  intros HI Hno. unfold fire_.
  destruct (is_VDeferred (current_result d s)) eqn:Hres;
    [|by apply quiet_fire_loop].
  unfold current_result in *.
  destruct (deferreds s !! d) as [D|] eqn:Hd; [|done].
  pose proof (result_blocked s HI d D Hd Hres) as Hbl.
  destruct fuel as [|fuel]; [done|].
  rewrite fire_loop_S. unfold fire_body. rewrite Hd, Hbl.
  assert (modify d (with_result_ (result_ D)) s = s) as ->.
  { destruct s. unfold modify, set_deferreds. cbn in *. f_equal.
    apply list_eq. intros i. destruct (decide (d = i)) as [->|Hne].
    - rewrite list_lookup_alter_eq, Hd. cbn. by rewrite with_result_same.
    - by rewrite list_lookup_alter_ne. }
  unfold STRICT_ERRORS. cbn.
  destruct (sequence_ D); by intros [= <-].
Qed.


(** *** New Deferreds and new entries *)

Lemma has_pop_nil (D : Deferred) : sequence_ D = [] → ¬ has_pop D.
Proof. unfold has_pop. intros -> H. cbn in H. by apply Exists_nil in H. Qed.

Lemma Inv_extends (s s' : State) (Dn : Deferred) :
  Inv s → extends s s' Dn → Inv s'.
Proof.
  intros HI He.
  assert (∀ d D, deferreds s' !! d = Some D → has_pop D →
                 deferreds s !! d = Some D) as Hold.
  { intros d D Hd Hp. rewrite (ext_deferreds _ _ _ He) in Hd.
    apply lookup_snoc_Some in Hd as [[_ Hd]|[_ <-]]; [done|].
    by destruct (has_pop_nil _ (ext_sequence _ _ _ He) Hp). }
  assert (∀ d D, deferreds s !! d = Some D → deferreds s' !! d = Some D) as Hnew.
  { intros d D Hd. rewrite (ext_deferreds _ _ _ He). by apply lookup_app_l_Some. }
  split.
  - intros d D Hd Hp. eapply holder_shape; eauto.
  - intros d1 d2 D1 D2 H1 H2 Hp1 Hp2. eapply (holder_unique s HI); eauto.
  - intros d D Hd Hp. rewrite (ext_queue _ _ _ He). eapply holder_queue; eauto.
  - intros d D f p Hd Hf Ht. rewrite (ext_deferreds _ _ _ He) in Hd.
    apply lookup_snoc_Some in Hd as [[_ Hd]|[_ <-]].
    + destruct (target_quiet s HI d D f p Hd Hf Ht) as (Dp & Hp & Hnp).
      exists Dp. split; [by apply Hnew|done].
    + rewrite (ext_sequence _ _ _ He) in Hf. cbn in Hf. by apply elem_of_nil in Hf.
  - intros d D Hd Hr. rewrite (ext_deferreds _ _ _ He) in Hd.
    apply lookup_snoc_Some in Hd as [[_ Hd]|[_ <-]].
    + by eapply result_blocked.
    + by rewrite (ext_result _ _ _ He) in Hr.
  - intros sc h Hh. destruct (ext_handlers _ _ _ He sc h Hh) as [Hh0|[Hd Hs]].
    + destruct (handler_scope s HI sc h Hh0) as (D & Hd & Hs).
      exists D. split; [by apply Hnew|done].
    + exists Dn. split; [|done]. rewrite Hd, (ext_deferreds _ _ _ He).
      by rewrite lookup_app_r, Nat.sub_diag.
  - intros k sc d uri Hk.
    destruct (ext_timers _ _ _ He k sc d uri Hk) as [Hk0|[Hd Hs]].
    + destruct (timer_scope s HI k sc d uri Hk0) as (D & Hd & Hs).
      exists D. split; [by apply Hnew|done].
    + exists Dn. split; [|done]. rewrite Hd, (ext_deferreds _ _ _ He).
      by rewrite lookup_app_r, Nat.sub_diag.
Qed.

Lemma extends_alloc (opt_defaultScope : option Request) (s : State) :
  extends s (alloc_Deferred opt_defaultScope s).2 (new_Deferred opt_defaultScope).
Proof. split; try done; intros; by left. Qed.


Lemma safeLoad_loads (uri : string) (opt_options : option Options) (s : State) :
  (safeLoad uri opt_options s).1 = length (deferreds s)
  ∧ ∃ Dn, loads uri s (safeLoad uri opt_options s).2 Dn.
Proof.
  unfold safeLoad, alloc_Deferred, setTimeout, modify, modify_script,
    set_deferreds, set_scripts, set_timers, emit.
  destruct (0 <? default DEFAULT_TIMEOUT (opt_options ≫= timeout))%Z;
    cbn; rewrite ?alter_fresh; (split; [done|]); eexists;
    (split; [split|..]); cbn; try done.
  - intros sc h Hh.
    destruct ((scripts s ++ _) !! sc) as [N|] eqn:HN; [|done].
    apply lookup_snoc_Some in HN as [[_ HN]|[-> <-]].
    + left. by rewrite HN.
    + right. cbn in Hh. by injection Hh as <-.
  - intros k sc d uri' Hk.
    apply lookup_snoc_Some in Hk as [[_ Hk]|[_ Hk]]; [by left|].
    right. by injection Hk as <- <- <-.
  - intros sc h Hh.
    destruct ((scripts s ++ _) !! sc) as [N|] eqn:HN; [|done].
    apply lookup_snoc_Some in HN as [[_ HN]|[-> <-]].
    + left. by rewrite HN.
    + right. cbn in Hh. by injection Hh as <-.
  - intros k sc d uri' Hk. by left.
Qed.


Lemma Inv_set_queue (q : list string) (s : State) :
  Inv s → q ≠ [] ∨ no_holders s → Inv (set_scriptsToLoad_ q s).
Proof.
  intros HI Hq. split; try apply HI.
  intros d D Hd Hp. destruct Hq as [Hq|Hno]; [done|].
  by destruct (Hno d D Hd).
Qed.

Lemma has_pop_push (D : Deferred) (cb eb : option fn) :
  (∀ f, cb = Some f ∨ eb = Some f → is_pop f = false) →
  has_pop (with_sequence_ (sequence_ D ++ [(cb, eb)]) D) ↔ has_pop D.
Proof.
  intros Hentry. rewrite !has_pop_iff. cbn. rewrite fns_of_app.
  split.
  - intros (f & [Hf|Hf]%elem_of_app & Hp); [by exists f|].
    apply elem_of_fns_of in Hf as (entry & ->%list_elem_of_singleton & Hf).
    cbn in Hf. rewrite (Hentry f Hf) in Hp. done.
  - intros (f & Hf & Hp). exists f. split; [|done]. apply elem_of_app. by left.
Qed.

Lemma lookup_modify_Some (d d' : nat) (F : Deferred → Deferred) (s : State)
    (D' : Deferred) :
  deferreds (modify d F s) !! d' = Some D' →
  (d' = d ∧ ∃ D, deferreds s !! d = Some D ∧ D' = F D)
  ∨ (d' ≠ d ∧ deferreds s !! d' = Some D').
Proof.
  cbn. destruct (decide (d = d')) as [->|Hne].
  - rewrite list_lookup_alter_eq. destruct (deferreds s !! d') as [D|]; [|done].
    intros [= <-]. left. split; [done|]. by exists D.
  - rewrite list_lookup_alter_ne by done. right. by split.
Qed.

Lemma lookup_modify_is_Some (d p : nat) (F : Deferred → Deferred) (s : State)
    (Dp : Deferred) :
  deferreds s !! p = Some Dp →
  ∃ Dp', deferreds (modify d F s) !! p = Some Dp'
         ∧ (Dp' = Dp ∨ (p = d ∧ Dp' = F Dp)).
Proof.
  intros Hp. cbn. destruct (decide (d = p)) as [->|Hne].
  - rewrite list_lookup_alter_eq, Hp. eexists. split; [done|]. by right.
  - rewrite list_lookup_alter_ne by done. exists Dp. split; [done|]. by left.
Qed.

(** A callback that takes no turn of the drain, hung on a Deferred. *)
Lemma Inv_push (d : nat) (cb eb : option fn) (s : State) :
  Inv s →
  (∀ f, cb = Some f ∨ eb = Some f →
        is_pop f = false
        ∧ ∀ p, target f = Some p →
               ∃ Dp, deferreds s !! p = Some Dp ∧ ¬ has_pop Dp) →
  Inv (modify d (λ D, with_sequence_ (sequence_ D ++ [(cb, eb)]) D) s).
Proof.
  intros HI Hentry.
  set (F := λ D, with_sequence_ (sequence_ D ++ [(cb, eb)]) D).
  assert (∀ D, has_pop (F D) ↔ has_pop D) as HpF.
  { intros D. apply has_pop_push. intros f Hf. by apply Hentry. }
  assert (∀ d' D', deferreds (modify d F s) !! d' = Some D' →
            ∃ D, deferreds s !! d' = Some D ∧ (D' = D ∨ D' = F D)) as Hback.
  { intros d' D' [[-> (D & ? & ->)]|[_ ?]]%lookup_modify_Some; eauto. }
  assert (∀ D D', D' = D ∨ D' = F D → (has_pop D' ↔ has_pop D)) as Hpop.
  { intros D D' [->| ->]; [done|apply HpF]. }
  assert (∀ p Dp, deferreds s !! p = Some Dp → ¬ has_pop Dp →
            ∃ Dp', deferreds (modify d F s) !! p = Some Dp' ∧ ¬ has_pop Dp')
    as Htarget.
  { intros p Dp Hp Hnp.
    destruct (lookup_modify_is_Some d p F s Dp Hp) as (Dp' & Hp' & [->|[_ ->]]);
      eexists; (split; [exact Hp'|]); [done|by rewrite HpF]. }
  split.
  - intros d' D' Hd' Hp. destruct (Hback d' D' Hd') as (D & Hd & HD).
    apply (Hpop D D' HD) in Hp.
    destruct (holder_shape s HI d' D Hd Hp) as (Hf & Hb & o & rest & Hseq & Hrest).
    destruct HD as [->| ->]; [by eauto 10|]. cbn. split; [done|]. split; [done|].
    exists o, (rest ++ [(cb, eb)]). rewrite Hseq. split; [done|].
    rewrite fns_of_app. apply Forall_app. split; [done|].
    apply Forall_forall. intros f Hf'.
    apply elem_of_fns_of in Hf' as (entry & ->%list_elem_of_singleton & Hf').
    by apply Hentry.
  - intros d1 d2 D1' D2' H1 H2 Hp1 Hp2.
    destruct (Hback d1 D1' H1) as (D1 & Hd1 & HD1).
    destruct (Hback d2 D2' H2) as (D2 & Hd2 & HD2).
    apply (Hpop D1 D1' HD1) in Hp1. apply (Hpop D2 D2' HD2) in Hp2.
    by eapply (holder_unique s HI d1 d2).
  - intros d' D' Hd' Hp. destruct (Hback d' D' Hd') as (D & Hd & HD).
    apply (Hpop D D' HD) in Hp. by eapply (holder_queue s HI).
  - intros d' D' f p Hd' Hf Ht. destruct (Hback d' D' Hd') as (D & Hd & HD).
    assert (f ∈ fns_of (sequence_ D) ∨ (cb = Some f ∨ eb = Some f)) as [Hf0|Hf0].
    { destruct HD as [->| ->]; [by left|]. cbn in Hf. rewrite fns_of_app in Hf.
      apply elem_of_app in Hf as [Hf|Hf]; [by left|]. right.
      by apply elem_of_fns_of in Hf as (entry & ->%list_elem_of_singleton & Hf). }
    + destruct (target_quiet s HI d' D f p Hd Hf0 Ht) as (Dp & Hp & Hnp). eauto.
    + destruct (Hentry f Hf0) as [_ Hp]. destruct (Hp p Ht) as (Dp & HDp & Hnp).
      eauto.
  - intros d' D' Hd' Hr. destruct (Hback d' D' Hd') as (D & Hd & [->| ->]);
      [|subst F; cbn in Hr |- *]; by eapply (result_blocked s HI).
  - intros sc h Hh. destruct (handler_scope s HI sc h Hh) as (D & Hd & Hs).
    destruct (lookup_modify_is_Some d _ F s D Hd) as (D' & Hd' & [->|[_ ->]]);
      eexists; (split; [exact Hd'|done]).
  - intros k sc d0 uri Hk. destruct (timer_scope s HI k sc d0 uri Hk) as (D & Hd & Hs).
    destruct (lookup_modify_is_Some d _ F s D Hd) as (D' & Hd' & [->|[_ ->]]);
      eexists; (split; [exact Hd'|done]).
Qed.


Lemma has_pop_entry (D : Deferred) (o : option Options)
    (rest : list (option fn * option fn)) :
  sequence_ D = pop_entry o :: rest → has_pop D.
Proof.
  intros Hseq. apply has_pop_iff. exists (popAndLoadNextScript o).
  split; [|done]. rewrite Hseq. apply elem_of_fns_of.
  exists (pop_entry o). split; [by left|by left].
Qed.

(** The next turn of the drain, hung on a new Deferred while no Deferred
    holds a turn. *)
Lemma Inv_push_pop (d : nat) (o : option Options) (D : Deferred) (s : State) :
  Inv s → no_holders s →
  deferreds s !! d = Some D → sequence_ D = [] →
  fired_ D = false → blocked_ D = false →
  scriptsToLoad_ s ≠ [] →
  (∀ d' D' f, deferreds s !! d' = Some D' → f ∈ fns_of (sequence_ D') →
              target f ≠ Some d) →
  Inv (modify d (λ D, with_sequence_ (sequence_ D ++ [pop_entry o]) D) s).
Proof.
  intros HI Hnone Hd Hseq Hf Hb Hq Hnt.
  set (F := λ D, with_sequence_ (sequence_ D ++ [pop_entry o]) D).
  assert (∀ d' D', deferreds (modify d F s) !! d' = Some D' → has_pop D' →
                   d' = d ∧ D' = F D) as Hholder.
  { intros d' D' [[-> (D0 & HD0 & ->)]|[_ Hd']]%lookup_modify_Some Hp.
    - split; [done|]. congruence.
    - by destruct (Hnone d' D' Hd'). }
  split.
  - intros d' D' Hd' Hp. destruct (Hholder d' D' Hd' Hp) as [-> ->].
    cbn. rewrite Hseq. split; [done|]. split; [done|].
    exists o, []. split; [done|]. cbn. apply Forall_nil_2.
  - intros d1 d2 D1 D2 H1 H2 Hp1 Hp2.
    destruct (Hholder d1 D1 H1 Hp1) as [-> _].
    by destruct (Hholder d2 D2 H2 Hp2) as [-> _].
  - done.
  - intros d' D' f p Hd' Hfin Ht.
    assert (∃ D0, deferreds s !! d' = Some D0 ∧ f ∈ fns_of (sequence_ D0))
      as (D0 & HD0 & Hf0).
    { apply lookup_modify_Some in Hd' as [[-> (D0 & HD0 & ->)]|[_ Hd']].
      - rewrite Hd in HD0. injection HD0 as <-. cbn in Hfin.
        rewrite Hseq in Hfin. cbn in Hfin.
        repeat (apply elem_of_cons in Hfin as [->|Hfin]); try done.
        by apply elem_of_nil in Hfin.
      - by exists D'. }
    destruct (target_quiet s HI d' D0 f p HD0 Hf0 Ht) as (Dp & Hp & Hnp).
    assert (p ≠ d) as Hne.
    { intros Heq. subst p. exact (Hnt d' D0 f HD0 Hf0 Ht). }
    exists Dp. split; [|done]. by rewrite lookup_modify_ne.
  - intros d' D' [[-> (D0 & HD0 & ->)]|[_ Hd']]%lookup_modify_Some Hr;
      cbn in *; by eapply (result_blocked s HI).
  - intros sc h Hh. destruct (handler_scope s HI sc h Hh) as (D0 & HD0 & Hs).
    destruct (lookup_modify_is_Some d _ F s D0 HD0) as (D' & Hd' & [->|[_ ->]]);
      eexists; (split; [exact Hd'|done]).
  - intros k sc d0 uri Hk. destruct (timer_scope s HI k sc d0 uri Hk) as (D0 & HD0 & Hs).
    destruct (lookup_modify_is_Some d _ F s D0 HD0) as (D' & Hd' & [->|[_ ->]]);
      eexists; (split; [exact Hd'|done]).
Qed.

(** The Deferred that holds the turn of the drain fires and gives the
    turn up: no Deferred holds a turn then. *)
Lemma Inv_take_turn (t : nat) (D : Deferred) (G : Deferred → Deferred)
    (s : State) :
  Inv s → deferreds s !! t = Some D → has_pop D →
  sequence_ (G D) = tail (sequence_ D) →
  defaultScope_ (G D) = defaultScope_ D →
  is_VDeferred (result_ (G D)) = false →
  Inv (modify t G s) ∧ no_holders (modify t G s).
Proof.
  intros HI Ht Hp Hseq Hscope Hres.
  destruct (holder_shape s HI t D Ht Hp) as (Hf & Hb & o & rest & HDseq & Hrest).
  rewrite HDseq in Hseq. cbn in Hseq.
  assert (¬ has_pop (G D)) as HnoG.
  { intros (f & Hfin & Hpf)%has_pop_iff. rewrite Hseq in Hfin.
    rewrite Forall_forall in Hrest. by rewrite (Hrest f Hfin) in Hpf. }
  assert (no_holders (modify t G s)) as Hnone.
  { intros d' D' [[-> (D0 & HD0 & ->)]|[Hne Hd']]%lookup_modify_Some Hp'.
    - rewrite Ht in HD0. by injection HD0 as <-.
    - destruct Hne. by eapply (holder_unique s HI d' t). }
  split; [|done]. split.
  - intros d' D' Hd' Hp'. by destruct (Hnone d' D' Hd').
  - intros d1 d2 D1 D2 H1 _ Hp1. by destruct (Hnone d1 D1 H1).
  - intros d' D' Hd' Hp'. by destruct (Hnone d' D' Hd').
  - intros d' D' f p Hd' Hfin Htar.
    assert (∃ D0, deferreds s !! d' = Some D0 ∧ f ∈ fns_of (sequence_ D0))
      as (D0 & HD0 & Hf0).
    { apply lookup_modify_Some in Hd' as [[-> (D0 & HD0 & ->)]|[_ Hd']].
      - rewrite Ht in HD0. injection HD0 as <-. exists D. split; [done|].
        rewrite Hseq in Hfin. rewrite HDseq.
        eapply fns_of_suffix; [|exact Hfin]. by apply suffix_cons_r.
      - by exists D'. }
    destruct (target_quiet s HI d' D0 f p HD0 Hf0 Htar) as (Dp & HDp & Hnp).
    destruct (lookup_modify_is_Some t p G s Dp HDp) as (Dp' & Hp' & _).
    exists Dp'. split; [done|]. by apply (Hnone p).
  - intros d' D' [[-> (D0 & HD0 & ->)]|[_ Hd']]%lookup_modify_Some Hr.
    + rewrite Ht in HD0. injection HD0 as <-. by rewrite Hres in Hr.
    + by eapply (result_blocked s HI).
  - intros sc h Hh. destruct (handler_scope s HI sc h Hh) as (D0 & HD0 & Hs).
    destruct (lookup_modify_is_Some t _ G s D0 HD0) as (D' & Hd' & [->|[Heq ->]]);
      eexists; (split; [exact Hd'|]); [done|].
    rewrite Heq, Ht in HD0. injection HD0 as <-.
    unfold scope_script in *. by rewrite Hscope.
  - intros k sc d0 uri Hk. destruct (timer_scope s HI k sc d0 uri Hk) as (D0 & HD0 & Hs).
    destruct (lookup_modify_is_Some t _ G s D0 HD0) as (D' & Hd' & [->|[Heq ->]]);
      eexists; (split; [exact Hd'|]); [done|].
    rewrite Heq, Ht in HD0. injection HD0 as <-.
    unfold scope_script in *. by rewrite Hscope.
Qed.


(** *** A turn of the drain *)

Lemma holders_scope_quiet (s s' : State) (sc : nat) :
  quiet s s' → holders_scope s sc → holders_scope s' sc.
Proof.
  intros Hq Hs d D' Hd' Hp.
  destruct (quiet_back _ _ _ _ Hq Hd') as (D & Hd & He).
  rewrite (evolves_scope _ _ He). eapply Hs; [done|]. by eapply evolves_has_pop.
Qed.

Lemma no_holders_scope (s : State) (sc : nat) : no_holders s → holders_scope s sc.
Proof. intros Hno d D Hd Hp. by destruct (Hno d D Hd). Qed.

Lemma no_holders_extends (s s' : State) (Dn : Deferred) :
  extends s s' Dn → no_holders s → no_holders s'.
Proof.
  intros He Hno d D Hd Hp. rewrite (ext_deferreds _ _ _ He) in Hd.
  apply lookup_snoc_Some in Hd as [[_ Hd]|[_ <-]].
  - by apply (Hno d D).
  - by apply (has_pop_nil _ (ext_sequence _ _ _ He)).
Qed.

Lemma holders_stay_refl (s : State) : holders_stay s s.
Proof. intros d D Hd Hp. by exists D. Qed.

Lemma holders_stay_trans (s1 s2 s3 : State) :
  holders_stay s1 s2 → holders_stay s2 s3 → holders_stay s1 s3.
Proof.
  intros H12 H23 d D Hd Hp. destruct (H12 d D Hd Hp) as (D2 & Hd2 & Hp2).
  by apply (H23 d D2).
Qed.

Lemma holders_stay_quiet (s s' : State) : quiet s s' → holders_stay s s'.
Proof.
  intros Hq d D Hd Hp.
  destruct (quiet_deferreds _ _ Hq d D Hd) as (D' & Hd' & _ & _ & Hsame & _).
  exists D'. split; [done|]. destruct (Hsame Hp) as (Hseq & _).
  unfold has_pop. by rewrite Hseq.
Qed.

Lemma holders_stay_extends (s s' : State) (Dn : Deferred) :
  extends s s' Dn → holders_stay s s'.
Proof.
  intros He d D Hd Hp. exists D. split; [|done].
  rewrite (ext_deferreds _ _ _ He). by apply lookup_app_l_Some.
Qed.

Lemma has_pop_pushed (D : Deferred) (entry : option fn * option fn) :
  has_pop D → has_pop (with_sequence_ (sequence_ D ++ [entry]) D).
Proof.
  unfold has_pop, fns_of. cbn [sequence_ with_sequence_].
  rewrite bind_app, Exists_app. by left.
Qed.

Lemma holders_stay_push (d : nat) (cb eb : option fn) (s : State) :
  holders_stay s (modify d (λ D, with_sequence_ (sequence_ D ++ [(cb, eb)]) D) s).
Proof.
  intros d' D Hd Hp. destruct (decide (d = d')) as [->|Hne].
  - eexists. split; [by rewrite lookup_modify, Hd|]. by apply has_pop_pushed.
  - exists D. by rewrite lookup_modify_ne.
Qed.

(** [popAndLoadNextScript] while no Deferred holds a turn. *)
Lemma pop_effect (fire : nat → State → option State) (o : option Options)
    (s : State) :
  Inv s → no_holders s →
  ∃ s', do_popAndLoadNextScript fire o s = Some (s', length (deferreds s))
        ∧ Inv s'
        ∧ scriptsToLoad_ s' = tail (scriptsToLoad_ s)
        ∧ trace s' = trace s ++ [LoadStarted (length (scripts s)) (next_uri s)]
        ∧ holders_scope s' (length (scripts s))
        ∧ turn_given s s' (tail (scriptsToLoad_ s))
        ∧ length (deferreds s') = S (length (deferreds s))
        ∧ (∀ d D, deferreds s !! d = Some D → deferreds s' !! d = Some D)
        ∧ ∃ Dn, deferreds s' !! length (deferreds s) = Some Dn
                ∧ fired_ Dn = false
                ∧ Forall (λ f, target f = None) (fns_of (sequence_ Dn)).
Proof.
  intros HI Hnone. unfold do_popAndLoadNextScript.
  set (s1 := set_scriptsToLoad_ (tail (scriptsToLoad_ s)) s).
  assert (Inv s1) as HI1 by (apply Inv_set_queue; [done|by right]).
  destruct (safeLoad_loads (next_uri s) o s1) as [Hd (Dn & HL)].
  pose proof (safeLoad_eq (next_uri s) o s1) as Heq. cbv zeta in Heq.
  fold (next_uri s).
  destruct (safeLoad (next_uri s) o s1) as [d s2]. cbn [fst snd] in Hd, HL.
  assert (∃ h, scripts s2 !! length (scripts s) ≫= handlers = Some h
               ∧ h_deferred h = length (deferreds s)) as Hnew.
  { injection Heq as _ ->. cbn [scripts].
    change (scripts s1) with (scripts s). change (deferreds s1) with (deferreds s).
    rewrite lookup_app_r, Nat.sub_diag by done. by eexists. }
  assert (scriptsToLoad_ s2 = tail (scriptsToLoad_ s)) as Hqueue2
    by (injection Heq as _ ->; done).
  clear Heq.
  subst d. change (deferreds s1) with (deferreds s) in *.
  change (scripts s1) with (scripts s) in *.
  pose proof (loads_extends _ _ _ _ HL) as HE.
  pose proof (Inv_extends _ _ _ HI1 HE) as HI2.
  pose proof (no_holders_extends _ _ _ HE Hnone) as Hnone2.
  assert (deferreds s2 !! length (deferreds s) = Some Dn) as HDn.
  { rewrite (ext_deferreds _ _ _ HE).
    change (deferreds s1) with (deferreds s).
    by rewrite lookup_app_r, Nat.sub_diag. }
  assert (∀ d D, deferreds s !! d = Some D → deferreds s2 !! d = Some D) as Hold.
  { intros d D HD. rewrite (ext_deferreds _ _ _ HE). by apply lookup_app_l_Some. }
  assert (length (deferreds s2) = S (length (deferreds s))) as Hlen.
  { rewrite (ext_deferreds _ _ _ HE), length_app. cbn.
    change (deferreds s1) with (deferreds s). lia. }
  case_bool_decide as Hq.
  - unfold addBoth, addCallbacks.
    set (s3 := modify _ _ s2).
    assert (hasFired (length (deferreds s)) s3 = false) as ->.
    { unfold hasFired, s3. rewrite lookup_modify, HDn. cbn.
      apply (loads_fired _ _ _ _ HL). }
    cbn. exists s3. split; [done|].
    split; [|split; [|split; [|split; [|split; [|split; [|split]]]]]].
    + apply (Inv_push_pop _ o Dn); try done.
      * apply (ext_sequence _ _ _ HE).
      * apply (loads_fired _ _ _ _ HL).
      * apply (loads_blocked _ _ _ _ HL).
      * intros Hnil. by rewrite Hnil in Hq.
      * intros d' D' f Hd' Hf Ht.
        destruct (target_quiet s2 HI2 d' D' f _ Hd' Hf Ht) as (Dp & Hp & Hnp).
        rewrite HDn in Hp. injection Hp as <-.
        rewrite (ext_deferreds _ _ _ HE) in Hd'.
        apply lookup_snoc_Some in Hd' as [[_ Hd']|[_ <-]].
        -- destruct (target_quiet s1 HI1 d' D' f _ Hd' Hf Ht) as (Dp & Hp & _).
           apply lookup_lt_Some in Hp. change (deferreds s1) with (deferreds s) in Hp.
           lia.
        -- rewrite (ext_sequence _ _ _ HE) in Hf. by apply elem_of_nil in Hf.
    + exact (ext_queue _ _ _ HE).
    + exact (loads_trace _ _ _ _ HL).
    + intros d D [[-> (D0 & HD0 & ->)]|[_ Hd']]%lookup_modify_Some Hp.
      * rewrite HDn in HD0. injection HD0 as <-. apply (loads_scope _ _ _ _ HL).
      * by destruct (Hnone2 d D Hd').
    + split; [|exact Hnew]. intros _. eexists.
      split; [unfold s3; by rewrite lookup_modify, HDn|].
      unfold has_pop, fns_of. cbn [sequence_ with_sequence_].
      rewrite bind_app, Exists_app. right. cbn. by left.
    + unfold s3. cbn. by rewrite length_alter.
    + intros d D HD. unfold s3. rewrite lookup_modify_ne; [by apply Hold|].
      apply lookup_lt_Some in HD. lia.
    + eexists. split; [unfold s3; by rewrite lookup_modify, HDn|]. cbn.
      split; [apply (loads_fired _ _ _ _ HL)|].
      rewrite (ext_sequence _ _ _ HE). cbn. repeat constructor.
  - cbn. exists s2. split; [done|]. split; [done|].
    split; [exact (ext_queue _ _ _ HE)|]. split; [exact (loads_trace _ _ _ _ HL)|].
    split; [by apply no_holders_scope|].
    split.
    { split; [|exact Hnew]. intros Hrest. rewrite Hqueue2 in Hq.
      destruct (tail (scriptsToLoad_ s)); [done|]. cbn in Hq. lia. }
    split; [done|]. split; [done|].
    exists Dn. split; [done|]. split; [apply (loads_fired _ _ _ _ HL)|].
    rewrite (ext_sequence _ _ _ HE). apply Forall_nil_2.
Qed.


Lemma evolves_blocking (b : bool) (D : Deferred) : evolves D (with_blocking_ b D).
Proof. repeat split; try done. intros _. by right. Qed.

Lemma holders_scope_push (d : nat) (cb eb : option fn) (s : State) (sc : nat) :
  (∀ f, cb = Some f ∨ eb = Some f → is_pop f = false) →
  holders_scope s sc →
  holders_scope (modify d (λ D, with_sequence_ (sequence_ D ++ [(cb, eb)]) D) s) sc.
Proof.
  intros Hentry Hs d' D' [[-> (D0 & HD0 & ->)]|[_ Hd']]%lookup_modify_Some Hp.
  - apply has_pop_push in Hp; [|done]. by apply (Hs d D0).
  - by apply (Hs d' D').
Qed.

(** The Deferred that holds the turn of the drain fires: the next URI is
    taken off the queue and its load is started; nothing else happens. *)
Lemma take_turn (fuel t : nat) (D : Deferred) (v : value) (b : bool) (s : State) :
  Inv s → deferreds s !! t = Some D → has_pop D → is_VDeferred v = false →
  ∃ s',
    fire_ (S (S fuel)) t
      (modify t (λ D, with_hadError_ b (with_result_ v (with_fired_ true D))) s)
    = Some s'
    ∧ Inv s'
    ∧ scriptsToLoad_ s' = tail (scriptsToLoad_ s)
    ∧ trace s' = trace s ++ [LoadStarted (length (scripts s)) (next_uri s)]
    ∧ holders_scope s' (length (scripts s))
    ∧ turn_given s s' (tail (scriptsToLoad_ s)).
Proof.
  intros HI Ht Hp Hv.
  destruct (holder_shape s HI t D Ht Hp) as (Hf & Hb & o & rest & Hseq & Hrest).
  set (G0 := λ D, with_hadError_ b (with_result_ v (with_fired_ true D))).
  unfold fire_, current_result. rewrite lookup_modify, Ht.
  cbn [fmap option_fmap option_map result_ G0 with_hadError_ with_result_].
  rewrite fire_loop_S. unfold fire_body at 1. rewrite lookup_modify, Ht.
  cbn [fmap option_fmap option_map sequence_ blocked_ hadError_ G0
       with_hadError_ with_result_ with_fired_].
  rewrite Hseq, Hb. cbn [fst snd]. rewrite modify_modify.
  set (G := with_sequence_ rest ∘ _).
  destruct (Inv_take_turn t D G s HI Ht Hp) as [HI1 Hnone1];
    [by rewrite Hseq|done|by cbn; rewrite Hv|].
  assert (deferreds (modify t G s) !! t = Some (G D)) as Ht1
    by (by rewrite lookup_modify, Ht).
  destruct (pop_effect (fire_ (S fuel)) o (modify t G s) HI1 Hnone1)
    as (s2 & Hpop & HI2 & Hq2 & Htr2 & Hsc2 & Hgiven & Hlen2 & Hold2
        & Dn & HDn & HDnf & HDnt).
  unfold turn_given in Hgiven.
  change (scripts (modify t G s)) with (scripts s) in Hgiven.
  change (scriptsToLoad_ (modify t G s)) with (scriptsToLoad_ s) in Hgiven.
  change (length (deferreds (modify t G s))) with (length (alter G t (deferreds s)))
    in *.
  rewrite length_alter in *.
  set (dn := length (deferreds s)) in *.
  assert (t ≠ dn) as Hne by (apply lookup_lt_Some in Ht; unfold dn; lia).
  assert (invoke (fire_ (S fuel))
            (if b then popAndLoadNextScript o else popAndLoadNextScript o)
            b v (modify t G s) = Some (s2, Return (VDeferred dn))) as Hinv.
  { destruct b; cbn [invoke]; by rewrite Hpop. }
  replace (if b then Some (popAndLoadNextScript o) else Some (popAndLoadNextScript o))
    with (Some (if b then popAndLoadNextScript o else popAndLoadNextScript o))
    by (by destruct b).
  rewrite Hinv. rewrite bool_decide_eq_false_2 by done. cbn [is_VDeferred].
  rewrite modify_modify.
  set (G2 := with_blocked_ true ∘ _).
  set (s4 := modify t G2 s2).
  pose proof (Hold2 t (G D) Ht1) as Ht2.
  assert (¬ has_pop (G D)) as HnoG by (by apply (Hnone1 t)).
  assert (quiet s2 s4) as Hq4.
  { apply quiet_modify. intros D2 HD2. rewrite Ht2 in HD2. injection HD2 as <-.
    by apply evolves_flags. }
  assert (deferreds s4 !! t = Some (G2 (G D))) as Ht4
    by (unfold s4; by rewrite lookup_modify, Ht2).
  rewrite fire_loop_S. unfold fire_body. rewrite Ht4.
  replace (match sequence_ (G2 (G D)) with
           | [] | _ => _
           end) with
    (s0 ← addCallbacks (fire_ fuel) dn (Some (continue_ t true))
            (Some (continue_ t false))
            (modify t (with_result_ (VDeferred dn)) s4);
     Some (modify dn (with_blocking_ true) s0))
    by (cbn; by destruct rest as [|[??]?]).
  set (s5 := modify t (with_result_ (VDeferred dn)) s4).
  assert (quiet s4 s5) as Hq5.
  { apply quiet_modify. intros D4 HD4. rewrite Ht4 in HD4. injection HD4 as <-.
    by apply evolves_flags. }
  unfold addCallbacks.
  set (s6 := modify dn _ s5).
  assert (deferreds s5 !! dn = Some Dn) as HDn5.
  { unfold s5, s4. by rewrite !lookup_modify_ne. }
  assert (hasFired dn s6 = false) as ->.
  { unfold hasFired, s6. by rewrite lookup_modify, HDn5. }
  cbn [mbind option_bind]. eexists. split; [reflexivity|].
  pose proof (Inv_quiet _ _ (Inv_quiet _ _ HI2 Hq4) Hq5) as HI5.
  assert (Inv s6) as HI6.
  { apply Inv_push; [done|]. intros f [[= <-]|[= <-]]; (split; [done|]);
      intros p [= <-];
      destruct (quiet_deferreds _ _ (quiet_trans _ _ _ Hq4 Hq5) t _ Ht2)
        as (D5 & HD5 & He5); exists D5; (split; [done|]);
      intros Hp5; apply HnoG; by eapply evolves_has_pop. }
  split; [|split; [|split; [|split]]].
  - eapply Inv_quiet; [exact HI6|]. apply quiet_modify. intros. apply evolves_blocking.
  - exact Hq2.
  - exact Htr2.
  - eapply holders_scope_quiet;
      [apply quiet_modify; intros; apply evolves_blocking|].
    apply holders_scope_push; [by intros f [[= <-]|[= <-]]|].
    eapply holders_scope_quiet; [exact (quiet_trans _ _ _ Hq4 Hq5)|done].
  - destruct Hgiven as [Hturn Hnew]. split; [|exact Hnew].
    intros Hleft. destruct (Hturn Hleft) as (Dn' & HDn' & Hpn).
    rewrite HDn in HDn'. injection HDn' as <-.
    eexists. split.
    + rewrite lookup_modify. unfold s6. rewrite lookup_modify, HDn5. reflexivity.
    + unfold has_pop in *. cbn [sequence_ with_blocking_ with_sequence_].
      unfold fns_of. rewrite bind_app, Exists_app. by left.
Qed.


(** *** One event *)

Lemma fire_quiet_fire_ (fuel : nat) : fire_quiet (fire_ fuel).
Proof. intros d s s' HI Hno _ Hf. by eapply quiet_fire_. Qed.

Lemma step_quiet_of (e : Event) (s s' : State) :
  quiet s s' → step_kind e s s'.
Proof.
  intros Hq. apply (step_quiet e s s' []).
  - by rewrite app_nil_r, (quiet_queue _ _ Hq).
  - done.
  - apply (quiet_trace _ _ Hq).
  - intros sc Hs. by apply (holders_scope_quiet s s' sc Hq).
  - by apply holders_stay_quiet.
Qed.

Lemma holders_scope_extends (s s' : State) (Dn : Deferred) (sc : nat) :
  extends s s' Dn → holders_scope s sc → holders_scope s' sc.
Proof.
  intros He Hs d D Hd Hp. rewrite (ext_deferreds _ _ _ He) in Hd.
  apply lookup_snoc_Some in Hd as [[_ Hd]|[_ <-]].
  - by apply (Hs d D).
  - by destruct (has_pop_nil _ (ext_sequence _ _ _ He)).
Qed.

(** A Deferred gets its result, from a handler, a timer or a caller. *)
Lemma updateResult_step (e : Event) (s0 s s' : State) (d sc : nat) (b : bool)
    (v : value) (failure : option ErrorCode) :
  Inv s0 → quiet s0 s →
  deferreds s = deferreds s0 →
  trace s = trace s0 ++ [LoadCompleted sc failure] →
  (∃ D, deferreds s0 !! d = Some D ∧ scope_script D = Some sc) →
  is_VDeferred v = false →
  updateResult_ (fire_ (budget s0)) d b v s = Some s' →
  Inv s' ∧ step_kind e s0 s'.
Proof.
  intros HI0 Hq Hdef Htr (D & HD & Hscope) Hv Hup.
  pose proof (Inv_quiet _ _ HI0 Hq) as HI.
  assert (deferreds s !! d = Some D) as HDs by (by rewrite Hdef).
  destruct (decide (has_pop D)) as [Hp|Hnp].
  - rewrite budget_eq in Hup. unfold updateResult_ in Hup.
    match type of Hup with
    | fire_ (S (S ?f)) _ _ = _ =>
        destruct (take_turn f d D v (negb b) s HI HDs Hp Hv)
          as (s1 & Hfire & HI1 & Hq1 & Htr1 & Hs1 & Hg1)
    end.
    rewrite Hfire in Hup. injection Hup as <-. split; [done|].
    pose proof (holder_queue s0 HI0 d D HD Hp) as Hne.
    unfold turn_given in Hg1.
    rewrite (quiet_queue _ _ Hq) in Hq1, Hg1.
    rewrite (quiet_scripts _ _ Hq) in Htr1, Hs1, Hg1.
    rewrite Hdef in Hg1.
    unfold next_uri in Htr1. rewrite (quiet_queue _ _ Hq) in Htr1.
    destruct (scriptsToLoad_ s0) as [|u q] eqn:Hqueue; [done|].
    apply (step_turn e s0 s1 u q sc failure); try done.
    + rewrite Htr1, Htr, <- (assoc (++)). done.
    + by exists d, D.
  - unfold updateResult_ in Hup.
    assert (quiet s s') as Hq'.
    { eapply (quiet_settle _ (fire_quiet_fire_ _) d _ v); [done| |done| |exact Hup].
      - intros D0 HD0. congruence.
      - by intros D0. }
    split; [by eapply Inv_quiet|]. apply step_quiet_of. by etrans.
Qed.

Lemma callback_step (e : Event) (s0 s s' : State) (d sc : nat) (v : value)
    (failure : option ErrorCode) (c : completion) :
  Inv s0 → quiet s0 s → deferreds s = deferreds s0 →
  trace s = trace s0 ++ [LoadCompleted sc failure] →
  (∃ D, deferreds s0 !! d = Some D ∧ scope_script D = Some sc) →
  is_VDeferred v = false →
  callback (fire_ (budget s0)) d v s = Some (s', c) →
  Inv s' ∧ step_kind e s0 s'.
Proof.
  intros HI0 Hq Hdef Htr HD Hv. unfold callback.
  destruct (hasFired d s).
  - intros [= <- <-]. split; [by eapply Inv_quiet|by apply step_quiet_of].
  - destruct (updateResult_ _ d true v s) as [s1|] eqn:Hup; [|done].
    intros [= <- <-]. by eapply updateResult_step.
Qed.

Lemma errback_step (e : Event) (s0 s s' : State) (d sc : nat) (v : value)
    (failure : option ErrorCode) (c : completion) :
  Inv s0 → quiet s0 s → deferreds s = deferreds s0 →
  trace s = trace s0 ++ [LoadCompleted sc failure] →
  (∃ D, deferreds s0 !! d = Some D ∧ scope_script D = Some sc) →
  is_VDeferred v = false →
  errback (fire_ (budget s0)) d v s = Some (s', c) →
  Inv s' ∧ step_kind e s0 s'.
Proof.
  intros HI0 Hq Hdef Htr HD Hv. unfold errback.
  destruct (hasFired d s).
  - intros [= <- <-]. split; [by eapply Inv_quiet|by apply step_quiet_of].
  - destruct (updateResult_ _ d false v s) as [s1|] eqn:Hup; [|done].
    intros [= <- <-]. by eapply updateResult_step.
Qed.


Lemma cleanup_deferreds (sc : nat) (b : bool) (t : option nat) (s : State) :
  deferreds (cleanup_ sc b t s) = deferreds s ∧ trace (cleanup_ sc b t s) = trace s.
Proof. unfold cleanup_. by destruct b, t. Qed.

Lemma exec_onload (s s' : State) (script : nat) (readyState : option string)
    (c : completion) :
  Inv s → exec (Fires_onload script readyState) s = Some (s', c) →
  Inv s' ∧ step_kind (Fires_onload script readyState) s s'.
Proof.
  intros HI. unfold exec.
  destruct (scripts s !! script ≫= handlers) as [h|] eqn:Hh.
  2:{ intros [= <- <-]. split; [done|apply step_quiet_of, quiet_refl]. }
  unfold onload. destruct (is_ready readyState).
  2:{ intros [= <- <-]. split; [done|apply step_quiet_of, quiet_refl]. }
  intros Hcb.
  eapply (callback_step _ s _ s' (h_deferred h) script (VData DNull) None c);
    [done| | | | |done|exact Hcb].
  - etrans; [apply quiet_emit|apply quiet_cleanup_].
  - by rewrite (proj1 (cleanup_deferreds _ _ _ _)).
  - by rewrite (proj2 (cleanup_deferreds _ _ _ _)).
  - by apply handler_scope.
Qed.

Lemma exec_onerror (s s' : State) (script : nat) (c : completion) :
  Inv s → exec (Fires_onerror script) s = Some (s', c) →
  Inv s' ∧ step_kind (Fires_onerror script) s s'.
Proof.
  intros HI. unfold exec.
  destruct (scripts s !! script ≫= handlers) as [h|] eqn:Hh.
  2:{ intros [= <- <-]. split; [done|apply step_quiet_of, quiet_refl]. }
  unfold onerror. intros Hcb.
  eapply (errback_step _ s _ s' (h_deferred h) script _ (Some LOAD_ERROR) c);
    [done| | | | | |exact Hcb]; [..|done].
  - etrans; [apply quiet_emit|apply quiet_cleanup_].
  - by rewrite (proj1 (cleanup_deferreds _ _ _ _)).
  - by rewrite (proj2 (cleanup_deferreds _ _ _ _)).
  - by apply handler_scope.
Qed.

Lemma lookup_handlers_attached (l : list Script) (n sc : nat) (b : bool) :
  alter (with_attached b) n l !! sc ≫= handlers = l !! sc ≫= handlers.
Proof.
  destruct (decide (n = sc)) as [->|Hne].
  - rewrite list_lookup_alter_eq. by destruct (l !! sc).
  - by rewrite list_lookup_alter_ne.
Qed.

Lemma exec_timer (s s' : State) (timer : nat) (c : completion) :
  Inv s → exec (Timer_elapses timer) s = Some (s', c) →
  Inv s' ∧ step_kind (Timer_elapses timer) s s'.
Proof.
  intros HI. unfold exec.
  destruct (timers s !! timer) as [[task|]|] eqn:Ht.
  2,3: intros [= <- <-]; (split; [done|apply step_quiet_of, quiet_refl]).
  destruct task as [script d uri|scriptNode]; cbn [run_task].
  - intros Hcb.
    eapply (errback_step _ s _ s' d script _ (Some TIMEOUT) c);
      [done| | | | | |exact Hcb]; [..|done].
    + etrans; [apply (quiet_clearTimeout timer)|].
      etrans; [apply quiet_emit|apply quiet_cleanup_].
    + by rewrite (proj1 (cleanup_deferreds _ _ _ _)).
    + by rewrite (proj2 (cleanup_deferreds _ _ _ _)).
    + by eapply timer_scope.
  - intros [= <- <-].
    assert (quiet s (modify_script scriptNode (with_attached false)
                       (clearTimeout timer s))) as Hq.
    { etrans; [apply (quiet_clearTimeout timer)|]. apply quiet_page; try done.
      - intros sc h. cbn. by rewrite lookup_handlers_attached.
      - cbn. by rewrite length_alter. }
    split; [by eapply Inv_quiet|by apply step_quiet_of].
Qed.

Lemma exec_script_sets (s s' : State) (name : string) (v : data) (c : completion) :
  Inv s → exec (Script_sets name v) s = Some (s', c) →
  Inv s' ∧ step_kind (Script_sets name v) s s'.
Proof.
  intros HI. unfold exec. case_bool_decide; intros [= <- <-].
  { split; [done|apply step_quiet_of, quiet_refl]. }
  assert (quiet s (set_verifyObjs (<[name:=v]> (default ∅ (verifyObjs s))) s)) as Hq
    by (by apply quiet_page).
  split; [by eapply Inv_quiet|by apply step_quiet_of].
Qed.

Lemma exec_safeLoad (s s' : State) (uri : string) (o : option Options)
    (c : completion) :
  Inv s → exec (Call_safeLoad uri o) s = Some (s', c) →
  Inv s' ∧ step_kind (Call_safeLoad uri o) s s'.
Proof.
  intros HI. unfold exec.
  destruct (safeLoad_loads uri o s) as [_ (Dn & HL)].
  destruct (safeLoad uri o s) as [d s1]. cbn [snd] in HL. intros [= <- <-].
  pose proof (loads_extends _ _ _ _ HL) as HE.
  split; [by eapply Inv_extends|].
  apply (step_quiet _ s s1 []).
  - by rewrite app_nil_r, (ext_queue _ _ _ HE).
  - done.
  - rewrite (loads_trace _ _ _ _ HL). by apply prefix_app_r.
  - intros sc. by apply holders_scope_extends with Dn.
  - by apply holders_stay_extends with Dn.
Qed.


Lemma exec_addCallbacks (s s' : State) (d : nat) (cb eb : option nat)
    (c : completion) :
  Inv s → exec (Call_addCallbacks d cb eb) s = Some (s', c) →
  Inv s' ∧ step_kind (Call_addCallbacks d cb eb) s s'.
Proof.
  intros HI. unfold exec, addCallbacks.
  set (s1 := modify d _ s).
  assert (∀ f, observer <$> cb = Some f ∨ observer <$> eb = Some f →
               is_pop f = false ∧ target f = None) as Hobs.
  { intros f [H|H]; [destruct cb|destruct eb]; try done; by injection H as <-. }
  assert (Inv s1) as HI1.
  { apply Inv_push; [done|]. intros f Hf. destruct (Hobs f Hf) as [? Ht].
    split; [done|]. intros p Hp. by rewrite Ht in Hp. }
  assert (∀ sc, holders_scope s sc → holders_scope s1 sc) as Hs1.
  { intros sc. apply holders_scope_push. intros f Hf. by apply Hobs. }
  destruct (hasFired d s1) eqn:Hfired.
  - destruct (fire_ (budget s) d s1) as [s2|] eqn:Hfire; [|done].
    intros [= <- <-].
    assert (quiet s1 s2) as Hq.
    { eapply quiet_fire_; [done| |exact Hfire].
      intros D1 HD1 Hp. unfold hasFired in Hfired. rewrite HD1 in Hfired.
      destruct (holder_shape s1 HI1 d D1 HD1 Hp) as [Hf _]. congruence. }
    split; [by eapply Inv_quiet|].
    apply (step_quiet _ s s2 []).
    + by rewrite app_nil_r, (quiet_queue _ _ Hq).
    + done.
    + apply (quiet_trace _ _ Hq).
    + intros sc Hs. by apply (holders_scope_quiet s1 s2 sc Hq), Hs1.
    + eapply holders_stay_trans; [apply holders_stay_push|].
      by apply holders_stay_quiet.
  - intros [= <- <-]. split; [done|].
    apply (step_quiet _ s s1 []); [by rewrite app_nil_r|done|done|exact Hs1|].
    apply holders_stay_push.
Qed.

(** A new Deferred that is given its result at once, as [succeed] and
    [fail] do. *)
Lemma settled_at_once (e : Event) (s s1 s' : State) (d : nat) (c : completion)
    (fuel : nat) (b : bool) (v : value) :
  Inv s → alloc_Deferred None s = (d, s1) → is_VDeferred v = false →
  (if b then callback (fire_ fuel) d v s1 else errback (fire_ fuel) d v s1)
  = Some (s', c) →
  Inv s' ∧ step_kind e s s'.
Proof.
  intros HI [= <- <-] Hv Hcb.
  pose proof (extends_alloc None s) as HE. cbn [snd alloc_Deferred] in HE.
  set (s1 := set_deferreds _ s) in *.
  pose proof (Inv_extends _ _ _ HI HE) as HI1.
  assert (no_pop_at (length (deferreds s)) s1) as Hno.
  { intros D HD. cbn in HD. rewrite lookup_app_r, Nat.sub_diag in HD by done.
    injection HD as <-. by apply has_pop_nil. }
  assert (quiet s1 s') as Hq.
  { destruct b.
    - by destruct (quiet_callback _ (fire_quiet_fire_ fuel) _ _ _ _ _ HI1 Hno Hv Hcb).
    - by destruct (quiet_errback _ (fire_quiet_fire_ fuel) _ _ _ _ _ HI1 Hno Hv Hcb). }
  split; [by eapply Inv_quiet|].
  apply (step_quiet _ s s' []).
  - by rewrite app_nil_r, (quiet_queue _ _ Hq).
  - done.
  - apply (quiet_trace _ _ Hq).
  - intros sc Hs. apply (holders_scope_quiet s1 s' sc Hq).
    exact (holders_scope_extends s s1 (new_Deferred None) sc HE Hs).
  - eapply holders_stay_trans; [by apply holders_stay_extends with (new_Deferred None)|].
    by apply holders_stay_quiet.
Qed.

Lemma exec_safeLoadMany (s s' : State) (uris : list string) (o : option Options)
    (c : completion) :
  Inv s → exec (Call_safeLoadMany uris o) s = Some (s', c) →
  Inv s' ∧ step_kind (Call_safeLoadMany uris o) s s'.
Proof.
  intros HI. unfold exec, safeLoadMany.
  case_bool_decide as Hempty.
  - unfold succeed.
    destruct (alloc_Deferred None s) as [d s1] eqn:Halloc.
    destruct (callback (fire_ (budget s)) d (VData DNull) s1) as [[s2 c2]|] eqn:Hcb;
      [|done].
    intros [= <- <-].
    by apply (settled_at_once _ s s1 s2 d c2 (budget s) true (VData DNull)).
  - case_bool_decide as Hqueue.
    + intros [= <- <-].
      assert (uris ≠ []) as Hne by (intros ->; done).
      split.
      * apply Inv_set_queue; [done|]. left. intros Hnil.
        by apply app_eq_nil in Hnil as [_ ?].
      * apply (step_quiet _ s _ uris); try done;
          [|by intros d D Hd Hp; exists D].
        intros _. split; [|by exists o]. intros Hnil. by rewrite Hnil in Hqueue.
    + assert (scriptsToLoad_ s = []) as Hnil.
      { by destruct (scriptsToLoad_ s). }
      rewrite Hnil. cbn [app].
      assert (no_holders s) as Hnone.
      { intros d D Hd Hp. by apply (holder_queue s HI d D Hd Hp). }
      set (s1 := set_scriptsToLoad_ uris s).
      assert (Inv s1) as HI1 by (apply Inv_set_queue; [done|by right]).
      destruct (pop_effect (fire_ (budget s)) o s1 HI1 Hnone)
        as (s2 & -> & HI2 & Hq2 & Htr2 & Hs2 & Hg2 & _).
      cbn [mbind option_bind]. intros [= <- <-].
      assert (quiet s2 (set_scriptLoadingDeferred_ (length (deferreds s1)) s2)) as Hq
        by (by apply quiet_page).
      split; [by eapply Inv_quiet|].
      destruct uris as [|u us]; [done|].
      by apply (step_drain _ s _ u us o).
Qed.


Lemma exec_safeLoadAndVerify (s s' : State) (uri name : string)
    (o : option Options) (c : completion) :
  Inv s → exec (Call_safeLoadAndVerify uri name o) s = Some (s', c) →
  Inv s' ∧ step_kind (Call_safeLoadAndVerify uri name o) s s'.
Proof.
  intros HI. unfold exec, safeLoadAndVerify.
  set (s0 := match verifyObjs s with
             | Some _ => s
             | None => set_verifyObjs ∅ s
             end).
  assert (quiet s s0) as Hq0.
  { unfold s0. destruct (verifyObjs s); [apply quiet_refl|by apply quiet_page]. }
  pose proof (Inv_quiet _ _ HI Hq0) as HI0.
  assert (∀ s2, Inv s2 ∧ step_kind (Call_safeLoadAndVerify uri name o) s0 s2 →
                Inv s2 ∧ step_kind (Call_safeLoadAndVerify uri name o) s s2) as Hfrom.
  { intros s2 [HI2 Hk]. split; [done|].
    assert (scriptsToLoad_ s0 = scriptsToLoad_ s ∧ trace s0 = trace s
            ∧ deferreds s0 = deferreds s ∧ scripts s0 = scripts s) as (Hq & Ht & Hd & Hsc).
    { unfold s0. by destruct (verifyObjs s). }
    destruct Hk as [us H1 H2 H3 H4 H5|u us o' H1 H2 H3 H4 H5 H6
                    |u q sc f H1 H2 H3 H4 H5 H6].
    - apply (step_quiet _ s s2 us); unfold holders_stay;
        rewrite <- ?Hq, <- ?Ht, <- ?Hd; done.
    - done.
    - apply (step_turn _ s s2 u q sc f); unfold turn_given;
        rewrite <- ?Hq, <- ?Ht, <- ?Hd, <- ?Hsc; done. }
  destruct (lookup_verifyObj name s0) as [v|].
  - unfold fail.
    destruct (alloc_Deferred None s0) as [d s1] eqn:Halloc.
    match goal with |- context [errback _ d ?e s1] => set (err := e) end.
    destruct (errback (fire_ (budget s)) d err s1) as [[s2 c2]|] eqn:Hcb; [|done].
    intros [= <- <-]. apply Hfrom.
    by apply (settled_at_once _ s0 s1 s2 d c2 (budget s) false err).
  - destruct (safeLoad_loads uri o s0) as [Hd (Dn & HL)].
    destruct (safeLoad uri o s0) as [sendDeferred s1]. cbn [fst snd] in Hd, HL.
    subst sendDeferred.
    pose proof (loads_extends _ _ _ _ HL) as HE.
    pose proof (Inv_extends _ _ _ HI0 HE) as HI1.
    pose proof (extends_alloc None s1) as HE2. cbn [alloc_Deferred snd] in HE2.
    cbn [alloc_Deferred].
    set (s2 := set_deferreds _ s1) in *.
    pose proof (Inv_extends _ _ _ HI1 HE2) as HI2.
    set (deferred := length (deferreds s1)).
    assert (deferreds s2 !! deferred = Some (new_Deferred None)) as Hdef.
    { cbn. by rewrite lookup_app_r, Nat.sub_diag. }
    assert (deferreds s2 !! length (deferreds s0) = Some Dn) as Hsend.
    { cbn. rewrite (ext_deferreds _ _ _ HE), <- (assoc (++)).
      by rewrite lookup_app_r, Nat.sub_diag. }
    unfold addCallbacks.
    set (s3 := modify (length (deferreds s0)) _ s2).
    assert (Inv s3) as HI3.
    { apply Inv_push; [done|]. intros f [[= <-]|[=]]. split; [done|].
      intros p [= <-]. exists (new_Deferred None). split; [done|].
      by apply has_pop_nil. }
    assert (hasFired (length (deferreds s0)) s3 = false) as ->.
    { unfold hasFired, s3. rewrite lookup_modify, Hsend. cbn.
      apply (loads_fired _ _ _ _ HL). }
    cbn [mbind option_bind].
    set (s4 := modify (length (deferreds s0)) _ s3).
    assert (Inv s4) as HI4.
    { apply Inv_push; [done|]. intros f [[=]|[= <-]]. split; [done|].
      intros p [= <-]. exists (new_Deferred None). split.
      - unfold s3. rewrite lookup_modify_ne; [done|].
        unfold deferred. rewrite (ext_deferreds _ _ _ HE), length_app. cbn. lia.
      - by apply has_pop_nil. }
    assert (hasFired (length (deferreds s0)) s4 = false) as ->.
    { unfold hasFired, s4, s3. rewrite !lookup_modify, Hsend. cbn.
      apply (loads_fired _ _ _ _ HL). }
    cbn [mbind option_bind]. intros [= <- <-]. apply Hfrom. split; [done|].
    apply (step_quiet _ s0 s4 []).
    + rewrite app_nil_r. exact (ext_queue _ _ _ HE).
    + done.
    + change (trace s4) with (trace s1). rewrite (loads_trace _ _ _ _ HL).
      by apply prefix_app_r.
    + intros sc Hs. unfold s4, s3.
      apply holders_scope_push; [by intros f [[=]|[= <-]]|].
      apply holders_scope_push; [by intros f [[= <-]|[=]]|].
      apply (holders_scope_extends s1 s2 (new_Deferred None) sc HE2).
      exact (holders_scope_extends s0 s1 Dn sc HE Hs).
    + eapply holders_stay_trans; [by apply holders_stay_extends with Dn|].
      eapply holders_stay_trans;
        [by apply holders_stay_extends with (new_Deferred None)|].
      eapply holders_stay_trans; apply holders_stay_push.
Qed.

(** Every event keeps the invariant of the loader and is of one of the
    three kinds. *)
Lemma exec_step (e : Event) (s s' : State) (c : completion) :
  Inv s → exec e s = Some (s', c) → Inv s' ∧ step_kind e s s'.
Proof.
  destruct e; eauto using exec_safeLoadMany, exec_safeLoad,
    exec_safeLoadAndVerify, exec_addCallbacks, exec_script_sets, exec_onload,
    exec_onerror, exec_timer.
Qed.

Lemma Inv_initial : Inv initial.
Proof. split; intros; by rewrite ?lookup_nil in *. Qed.

Lemma run_Inv (es : list Event) :
  ∀ s s', Inv s → run es s = Some s' → Inv s'.
Proof.
  induction es as [|e es IH]; intros s s' HI; cbn [run]; [by intros [= <-]|].
  destruct (exec e s) as [[s1 c]|] eqn:He; [|done]. cbn.
  destruct (exec_step e s s1 c HI He) as [HI1 _]. by apply IH.
Qed.

Lemma reachable_Inv (s : State) : reachable s → Inv s.
Proof. intros [es Hes]. eapply run_Inv; [apply Inv_initial|exact Hes]. Qed.


(** *** The callbacks run to the end *)

Lemma sum_sequences_le (l l' : list Deferred) :
  length l' = length l →
  (∀ i D, l !! i = Some D →
          ∃ D', l' !! i = Some D' ∧ length (sequence_ D') <= length (sequence_ D)) →
  sum_list (length ∘ sequence_ <$> l') <= sum_list (length ∘ sequence_ <$> l).
Proof.
  revert l'. induction l as [|D l IH]; intros [|D' l'] Hlen Hle; try done.
  cbn in *. destruct (Hle 0 D eq_refl) as (D0 & [= <-] & H0).
  assert (sum_list (length ∘ sequence_ <$> l') <= sum_list (length ∘ sequence_ <$> l));
    [|lia].
  apply IH; [lia|]. intros i Di Hi. exact (Hle (S i) Di Hi).
Qed.

Lemma entries_quiet (s s' : State) : quiet s s' → entries s' <= entries s.
Proof.
  intros Hq. apply sum_sequences_le; [apply (quiet_length _ _ Hq)|].
  intros i D HD. destruct (quiet_deferreds _ _ Hq i D HD) as (D' & HD' & (_ & Hsuf & _)).
  exists D'. split; [done|]. by apply suffix_length.
Qed.

Lemma sum_sequences_alter (F : Deferred → Deferred) (l : list Deferred) (d : nat)
    (D : Deferred) :
  l !! d = Some D →
  sum_list (length ∘ sequence_ <$> alter F d l) + length (sequence_ D)
  = sum_list (length ∘ sequence_ <$> l) + length (sequence_ (F D)).
Proof.
  revert d. induction l as [|D0 l IH]; intros [|d] Hd; try done.
  - injection Hd as ->. cbn. lia.
  - cbn in *. specialize (IH d Hd). lia.
Qed.

Lemma entries_consume (d : nat) (D : Deferred) (entry : option fn * option fn)
    (rest : list (option fn * option fn)) (s : State) :
  deferreds s !! d = Some D → sequence_ D = entry :: rest →
  S (entries (modify d (with_sequence_ rest) s)) = entries s.
Proof.
  intros Hd Hseq. unfold entries. cbn [deferreds modify set_deferreds].
  pose proof (sum_sequences_alter (with_sequence_ rest) _ d D Hd) as H.
  rewrite Hseq in H. cbn in H. lia.
Qed.

Lemma entries_modify (d : nat) (G : Deferred → Deferred) (s : State) :
  (∀ D, sequence_ (G D) = sequence_ D) → entries (modify d G s) = entries s.
Proof.
  intros HG. unfold entries. cbn [deferreds modify set_deferreds].
  destruct (deferreds s !! d) as [D|] eqn:Hd.
  - pose proof (sum_sequences_alter G _ d D Hd) as H. rewrite HG in H. lia.
  - f_equal. f_equal. apply list_eq. intros i.
    destruct (decide (d = i)) as [->|Hne].
    + by rewrite list_lookup_alter_eq, Hd.
    + by rewrite list_lookup_alter_ne.
Qed.

Section Total.
Variable fire : nat → State → option State.
Variable n : nat.
Hypothesis fire_is_total : fire_total n fire.

Lemma total_settle (p : nat) (G : Deferred → Deferred) (v : value) (s : State) :
  Inv s → no_pop_at p s → is_VDeferred v = false →
  (∀ D, sequence_ (G D) = sequence_ D ∧ defaultScope_ (G D) = defaultScope_ D
        ∧ result_ (G D) = v) →
  entries s < n → is_Some (fire p (modify p G s)).
Proof.
  intros HI Hno Hv HG Hn.
  assert (quiet s (modify p G s)) as Hq.
  { apply quiet_modify. intros D HD. destruct (HG D) as (Hs & Hc & Hr).
    apply evolves_flags; [by apply Hno|by rewrite Hs|done|].
    rewrite Hr, Hv. done. }
  apply fire_is_total.
  - by eapply Inv_quiet.
  - by eapply no_pop_at_quiet.
  - unfold current_result. rewrite lookup_modify.
    destruct (deferreds s !! p) as [D|]; [|done]. cbn.
    destruct (HG D) as (_ & _ & ->). done.
  - rewrite entries_modify; [done|]. intros D. by destruct (HG D).
Qed.

Lemma total_callback (p : nat) (v : value) (s : State) :
  Inv s → no_pop_at p s → is_VDeferred v = false → entries s < n →
  is_Some (callback fire p v s).
Proof.
  intros HI Hno Hv Hn. unfold callback, updateResult_.
  destruct (hasFired p s); [done|].
  destruct (total_settle p (λ D, with_hadError_ (negb true)
              (with_result_ v (with_fired_ true D))) v s) as [s1 ->]; try done.
Qed.

Lemma total_errback (p : nat) (v : value) (s : State) :
  Inv s → no_pop_at p s → is_VDeferred v = false → entries s < n →
  is_Some (errback fire p v s).
Proof.
  intros HI Hno Hv Hn. unfold errback, updateResult_.
  destruct (hasFired p s); [done|].
  destruct (total_settle p (λ D, with_hadError_ (negb false)
              (with_result_ v (with_fired_ true D))) v s) as [s1 ->]; try done.
Qed.

Lemma total_invoke (f : fn) (asError : bool) (res : value) (s : State) :
  Inv s → is_pop f = false →
  (∀ p, target f = Some p → no_pop_at p s) →
  is_VDeferred res = false → entries s < n →
  is_Some (invoke fire f asError res s).
Proof.
  intros HI Hpop Htarget Hres Hn.
  destruct f as [o|p b|p name uri|p name|tag]; cbn [invoke]; [done| | | |done].
  - unfold do_continue_, updateResult_. rewrite modify_modify.
    destruct (total_settle p (λ D, with_hadError_ (negb b)
                (with_result_ res (with_fired_ true (with_blocked_ false D))))
                res s) as [s1 Hs1]; try done; [by apply Htarget|].
    unfold compose. by rewrite Hs1.
  - unfold do_verifyCallback. destruct (lookup_verifyObj name s) as [v|].
    + destruct (total_callback p (VData v) s) as [[s1 [r|ex]] ->]; try done.
      by apply Htarget.
    + match goal with |- context [errback fire p ?e s] => set (err := e) end.
      destruct (total_errback p err s) as [[s1 [r|ex]] ->]; try done.
      by apply Htarget.
  - unfold do_verifyErrback.
    set (s0 := match lookup_verifyObj name s with
               | Some _ => delete_verifyObj name s
               | None => s
               end).
    assert (quiet s s0) as Hq0.
    { unfold s0. destruct (lookup_verifyObj name s);
        [apply quiet_delete_verifyObj|apply quiet_refl]. }
    destruct (total_errback p res s0) as [[s1 [r|ex]] ->]; try done.
    + by eapply Inv_quiet.
    + eapply no_pop_at_quiet; [done|]. by apply Htarget.
    + pose proof (entries_quiet _ _ Hq0). lia.
Qed.

End Total.

Lemma total_fire_loop (fuel : nat) :
  ∀ (d : nat) (res : value) (s : State),
    Inv s → no_pop_at d s → is_VDeferred res = false →
    entries s < fuel → is_Some (fire_loop fuel d res false s).
Proof.
  induction fuel as [|fuel IH]; intros d res s HI Hno Hres Hfuel; [lia|].
  assert (fire_total fuel (fire_ fuel)) as Htotal.
  { intros d0 s0 HI0 Hno0 Hres0 Hn0. by apply IH. }
  pose proof (fire_quiet_fire_ fuel) as Hquiet.
  rewrite fire_loop_S. unfold fire_body.
  destruct (deferreds s !! d) as [D|] eqn:Hd; [|done].
  assert (¬ has_pop D) as HnoD by (by apply Hno).
  destruct (sequence_ D) as [|[cb eb] rest] eqn:Hseq.
  { unfold STRICT_ERRORS. by cbn. }
  destruct (blocked_ D) eqn:Hbl.
  { unfold STRICT_ERRORS. by cbn. }
  set (s1 := modify d (with_sequence_ rest) s).
  assert (quiet s s1) as Hq1.
  { apply quiet_modify. intros D0 HD0. rewrite Hd in HD0. injection HD0 as <-.
    apply evolves_flags; try done.
    - cbn. rewrite Hseq. by apply suffix_cons_r.
    - cbn. by eapply result_blocked. }
  pose proof (Inv_quiet _ _ HI Hq1) as HI1.
  pose proof (no_pop_at_quiet _ _ _ Hq1 Hno) as Hno1.
  pose proof (entries_consume d D (cb, eb) rest s Hd Hseq) as Hent.
  fold s1 in Hent. cbn [fst snd].
  destruct (if hadError_ D then eb else cb) as [f|] eqn:Hf.
  2:{ apply IH; try done. lia. }
  assert (f ∈ fns_of (sequence_ D)) as Hfin.
  { rewrite Hseq. apply elem_of_fns_of. exists (cb, eb). split; [by left|].
    cbn. destruct (hadError_ D); [by right|by left]. }
  assert (is_pop f = false) as Hfpop.
  { destruct (is_pop f) eqn:Hp; [|done]. destruct HnoD.
    apply has_pop_iff. by exists f. }
  assert (∀ p, target f = Some p → no_pop_at p s1) as Hftarget.
  { intros p Hp. apply (no_pop_at_quiet p s s1 Hq1).
    destruct (target_quiet s HI d D f p Hd Hfin Hp) as (Dp & HDp & Hnp).
    intros D0 HD0. congruence. }
  destruct (total_invoke (fire_ fuel) fuel Htotal f (hadError_ D) res s1)
    as [[s2 c] Hinv]; try done; [lia|].
  rewrite Hinv.
  destruct (quiet_invoke _ Hquiet _ _ _ _ _ _ HI1 Hfpop Hftarget Hres Hinv)
    as [Hq2 Hc].
  pose proof (Inv_quiet _ _ HI1 Hq2) as HI2.
  pose proof (no_pop_at_quiet _ _ _ Hq2 Hno1) as Hno2.
  pose proof (entries_quiet _ _ Hq2) as Hent2.
  destruct Hc as [->|[x ->]].
  - rewrite bool_decide_eq_true_2 by done. rewrite Hres.
    apply IH; try done. lia.
  - assert (quiet s2 (modify d (with_hadError_ true) s2)) as Hq3.
    { apply quiet_modify. intros D2 HD2.
      apply evolves_flags; [by apply Hno2|done|done|].
      cbn. by eapply result_blocked. }
    apply IH; try done.
    + by eapply Inv_quiet.
    + by eapply no_pop_at_quiet.
    + pose proof (entries_quiet _ _ Hq3). lia.
Qed.

Lemma total_fire_ (fuel d : nat) (s : State) :
  Inv s → no_pop_at d s → entries s < fuel → is_Some (fire_ fuel d s).
Proof.
  intros HI Hno Hfuel. unfold fire_.
  destruct (is_VDeferred (current_result d s)) eqn:Hres;
    [|by apply total_fire_loop].
  unfold current_result in *.
  destruct (deferreds s !! d) as [D|] eqn:Hd; [|done].
  pose proof (result_blocked s HI d D Hd Hres) as Hbl.
  destruct fuel as [|fuel]; [lia|].
  rewrite fire_loop_S. unfold fire_body. rewrite Hd, Hbl.
  unfold STRICT_ERRORS. cbn. by destruct (sequence_ D).
Qed.


Lemma fire_total_fire_ (fuel : nat) : fire_total fuel (fire_ fuel).
Proof. intros d s HI Hno _ Hn. by apply total_fire_. Qed.

Lemma entries_budget (s : State) : entries s + 2 <= budget s.
Proof. unfold budget. lia. Qed.

Lemma entries_extends (s s' : State) (Dn : Deferred) :
  extends s s' Dn → entries s' = entries s.
Proof.
  intros HE. unfold entries. rewrite (ext_deferreds _ _ _ HE).
  pose proof (ext_sequence _ _ _ HE) as Hseq.
  induction (deferreds s) as [|D l IH]; cbn.
  - rewrite Hseq. done.
  - by rewrite IH.
Qed.

Lemma entries_push (d : nat) (entry : option fn * option fn) (s : State) :
  entries (modify d (λ D, with_sequence_ (sequence_ D ++ [entry]) D) s)
  <= S (entries s).
Proof.
  unfold entries. cbn [deferreds modify set_deferreds].
  destruct (deferreds s !! d) as [D|] eqn:Hd.
  - pose proof (sum_sequences_alter
                  (λ D, with_sequence_ (sequence_ D ++ [entry]) D) _ d D Hd) as H.
    cbn in H. rewrite length_app in H. cbn in H. lia.
  - assert (alter (λ D, with_sequence_ (sequence_ D ++ [entry]) D) d (deferreds s)
            = deferreds s) as ->; [|lia].
    apply list_eq. intros i. destruct (decide (d = i)) as [->|Hne].
    + by rewrite list_lookup_alter_eq, Hd.
    + by rewrite list_lookup_alter_ne.
Qed.

(** A Deferred is given its result: the callbacks run to the end. *)
Lemma total_updateResult (fuel d : nat) (b : bool) (v : value) (s : State) :
  Inv s → is_VDeferred v = false → entries s + 2 <= fuel →
  is_Some (updateResult_ (fire_ fuel) d b v s).
Proof.
  intros HI Hv Hfuel. unfold updateResult_.
  destruct (deferreds s !! d) as [D|] eqn:HD.
  - destruct (decide (has_pop D)) as [Hp|Hnp].
    + destruct fuel as [|[|fuel]]; [lia..|].
      destruct (take_turn fuel d D v (negb b) s HI HD Hp Hv) as (s1 & -> & _).
      done.
    + apply (total_settle (fire_ fuel) fuel (fire_total_fire_ fuel) d _ v);
        try done; [|lia].
      intros D0 HD0. congruence.
  - apply (total_settle (fire_ fuel) fuel (fire_total_fire_ fuel) d _ v);
      try done; [|lia].
    intros D0 HD0. congruence.
Qed.

Lemma total_callback_ (fuel d : nat) (v : value) (s : State) :
  Inv s → is_VDeferred v = false → entries s + 2 <= fuel →
  is_Some (callback (fire_ fuel) d v s).
Proof.
  intros HI Hv Hfuel. unfold callback. destruct (hasFired d s); [done|].
  by destruct (total_updateResult fuel d true v s) as [s1 ->].
Qed.

Lemma total_errback_ (fuel d : nat) (v : value) (s : State) :
  Inv s → is_VDeferred v = false → entries s + 2 <= fuel →
  is_Some (errback (fire_ fuel) d v s).
Proof.
  intros HI Hv Hfuel. unfold errback. destruct (hasFired d s); [done|].
  by destruct (total_updateResult fuel d false v s) as [s1 ->].
Qed.

(** Every event runs to completion: the fuel of [exec] suffices on the
    states of the loader. *)
Lemma exec_total (e : Event) (s : State) : Inv s → is_Some (exec e s).
Proof.
  intros HI. pose proof (entries_budget s) as Hb.
  destruct e as [uris o|uri o|uri name o|d cb eb|name v|script readyState|script|timer];
    unfold exec.
  - unfold safeLoadMany. case_bool_decide as Hempty.
    + unfold succeed.
      pose proof (extends_alloc None s) as HE.
      destruct (alloc_Deferred None s) as [d s1]. cbn [snd] in HE.
      destruct (total_callback_ (budget s) d (VData DNull) s1) as [[s2 c2] ->];
        try done.
      * by eapply Inv_extends.
      * rewrite (entries_extends _ _ _ HE). lia.
    + case_bool_decide as Hqueue; [done|].
      assert (scriptsToLoad_ s = []) as Hnil by (by destruct (scriptsToLoad_ s)).
      rewrite Hnil. cbn [app].
      assert (no_holders s) as Hnone.
      { intros d D Hd Hp. by apply (holder_queue s HI d D Hd Hp). }
      set (s1 := set_scriptsToLoad_ uris s).
      assert (Inv s1) as HI1 by (apply Inv_set_queue; [done|by right]).
      destruct (pop_effect (fire_ (budget s)) o s1 HI1 Hnone) as (s2 & -> & _).
      done.
  - by destruct (safeLoad uri o s).
  - unfold safeLoadAndVerify.
    set (s0 := match verifyObjs s with
               | Some _ => s
               | None => set_verifyObjs ∅ s
               end).
    assert (quiet s s0) as Hq0.
    { unfold s0. destruct (verifyObjs s); [apply quiet_refl|by apply quiet_page]. }
    pose proof (Inv_quiet _ _ HI Hq0) as HI0.
    pose proof (entries_quiet _ _ Hq0) as Hent0.
    destruct (lookup_verifyObj name s0) as [v|].
    + unfold fail.
      pose proof (extends_alloc None s0) as HE.
      destruct (alloc_Deferred None s0) as [d s1]. cbn [snd] in HE.
      match goal with |- context [errback _ d ?e s1] => set (err := e) end.
      destruct (total_errback_ (budget s) d err s1) as [[s2 c2] ->]; try done.
      * by eapply Inv_extends.
      * rewrite (entries_extends _ _ _ HE). lia.
    + destruct (safeLoad_loads uri o s0) as [Hd (Dn & HL)].
      destruct (safeLoad uri o s0) as [sendDeferred s1]. cbn [fst snd] in Hd, HL.
      subst sendDeferred.
      pose proof (loads_extends _ _ _ _ HL) as HE.
      cbn [alloc_Deferred].
      set (s2 := set_deferreds _ s1) in *.
      assert (deferreds s2 !! length (deferreds s0) = Some Dn) as Hsend.
      { cbn. rewrite (ext_deferreds _ _ _ HE), <- (assoc (++)).
        by rewrite lookup_app_r, Nat.sub_diag. }
      unfold addCallbacks.
      set (s3 := modify (length (deferreds s0)) _ s2).
      assert (hasFired (length (deferreds s0)) s3 = false) as ->.
      { unfold hasFired, s3. rewrite lookup_modify, Hsend. cbn.
        apply (loads_fired _ _ _ _ HL). }
      cbn [mbind option_bind].
      set (s4 := modify (length (deferreds s0)) _ s3).
      assert (hasFired (length (deferreds s0)) s4 = false) as ->.
      { unfold hasFired, s4, s3. rewrite !lookup_modify, Hsend. cbn.
        apply (loads_fired _ _ _ _ HL). }
      done.
  - unfold addCallbacks. set (s1 := modify d _ s).
    assert (∀ f, observer <$> cb = Some f ∨ observer <$> eb = Some f →
                 is_pop f = false ∧ target f = None) as Hobs.
    { intros f [H|H]; [destruct cb|destruct eb]; try done; by injection H as <-. }
    assert (Inv s1) as HI1.
    { apply Inv_push; [done|]. intros f Hf. destruct (Hobs f Hf) as [? Ht].
      split; [done|]. intros p Hp. by rewrite Ht in Hp. }
    destruct (hasFired d s1) eqn:Hfired; [|done].
    destruct (total_fire_ (budget s) d s1) as [s2 ->]; try done.
    + intros D1 HD1 Hp. unfold hasFired in Hfired. rewrite HD1 in Hfired.
      destruct (holder_shape s1 HI1 d D1 HD1 Hp) as [Hf _]. congruence.
    + pose proof (entries_push d (observer <$> cb, observer <$> eb) s). fold s1 in H.
      lia.
  - by case_bool_decide.
  - destruct (scripts s !! script ≫= handlers) as [h|]; [|done].
    unfold onload. destruct (is_ready readyState); [|done].
    apply total_callback_; [|done|].
    + eapply Inv_quiet; [done|]. etrans; [apply quiet_emit|apply quiet_cleanup_].
    + match goal with |- entries ?s1 + 2 <= _ =>
        assert (quiet s s1) as Hq
          by (etrans; [apply quiet_emit|apply quiet_cleanup_]) end.
      pose proof (entries_quiet _ _ Hq). lia.
  - destruct (scripts s !! script ≫= handlers) as [h|]; [|done].
    unfold onerror.
    apply total_errback_; [|done|].
    + eapply Inv_quiet; [done|]. etrans; [apply quiet_emit|apply quiet_cleanup_].
    + match goal with |- entries ?s1 + 2 <= _ =>
        assert (quiet s s1) as Hq
          by (etrans; [apply quiet_emit|apply quiet_cleanup_]) end.
      pose proof (entries_quiet _ _ Hq). lia.
  - destruct (timers s !! timer) as [[task|]|]; [|done..].
    destruct task as [script d uri|scriptNode]; cbn [run_task]; [|done].
    match goal with |- is_Some (errback _ _ _ ?s1) =>
      assert (quiet s s1) as Hq
        by (etrans; [apply (quiet_clearTimeout timer)|];
            etrans; [apply quiet_emit|apply quiet_cleanup_]) end.
    apply total_errback_; [by eapply Inv_quiet|done|].
    pose proof (entries_quiet _ _ Hq). lia.
Qed.

Lemma run_total (es : list Event) : ∀ s, Inv s → is_Some (run es s).
Proof.
  induction es as [|e es IH]; intros s HI; [done|]. cbn [run].
  destruct (exec_total e s HI) as [[s1 c] He]. rewrite He. cbn.
  apply IH. by destruct (exec_step e s s1 c HI He).
Qed.


(** *** The loads of one batch *)





End JsLoaderInv.

(** ** More on the loader *)
Module JsLoaderMore.
Import JsLoader JsLoaderSpec JsLoaderInv.
Local Open Scope nat_scope.
Local Arguments fire_loop : simpl never.

(** *** The script element of a load *)

(** X12. The script element that [safeLoad] makes: it is a new element,
    hung in the document of the options or else in the current one; its
    source is the URI, also when the attributes of the options hold a
    [src] of their own, of which nothing is left; its type is
    [text/javascript] and its charset [UTF-8] whatever the attributes of
    the options say of them. *)
Theorem safeLoad_script_element (uri : string) (o : option Options) (s : State) :
  let s' := (safeLoad uri o s).2 in
  ∃ N, scripts s' = scripts s ++ [N]
       ∧ src N = uri ∧ attached N = true
       ∧ ownerDocument N = default 0 (o ≫= document)
       ∧ properties N !! "type" = Some "text/javascript"
       ∧ properties N !! "charset" = Some "UTF-8"
       ∧ properties N !! "src" = None.
Proof.
  intros s'. subst s'. rewrite safeLoad_eq. cbn [snd scripts].
  eexists. split; [reflexivity|]. cbn [src attached ownerDocument properties].
  repeat split.
  - by rewrite lookup_delete_ne, lookup_insert_ne, lookup_insert_eq.
  - by rewrite lookup_delete_ne, lookup_insert_eq.
  - by rewrite lookup_delete_eq.
Qed.

(** X13. A timeout of the options that is zero or negative means no
    timeout: [safeLoad] sets no timer, the request of the handle and the
    handlers of the script hold none, and on the page after the call no
    timer is for the new script. *)
Theorem safeLoad_without_timeout (uri : string) (o : option Options) (t : Z)
    (s : State) :
  o ≫= timeout = Some t → (t <= 0)%Z →
  let s' := (safeLoad uri o s).2 in
  let sc := length (scripts s) in
  timers s' = timers s
  ∧ (deferreds s' !! length (deferreds s) ≫= defaultScope_)
    = Some {| script_ := sc; timeout_ := None |}
  ∧ ((scripts s' !! sc ≫= handlers) ≫= h_timeout) = None.
Proof.
  intros Ht Hle s' sc. subst s'. rewrite safeLoad_eq.
  unfold timeoutDuration. rewrite Ht. cbn [default].
  rewrite (proj2 (Z.ltb_ge _ _)) by done.
  cbn [snd timers deferreds scripts]. rewrite app_nil_r.
  split; [done|].
  by rewrite !lookup_app_r, !Nat.sub_diag by done.
Qed.

(** [safeLoad_without_timeout] at the first load of a page, with a
    timeout of zero. *)
Lemma safeLoad_without_timeout_witness :
  let o := Some {| timeout := Some 0%Z; document := None;
                   cleanupWhenDone := None; attributes := None |} in
  timers (safeLoad "v.js" o initial).2 = [].
Proof.
  intros o.
  destruct (safeLoad_without_timeout "v.js" o 0%Z initial) as (H & _);
    [reflexivity|lia|exact H].
Defined.

(** X14. A batch of one URI given to a loader whose queue is empty is
    the load of that URI: the page after [safeLoadMany] is the page
    after [safeLoad], the handle returned is the handle of [safeLoad],
    kept as the handle of the drain, and the queue stays empty. *)
Theorem single_uri_batch (u : string) (o : option Options) (s : State) :
  scriptsToLoad_ s = [] →
  exec (Call_safeLoadMany [u] o) s =
    Some (set_scriptLoadingDeferred_ (safeLoad u o s).1 (safeLoad u o s).2,
          Return (VDeferred (safeLoad u o s).1))
  ∧ scriptsToLoad_ (safeLoad u o s).2 = [].
Proof.
  intros Hq.
  assert (scriptsToLoad_ (safeLoad u o s).2 = []) as Hq'
    by (by rewrite safeLoad_eq).
  split; [|done].
  unfold exec, safeLoadMany. rewrite Hq. cbn [length app bool_decide].
  rewrite bool_decide_eq_false_2 by done.
  rewrite bool_decide_eq_false_2 by (intros H; by apply H).
  unfold do_popAndLoadNextScript. cbn [scriptsToLoad_ set_scriptsToLoad_ head tail
    default].
  replace (set_scriptsToLoad_ [] (set_scriptsToLoad_ [u] s)) with s
    by (clear Hq'; destruct s; cbn in Hq; by subst).
  change (id u) with u.
  destruct (safeLoad u o s) as [d s2]. cbn [fst snd] in *.
  rewrite Hq'. cbn [length]. rewrite bool_decide_eq_false_2 by (intros H; by apply H).
  done.
Qed.

(** [single_uri_batch] at the start of a page. *)
Lemma single_uri_batch_witness :
  exec (Call_safeLoadMany ["a.js"] None) initial =
    Some (set_scriptLoadingDeferred_ 0 (safeLoad "a.js" None initial).2,
          Return (VDeferred 0)).
Proof. exact (proj1 (single_uri_batch "a.js" None initial eq_refl)). Defined.

Lemma cleanup_scripts (sc : nat) (b : bool) (t : option nat) (s : State) :
  scripts (cleanup_ sc b t s) = alter (with_handlers None) sc (scripts s).
Proof. unfold cleanup_. by destruct b, t. Qed.

Lemma cleanup_timers (sc : nat) (b : bool) (t : option nat) (s : State) :
  timers (cleanup_ sc b t s) =
    from_option (λ t, <[t := None]> (timers s)) (timers s) t
    ++ (if b then [Some (removeNodeTask sc)] else []).
Proof. unfold cleanup_. destruct b, t; cbn; by rewrite ?app_nil_r. Qed.

Lemma handlers_cleaned (sc : nat) (l : list Script) :
  alter (with_handlers None) sc l !! sc ≫= handlers = None.
Proof. rewrite list_lookup_alter_eq. by destruct (l !! sc). Qed.

(** X15. After [cancel_] the load is dead: the handlers of the script
    and the timer of its timeout do nothing any more, they leave the
    page as it is, and the removal of the script element is set on a
    timer; once that timer has run the element is off the document. *)
Theorem cancel_inert (request : Request) (readyState : option string)
    (s : State) :
  from_option (λ t, t < length (timers s)) True (timeout_ request) →
  let sc := script_ request in
  let s' := cancel_ (Some request) s in
  exec (Fires_onload sc readyState) s' = Some (s', Return VUndefined)
  ∧ exec (Fires_onerror sc) s' = Some (s', Return VUndefined)
  ∧ from_option (λ t, exec (Timer_elapses t) s' = Some (s', Return VUndefined))
      True (timeout_ request)
  ∧ ∃ s2, exec (Timer_elapses (length (timers s))) s' = Some (s2, Return VUndefined)
          ∧ attached <$> scripts s2 !! sc = (λ _, false) <$> scripts s !! sc.
Proof.
  intros Ht sc s'.
  assert (scripts s' = alter (with_handlers None) sc (scripts s)) as Hsc.
  { unfold s', cancel_. by rewrite cleanup_scripts. }
  assert (scripts s' !! sc ≫= handlers = None) as Hh.
  { rewrite Hsc. apply handlers_cleaned. }
  assert (timers s' = from_option (λ t, <[t := None]> (timers s)) (timers s)
                        (timeout_ request) ++ [Some (removeNodeTask sc)]) as Htm.
  { unfold s', cancel_. by rewrite cleanup_timers. }
  assert (length (from_option (λ t, <[t := None]> (timers s)) (timers s)
                    (timeout_ request)) = length (timers s)) as Hlen.
  { destruct (timeout_ request); cbn; by rewrite ?length_insert. }
  split; [|split; [|split]].
  - unfold exec. by rewrite Hh.
  - unfold exec. by rewrite Hh.
  - destruct (timeout_ request) as [t|] eqn:Hreq; [|done].
    cbn [from_option] in Ht, Htm |- *.
    unfold exec. rewrite Htm.
    rewrite lookup_app_l by (by rewrite length_insert).
    by rewrite list_lookup_insert_eq by done.
  - unfold exec. rewrite Htm.
    rewrite lookup_app_r by (by rewrite Hlen).
    rewrite Hlen, Nat.sub_diag.
    cbn [lookup list_lookup run_task]. eexists. split; [reflexivity|].
    clearbody s'. cbn [scripts modify_script set_scripts clearTimeout set_timers].
    rewrite list_lookup_alter_eq, Hsc, list_lookup_alter_eq.
    by destruct (scripts s !! sc).
Qed.

(** [cancel_inert] at the load of [example_load], with the request that
    [safeLoad] has given to the handle. *)
Lemma cancel_inert_witness :
  let s' := cancel_ (Some {| script_ := 0; timeout_ := Some 0 |}) example_load in
  exec (Fires_onload 0 None) s' = Some (s', Return VUndefined)
  ∧ exec (Fires_onerror 0) s' = Some (s', Return VUndefined)
  ∧ exec (Timer_elapses 0) s' = Some (s', Return VUndefined).
Proof.
  intros s'.
  destruct (cancel_inert {| script_ := 0; timeout_ := Some 0 |} None example_load)
    as (H1 & H2 & H3 & _); [vm_compute; lia|].
  split; [exact H1|]. split; [exact H2|exact H3].
Defined.


(** *** A handle that is given its result *)

(** A Deferred that has not fired and holds callbacks of callers is
    given its result: the callbacks of the path run, in order. *)
Lemma settle_observers (fuel d : nat) (b : bool) (v : value) (s : State)
    (D : Deferred) (cbs : list (option nat * option nat)) :
  length cbs < fuel →
  deferreds s !! d = Some D → blocked_ D = false →
  sequence_ D = observers cbs → is_VDeferred v = false →
  updateResult_ (fire_ fuel) d b v s
  = Some (emits (observed (negb b) v cbs)
            (modify d (λ D, {| sequence_ := []; defaultScope_ := defaultScope_ D;
                               fired_ := true; hadError_ := negb b; result_ := v;
                               blocked_ := false;
                               blocking_ := blocking_ D |}) s)).
Proof.
  intros Hfuel Hd Hbl Hseq Hv.
  unfold updateResult_, fire_, current_result.
  rewrite lookup_modify, Hd.
  cbn [fmap option_fmap option_map result_ with_hadError_ with_result_ with_fired_].
  erewrite (fire_loop_observers cbs);
    [|exact Hfuel|by rewrite lookup_modify, Hd|exact Hseq|exact Hbl|exact Hv].
  cbn [hadError_ with_hadError_ with_result_ with_fired_].
  rewrite modify_modify. do 2 f_equal.
  apply modify_ext. intros D' HD'. rewrite Hd in HD'. injection HD' as <-.
  unfold compose, with_result_, with_sequence_, with_hadError_, with_fired_. cbn.
  by rewrite Hbl.
Qed.

Lemma cleanup_other (sc : nat) (b : bool) (t : option nat) (s : State) :
  deferreds (cleanup_ sc b t s) = deferreds s
  ∧ trace (cleanup_ sc b t s) = trace s
  ∧ verifyObjs (cleanup_ sc b t s) = verifyObjs s
  ∧ scriptsToLoad_ (cleanup_ sc b t s) = scriptsToLoad_ s
  ∧ scriptLoadingDeferred_ (cleanup_ sc b t s) = scriptLoadingDeferred_ s.
Proof. unfold cleanup_. by destruct b, t. Qed.

(** X16. When a script has loaded whose handle has not fired and holds
    nothing but callbacks that callers have hung on it, as the handle of
    a call of [safeLoad] does (no turn of the drain and none of the
    callbacks of [safeLoadAndVerify] or of a Deferred that waits for
    it): the handlers of the script element are taken off and the timer
    of the timeout is cleared, the handle succeeds with [null], given to
    the callbacks of the callers on their success path, and the element
    is taken off the document, on a timer, only if the options asked for
    the cleanup. *)
Theorem load_settles (s : State) (sc d : nat) (h : Handlers)
    (readyState : option string) (D : Deferred)
    (cbs : list (option nat * option nat)) :
  scripts s !! sc ≫= handlers = Some h → h_deferred h = d →
  is_ready readyState = true →
  deferreds s !! d = Some D →
  fired_ D = false → blocked_ D = false → sequence_ D = observers cbs →
  ∃ s',
    exec (Fires_onload sc readyState) s = Some (s', Return VUndefined)
    ∧ deferreds s' !! d =
        Some {| sequence_ := []; defaultScope_ := defaultScope_ D;
                fired_ := true; hadError_ := false; result_ := VData DNull;
                blocked_ := false; blocking_ := blocking_ D |}
    ∧ trace s' = trace s ++ LoadCompleted sc None
                             :: observed false (VData DNull) cbs
    ∧ scripts s' !! sc ≫= handlers = None
    ∧ timers s' =
        from_option (λ t, <[t := None]> (timers s)) (timers s) (h_timeout h)
        ++ (if h_removeScriptNode h then [Some (removeNodeTask sc)] else []).
Proof.
  intros Hh Hhd Hready Hd Hfired Hblocked Hseq.
  pose proof (sequence_le_budget s d D Hd) as Hbudget.
  rewrite Hseq in Hbudget. unfold observers in Hbudget.
  rewrite length_fmap in Hbudget.
  unfold exec. rewrite Hh. unfold onload. rewrite Hready, Hhd.
  set (s0 := cleanup_ sc (h_removeScriptNode h) (h_timeout h)
               (emit (LoadCompleted sc None) s)).
  destruct (cleanup_other sc (h_removeScriptNode h) (h_timeout h)
              (emit (LoadCompleted sc None) s)) as (Hd0 & Ht0 & _).
  fold s0 in Hd0, Ht0. cbn [deferreds trace emit] in Hd0, Ht0.
  unfold callback, hasFired. rewrite Hd0, Hd, Hfired.
  rewrite (settle_observers _ d true (VData DNull) s0 D cbs);
    [|lia|by rewrite Hd0|done|done|done].
  cbn [mbind option_bind negb]. eexists. split; [reflexivity|].
  split; [|split; [|split]].
  - cbn [deferreds emits]. by rewrite lookup_modify, Hd0, Hd.
  - cbn [trace emits modify set_deferreds]. by rewrite Ht0, <- (assoc (++)).
  - cbn [scripts emits modify set_deferreds]. unfold s0.
    rewrite cleanup_scripts. apply handlers_cleaned.
  - cbn [timers emits modify set_deferreds]. unfold s0.
    by rewrite cleanup_timers.
Qed.

(** X17. When a script has failed to load whose handle has not fired and
    holds nothing but callbacks that callers have hung on it, as the
    handle of a call of [safeLoad] does (no turn of the drain and none of
    the callbacks of [safeLoadAndVerify] or of a Deferred that waits for
    it): the handlers of the script element are taken off and the timer
    of the timeout is cleared, the handle fails with a [LOAD_ERROR] error
    that names the URI, given to the callbacks of the callers on their
    failure path, and the removal of the element from the document is
    set on a timer. *)
Theorem error_settles (s : State) (sc d : nat) (h : Handlers) (D : Deferred)
    (cbs : list (option nat * option nat)) :
  scripts s !! sc ≫= handlers = Some h → h_deferred h = d →
  deferreds s !! d = Some D →
  fired_ D = false → blocked_ D = false → sequence_ D = observers cbs →
  let error := VError (new_Error LOAD_ERROR
                         ("Error while loading script " +:+ h_uri h)) in
  ∃ s',
    exec (Fires_onerror sc) s = Some (s', Return VUndefined)
    ∧ deferreds s' !! d =
        Some {| sequence_ := []; defaultScope_ := defaultScope_ D;
                fired_ := true; hadError_ := true; result_ := error;
                blocked_ := false; blocking_ := blocking_ D |}
    ∧ trace s' = trace s ++ LoadCompleted sc (Some LOAD_ERROR)
                             :: observed true error cbs
    ∧ scripts s' !! sc ≫= handlers = None
    ∧ timers s' =
        from_option (λ t, <[t := None]> (timers s)) (timers s) (h_timeout h)
        ++ [Some (removeNodeTask sc)].
Proof.
  intros Hh Hhd Hd Hfired Hblocked Hseq error.
  pose proof (sequence_le_budget s d D Hd) as Hbudget.
  rewrite Hseq in Hbudget. unfold observers in Hbudget.
  rewrite length_fmap in Hbudget.
  unfold exec. rewrite Hh. unfold onerror. rewrite Hhd. fold error.
  set (s0 := cleanup_ sc true (h_timeout h)
               (emit (LoadCompleted sc (Some LOAD_ERROR)) s)).
  destruct (cleanup_other sc true (h_timeout h)
              (emit (LoadCompleted sc (Some LOAD_ERROR)) s)) as (Hd0 & Ht0 & _).
  fold s0 in Hd0, Ht0. cbn [deferreds trace emit] in Hd0, Ht0.
  unfold errback, hasFired. rewrite Hd0, Hd, Hfired.
  rewrite (settle_observers _ d false error s0 D cbs);
    [|lia|by rewrite Hd0|done|done|done].
  cbn [mbind option_bind negb]. eexists. split; [reflexivity|].
  split; [|split; [|split]].
  - cbn [deferreds emits]. by rewrite lookup_modify, Hd0, Hd.
  - cbn [trace emits modify set_deferreds]. by rewrite Ht0, <- (assoc (++)).
  - cbn [scripts emits modify set_deferreds]. unfold s0.
    rewrite cleanup_scripts. apply handlers_cleaned.
  - cbn [timers emits modify set_deferreds]. unfold s0.
    by rewrite cleanup_timers.
Qed.


(** [load_settles] at the load of [example_load]. *)
Lemma load_settles_witness :
  ∃ s', exec (Fires_onload 0 None) example_load = Some (s', Return VUndefined)
        ∧ current_result 0 s' = VData DNull
        ∧ trace s' = [LoadStarted 0 "v.js"; LoadCompleted 0 None;
                      Observed 1 false (VData DNull)]
        ∧ timers s' = [None].
Proof.
  destruct (load_settles example_load 0 0
              {| h_deferred := 0; h_timeout := Some 0;
                 h_removeScriptNode := false; h_uri := "v.js" |}
              None
              {| sequence_ := observers [(Some 1, Some 2)];
                 defaultScope_ := Some {| script_ := 0; timeout_ := Some 0 |};
                 fired_ := false; hadError_ := false; result_ := VUndefined;
                 blocked_ := false; blocking_ := false |}
              [(Some 1, Some 2)])
    as (s' & H1 & H2 & H3 & _ & H5); try (vm_compute; reflexivity).
  exists s'. split; [exact H1|]. split; [|split; [exact H3|exact H5]].
  unfold current_result. by rewrite H2.
Defined.

(** [error_settles] at the load of [example_load]. *)
Lemma error_settles_witness :
  ∃ s', exec (Fires_onerror 0) example_load = Some (s', Return VUndefined)
        ∧ current_result 0 s'
          = VError (new_Error LOAD_ERROR "Error while loading script v.js")
        ∧ trace s' =
            [LoadStarted 0 "v.js"; LoadCompleted 0 (Some LOAD_ERROR);
             Observed 2 true
               (VError (new_Error LOAD_ERROR "Error while loading script v.js"))]
        ∧ timers s' = [None; Some (removeNodeTask 0)].
Proof.
  destruct (error_settles example_load 0 0
              {| h_deferred := 0; h_timeout := Some 0;
                 h_removeScriptNode := false; h_uri := "v.js" |}
              {| sequence_ := observers [(Some 1, Some 2)];
                 defaultScope_ := Some {| script_ := 0; timeout_ := Some 0 |};
                 fired_ := false; hadError_ := false; result_ := VUndefined;
                 blocked_ := false; blocking_ := false |}
              [(Some 1, Some 2)])
    as (s' & H1 & H2 & H3 & _ & H5); try (vm_compute; reflexivity).
  exists s'. split; [exact H1|]. split; [|split; [exact H3|exact H5]].
  unfold current_result. by rewrite H2.
Defined.

(** X18. When the script of a [safeLoadAndVerify] has failed to load,
    the handle of the call not having fired: the handle fails with the
    [LOAD_ERROR] error of the load, given to the callbacks of the callers
    on their failure path, and what the slot of the name held is
    deleted: the registry has no property of its own under the name,
    which reads as what is inherited under it. *)
Theorem load_error_passed_on (s : State) (sc sendDeferred deferred : nat)
    (h : Handlers) (name uri : string)
    (Dsend Ddef : Deferred) (cbs : list (option nat * option nat)) :
  scripts s !! sc ≫= handlers = Some h →
  h_deferred h = sendDeferred →
  deferreds s !! sendDeferred = Some Dsend →
  fired_ Dsend = false → blocked_ Dsend = false →
  sequence_ Dsend = [(Some (verifyCallback deferred name uri), None);
                     (None, Some (verifyErrback deferred name))] →
  sendDeferred ≠ deferred →
  deferreds s !! deferred = Some Ddef →
  fired_ Ddef = false → blocked_ Ddef = false → sequence_ Ddef = observers cbs →
  let error := VError (new_Error LOAD_ERROR
                         ("Error while loading script " +:+ h_uri h)) in
  ∃ s',
    exec (Fires_onerror sc) s = Some (s', Return VUndefined)
    ∧ deferreds s' !! deferred =
        Some {| sequence_ := []; defaultScope_ := defaultScope_ Ddef;
                fired_ := true; hadError_ := true; result_ := error;
                blocked_ := false; blocking_ := blocking_ Ddef |}
    ∧ own_verifyObj name s' = None
    ∧ lookup_verifyObj name s' = inherited name
    ∧ trace s' = trace s ++ LoadCompleted sc (Some LOAD_ERROR)
                             :: observed true error cbs.
Proof.
  intros Hh Hhd Hsd Hsf Hsb Hsseq Hne Hd Hdf Hdb Hdseq error.
  pose proof (sequence_le_budget s deferred Ddef Hd) as Hbudget.
  rewrite Hdseq in Hbudget. unfold observers in Hbudget.
  rewrite length_fmap in Hbudget.
  destruct (budget s) as [|[|[|fuel]]] eqn:Hfuel; try lia.
  unfold exec. rewrite Hh, Hfuel. unfold onerror. rewrite Hhd. fold error.
  set (s0 := cleanup_ sc true (h_timeout h)
               (emit (LoadCompleted sc (Some LOAD_ERROR)) s)).
  destruct (cleanup_other sc true (h_timeout h)
              (emit (LoadCompleted sc (Some LOAD_ERROR)) s))
    as (Hd0 & Ht0 & Hv0 & _).
  fold s0 in Hd0, Ht0, Hv0. cbn [deferreds trace verifyObjs emit] in Hd0, Ht0, Hv0.
  clearbody s0.
  unfold errback at 1, hasFired. rewrite Hd0, Hsd, Hsf.
  unfold updateResult_ at 1, fire_ at 1, current_result.
  rewrite lookup_modify, Hd0, Hsd.
  cbn [fmap option_fmap option_map result_ with_hadError_ with_result_ with_fired_
       negb].
  (* the first entry has no errback *)
  rewrite fire_loop_S. unfold fire_body at 1. rewrite lookup_modify, Hd0, Hsd.
  cbn [fmap option_fmap option_map sequence_ blocked_ hadError_ with_hadError_
       with_result_ with_fired_ negb fst snd]. rewrite Hsseq, Hsb.
  cbn [fst snd]. rewrite !modify_modify.
  (* the second entry is the errback of the call *)
  rewrite fire_loop_S. unfold fire_body at 1. rewrite lookup_modify, Hd0, Hsd.
  cbn [fmap option_fmap option_map sequence_ blocked_ hadError_ with_hadError_
       with_result_ with_fired_ with_sequence_ compose negb fst snd].
  rewrite Hsb. cbn [fst snd invoke]. rewrite !modify_modify.
  set (s1 := modify sendDeferred _ s0).
  assert (Hd1 : deferreds s1 !! deferred = Some Ddef)
    by (unfold s1; by rewrite lookup_modify_ne, Hd0).
  assert (Hs1 : deferreds s1 !! sendDeferred
                = Some {| sequence_ := [];
                          defaultScope_ := defaultScope_ Dsend;
                          fired_ := true; hadError_ := true;
                          result_ := error; blocked_ := false;
                          blocking_ := blocking_ Dsend |}).
  { unfold s1. rewrite lookup_modify, Hd0, Hsd. cbn.
    unfold with_result_, with_sequence_, with_hadError_, with_fired_. cbn.
    by rewrite Hsb. }
  assert (Ht1 : trace s1 = trace s ++ [LoadCompleted sc (Some LOAD_ERROR)])
    by exact Ht0.
  clearbody s1. unfold do_verifyErrback.
  set (s2 := match lookup_verifyObj name s1 with
             | Some _ => delete_verifyObj name s1
             | None => s1
             end).
  assert (Hd2 : ∀ d', deferreds s2 !! d' = deferreds s1 !! d').
  { intros d'. unfold s2, delete_verifyObj.
    destruct (lookup_verifyObj name s1); [|done]. by destruct (verifyObjs s1). }
  assert (Ht2 : trace s2 = trace s1).
  { unfold s2, delete_verifyObj.
    destruct (lookup_verifyObj name s1); [|done]. by destruct (verifyObjs s1). }
  assert (Hv2 : own_verifyObj name s2 = None).
  { unfold s2. destruct (lookup_verifyObj name s1) eqn:Hv.
    - apply lookup_delete_verifyObj.
    - by apply lookup_verifyObj_None. }
  clearbody s2.
  unfold errback, hasFired. rewrite Hd2, Hd1, Hdf.
  rewrite (settle_observers _ deferred false error s2 Ddef cbs);
    [|lia|by rewrite Hd2|done|done|done].
  cbn [mbind option_bind negb]. rewrite bool_decide_eq_true_2 by done.
  cbn [is_VDeferred error].
  (* the sequence is empty *)
  set (s3 := emits _ _).
  assert (Hs3 : deferreds s3 !! sendDeferred = deferreds s1 !! sendDeferred).
  { unfold s3. cbn [deferreds emits]. by rewrite lookup_modify_ne, Hd2. }
  rewrite fire_loop_S. unfold fire_body. rewrite Hs3, Hs1.
  cbn [sequence_ blocked_]. unfold STRICT_ERRORS. cbn [andb].
  eexists. split; [reflexivity|]. split; [|split; [|split]].
  - rewrite lookup_modify_ne by done. unfold s3. cbn [deferreds emits].
    by rewrite lookup_modify, Hd2, Hd1.
  - unfold own_verifyObj in *. exact Hv2.
  - apply lookup_verifyObj_own. unfold own_verifyObj in *. exact Hv2.
  - cbn [trace emits modify set_deferreds s3]. by rewrite Ht2, Ht1, <- (assoc (++)).
Qed.


(** [load_error_passed_on] at the call of [example_verify], whose script
    has left its object and then fails. *)
Lemma load_error_passed_on_witness :
  ∃ s', exec (Fires_onerror 0) example_verify = Some (s', Return VUndefined)
        ∧ current_result 1 s'
          = VError (new_Error LOAD_ERROR "Error while loading script v.js")
        ∧ own_verifyObj "obj" s' = None
        ∧ trace s' =
            [LoadStarted 0 "v.js"; LoadCompleted 0 (Some LOAD_ERROR);
             Observed 2 true
               (VError (new_Error LOAD_ERROR "Error while loading script v.js"))].
Proof.
  destruct (load_error_passed_on example_verify 0 0 1
              {| h_deferred := 0; h_timeout := Some 0;
                 h_removeScriptNode := false; h_uri := "v.js" |}
              "obj" "v.js"
              {| sequence_ := [(Some (verifyCallback 1 "obj" "v.js"), None);
                               (None, Some (verifyErrback 1 "obj"))];
                 defaultScope_ := Some {| script_ := 0; timeout_ := Some 0 |};
                 fired_ := false; hadError_ := false; result_ := VUndefined;
                 blocked_ := false; blocking_ := false |}
              {| sequence_ := observers [(Some 1, Some 2)];
                 defaultScope_ := None;
                 fired_ := false; hadError_ := false; result_ := VUndefined;
                 blocked_ := false; blocking_ := false |}
              [(Some 1, Some 2)])
    as (s' & H1 & H2 & H3 & _ & H4); try (vm_compute; reflexivity); [lia|].
  exists s'. split; [exact H1|]. split; [|split; [exact H3|exact H4]].
  unfold current_result. by rewrite H2.
Defined.

(** *** Runs *)

Lemma run_app (es1 es2 : list Event) (s s1 : State) :
  run es1 s = Some s1 → run (es1 ++ es2) s = run es2 s1.
Proof.
  revert s. induction es1 as [|e es1 IH]; intros s; cbn [run app].
  - by intros [= ->].
  - destruct (exec e s) as [[s0 c]|]; [|done]. cbn. apply IH.
Qed.

(** X19. From a state that the page can reach, every call of the loader
    and every event of the browser runs to completion, whatever events
    came before: the callbacks of the handles, which start loads and fire
    other handles, come to an end. *)
Theorem events_run_to_completion (s : State) (es : list Event) :
  reachable s → ∃ s', run es s = Some s' ∧ reachable s'.
Proof.
  intros Hs. pose proof (reachable_Inv s Hs) as HI.
  destruct (run_total es s HI) as [s' Hrun].
  exists s'. split; [done|].
  destruct Hs as [es0 Hes0]. exists (es0 ++ es).
  by rewrite (run_app es0 es initial s).
Qed.

(** [events_run_to_completion] at a page on which a batch of two URIs
    has been given to the loader. *)
Lemma events_run_to_completion_witness :
  let s := default initial (run [Call_safeLoadMany ["a.js"; "b.js"] None] initial) in
  ∃ s', run [Fires_onerror 0; Call_safeLoadMany ["c.js"] None; Timer_elapses 1] s
        = Some s' ∧ reachable s'.
Proof.
  intros s. apply events_run_to_completion.
  exists [Call_safeLoadMany ["a.js"; "b.js"] None]. vm_compute. reflexivity.
Defined.


(** *** What the callbacks keep *)

Section Kept.
Variable P : State → Prop.
Hypothesis HP : kept P.

Lemma kept_delete (name : string) (s : State) : P s → P (delete_verifyObj name s).
Proof.
  intros Hs. unfold delete_verifyObj. destruct (verifyObjs s); [|done].
  by apply kept_verifyObjs.
Qed.

Section Fire.
Variable fire : nat → State → option State.
Hypothesis fire_keeps : ∀ d s s', P s → fire d s = Some s' → P s'.

Lemma updateResult_kept (d : nat) (b : bool) (v : value) (s s' : State) :
  P s → updateResult_ fire d b v s = Some s' → P s'.
Proof.
  intros Hs. unfold updateResult_. apply fire_keeps. by apply kept_modify.
Qed.

Lemma callback_kept (d : nat) (v : value) (s s' : State) (c : completion) :
  P s → callback fire d v s = Some (s', c) → P s'.
Proof.
  intros Hs. unfold callback. destruct (hasFired d s); [by intros [= <- <-]|].
  destruct (updateResult_ fire d true v s) as [s1|] eqn:Hup; [|done].
  intros [= <- <-]. by eapply updateResult_kept.
Qed.

Lemma errback_kept (d : nat) (v : value) (s s' : State) (c : completion) :
  P s → errback fire d v s = Some (s', c) → P s'.
Proof.
  intros Hs. unfold errback. destruct (hasFired d s); [by intros [= <- <-]|].
  destruct (updateResult_ fire d false v s) as [s1|] eqn:Hup; [|done].
  intros [= <- <-]. by eapply updateResult_kept.
Qed.

Lemma addCallbacks_kept (d : nat) (cb eb : option fn) (s s' : State) :
  P s → addCallbacks fire d cb eb s = Some s' → P s'.
Proof.
  intros Hs. unfold addCallbacks.
  set (s1 := modify d _ s). assert (P s1) by (by apply kept_modify).
  destruct (hasFired d s1); [by apply fire_keeps|by intros [= <-]].
Qed.

Lemma pop_kept (o : option Options) (s s' : State) (d : nat) :
  P s → do_popAndLoadNextScript fire o s = Some (s', d) → P s'.
Proof.
  intros Hs. unfold do_popAndLoadNextScript.
  set (s1 := set_scriptsToLoad_ _ s). assert (P s1) as H1 by (by apply kept_queue).
  pose proof (kept_safeLoad P HP
                (default "type_error:TrustedResourceUrl" (head (scriptsToLoad_ s)))
                o s1 H1) as H2.
  destruct (safeLoad _ o s1) as [deferred s2]. cbn [snd] in H2.
  case_bool_decide.
  - unfold addBoth.
    destruct (addCallbacks fire deferred _ _ s2) as [s3|] eqn:Hadd; [|done].
    intros [= <- <-]. by eapply addCallbacks_kept.
  - by intros [= <- <-].
Qed.

Lemma invoke_kept (f : fn) (b : bool) (res : value) (s s' : State)
    (c : completion) :
  P s → invoke fire f b res s = Some (s', c) → P s'.
Proof.
  intros Hs. destruct f as [o|p isSuccess|p name uri|p name|tag]; cbn [invoke].
  - destruct (do_popAndLoadNextScript fire o s) as [[s1 d]|] eqn:Hpop; [|done].
    intros [= <- <-]. by eapply pop_kept.
  - unfold do_continue_.
    destruct (updateResult_ fire p isSuccess res _) as [s1|] eqn:Hup; [|done].
    intros [= <- <-]. eapply updateResult_kept; [|exact Hup]. by apply kept_modify.
  - unfold do_verifyCallback. destruct (lookup_verifyObj name s) as [v|].
    + destruct (callback fire p (VData v) s) as [[s1 [r|ex]]|] eqn:Hcb; [| |done];
        intros [= <- <-].
      * apply kept_delete. by eapply callback_kept.
      * by eapply callback_kept.
    + destruct (errback fire p _ s) as [[s1 [r|ex]]|] eqn:Hcb; [| |done];
        intros [= <- <-]; by eapply errback_kept.
  - unfold do_verifyErrback.
    set (s0 := match lookup_verifyObj name s with
               | Some _ => delete_verifyObj name s
               | None => s
               end).
    assert (P s0) as H0.
    { unfold s0. destruct (lookup_verifyObj name s); [by apply kept_delete|done]. }
    destruct (errback fire p res s0) as [[s1 [r|ex]]|] eqn:Hcb; [| |done];
      intros [= <- <-]; by eapply errback_kept.
  - intros [= <- <-]. by apply kept_observed.
Qed.

End Fire.

Lemma fire_loop_kept (fuel : nat) :
  ∀ (d : nat) (res : value) (nb : bool) (s s' : State),
    P s → fire_loop fuel d res nb s = Some s' → P s'.
Proof.
  induction fuel as [|fuel IH]; intros d res nb s s' Hs; [done|].
  assert (∀ d s s', P s → fire_ fuel d s = Some s' → P s') as Hfire.
  { intros d0 s0 s0' H0. apply IH. exact H0. }
  rewrite fire_loop_S. unfold fire_body.
  destruct (deferreds s !! d) as [D|]; [|by intros [= <-]].
  assert (∀ s0, P s0 →
    (let s1 := modify d (with_result_ res) s0 in
     if nb then
       match res with
       | VDeferred r =>
           s2 ← addCallbacks (fire_ fuel) r (Some (continue_ d true))
                  (Some (continue_ d false)) s1;
           Some (modify r (with_blocking_ true) s2)
       | _ => Some s1
       end
     else if STRICT_ERRORS && isError res
     then Some (modify d (with_hadError_ true) s1)
     else Some s1) = Some s' → P s') as Hexit.
  { intros s0 H0. cbv zeta.
    assert (P (modify d (with_result_ res) s0)) as H1 by (by apply kept_modify).
    destruct nb.
    - destruct res; try (by intros [= <-]).
      destruct (addCallbacks _ _ _ _ _) as [s2|] eqn:Hadd; [|done].
      intros [= <-]. apply kept_modify; [done|]. by eapply addCallbacks_kept.
    - unfold STRICT_ERRORS. cbn [andb]. by intros [= <-]. }
  destruct (sequence_ D) as [|[cb eb] rest]; [by apply Hexit|].
  destruct (blocked_ D); [by apply Hexit|].
  set (s1 := modify d (with_sequence_ rest) s).
  assert (P s1) as H1 by (by apply kept_modify).
  cbn [fst snd].
  destruct (if hadError_ D then eb else cb) as [f|]; [|by apply IH].
  destruct (invoke (fire_ fuel) f (hadError_ D) res s1) as [[s2 [ret|ex]]|] eqn:Hinv;
    [| |done].
  - pose proof (invoke_kept _ Hfire _ _ _ _ _ _ H1 Hinv) as H2.
    case_bool_decide.
    + destruct (is_VDeferred res); apply IH; try done. by apply kept_modify.
    + destruct (is_VDeferred ret); apply IH; by repeat apply kept_modify.
  - pose proof (invoke_kept _ Hfire _ _ _ _ _ _ H1 Hinv) as H2.
    apply IH. by apply kept_modify.
Qed.

Lemma fire_kept (fuel d : nat) (s s' : State) :
  P s → fire_ fuel d s = Some s' → P s'.
Proof. apply fire_loop_kept. Qed.

End Kept.


(** *** The handle of the drain *)

Lemma kept_length (n : nat) : kept (λ s, n < length (deferreds s)).
Proof.
  split; try done.
  - intros d f s Hs. cbn. by rewrite length_alter.
  - intros D s Hs. cbn. rewrite length_app. lia.
  - intros uri o s Hs. rewrite safeLoad_eq. cbn. rewrite length_app. lia.
Qed.

Lemma kept_frame (x : option nat) (n : nat) :
  kept (λ s, scriptLoadingDeferred_ s = x ∧ n <= length (deferreds s)).
Proof.
  split; try done.
  - intros d f s [Hx Hs]. cbn. by rewrite length_alter.
  - intros D s [Hx Hs]. cbn. rewrite length_app. split; [done|lia].
  - intros uri o s [Hx Hs]. rewrite safeLoad_eq. cbn. rewrite length_app.
    split; [done|lia].
Qed.

Section Calls.
Variable P : State → Prop.
Hypothesis HP : kept P.

(** What a call of the loader keeps; the call that starts a drain also
    sets the handle of the drain. *)
Lemma exec_call_kept (e : Event) (s s' : State) (c : completion) :
  is_call e = true → P s → exec e s = Some (s', c) →
  match e with
  | Call_safeLoadMany (u :: us) o =>
      if bool_decide (scriptsToLoad_ s = []) then
        ∃ s2, P s2 ∧ length (deferreds s) < length (deferreds s2)
              ∧ s' = set_scriptLoadingDeferred_ (length (deferreds s)) s2
      else P s'
  | _ => P s'
  end.
Proof.
  intros He Hs.
  destruct e as [uris o|uri o|uri name o|d cb eb|name v| | |]; try done;
    unfold exec.
  - unfold safeLoadMany. destruct uris as [|u us].
    + cbn [length]. rewrite bool_decide_eq_true_2 by done. unfold succeed.
      cbn [alloc_Deferred].
      destruct (callback _ _ _ _) as [[s2 c2]|] eqn:Hcb; [|done].
      intros [= <- <-]. eapply (callback_kept P HP); [| |exact Hcb].
      * intros d0 s0 s0'. by apply fire_kept.
      * by apply kept_alloc.
    + rewrite bool_decide_eq_false_2 by done.
      destruct (scriptsToLoad_ s) as [|q0 q] eqn:Hq.
      * cbn [length app]. rewrite bool_decide_eq_false_2 by (intros H; by apply H).
        rewrite bool_decide_eq_true_2 by done.
        destruct (do_popAndLoadNextScript _ o _) as [[s2 d]|] eqn:Hpop; [|done].
        intros [= <- <-].
        pose proof (pop_kept P HP _ (fire_kept P HP (budget s)) o _ _ _
                      (kept_queue P HP _ s Hs) Hpop) as H2.
        revert Hpop. unfold do_popAndLoadNextScript.
        set (s1 := set_scriptsToLoad_ _ (set_scriptsToLoad_ _ s)).
        pose proof (safeLoad_eq
                      (default "type_error:TrustedResourceUrl"
                         (head (scriptsToLoad_ (set_scriptsToLoad_ (u :: us) s))))
                      o s1) as Heq.
        cbv zeta in Heq.
        destruct (safeLoad _ o s1) as [deferred s3] eqn:Hload.
        injection Heq as Hd Hs3.
        assert (length (deferreds s) < length (deferreds s3)) as Hlen.
        { rewrite Hs3. cbn. rewrite length_app. cbn. lia. }
        change (length (deferreds s1)) with (length (deferreds s)) in Hd.
        subst deferred. clear Hs3.
        case_bool_decide.
        -- unfold addBoth.
           destruct (addCallbacks _ _ _ _ s3) as [s4|] eqn:Hadd; [|done].
           intros [= <- <-]. exists s4. split; [done|]. split; [|done].
           eapply (addCallbacks_kept _ (kept_length (length (deferreds s))));
             [|exact Hlen|exact Hadd].
           intros d0 s0 s0'.
           apply (fire_kept _ (kept_length (length (deferreds s)))).
        -- intros [= <- <-]. by exists s3.
      * cbn [length]. rewrite bool_decide_eq_true_2 by done.
        rewrite bool_decide_eq_false_2 by done.
        intros [= <- <-]. by apply kept_queue.
  - pose proof (kept_safeLoad P HP uri o s Hs) as H1.
    destruct (safeLoad uri o s) as [d s1]. by intros [= <- <-].
  - unfold safeLoadAndVerify.
    set (s0 := match verifyObjs s with
               | Some _ => s
               | None => set_verifyObjs ∅ s
               end).
    assert (P s0) as H0.
    { unfold s0. destruct (verifyObjs s); [done|by apply kept_verifyObjs]. }
    destruct (lookup_verifyObj name s0).
    + unfold fail. cbn [alloc_Deferred].
      destruct (errback _ _ _ _) as [[s2 c2]|] eqn:Hcb; [|done].
      intros [= <- <-]. eapply (errback_kept P HP); [| |exact Hcb].
      * intros d0 s1 s1'. by apply fire_kept.
      * by apply kept_alloc.
    + pose proof (kept_safeLoad P HP uri o s0 H0) as H1.
      destruct (safeLoad uri o s0) as [sendDeferred s1]. cbn [snd] in H1.
      cbn [alloc_Deferred].
      destruct (addCallbacks _ sendDeferred _ None _) as [s4|] eqn:Hadd1; [|done].
      cbn [mbind option_bind].
      destruct (addCallbacks _ sendDeferred None _ s4) as [s5|] eqn:Hadd2; [|done].
      intros [= <- <-].
      eapply (addCallbacks_kept P HP); [| |exact Hadd2].
      * intros d0 s2 s2'. by apply fire_kept.
      * eapply (addCallbacks_kept P HP); [| |exact Hadd1].
        -- intros d0 s2 s2'. by apply fire_kept.
        -- by apply kept_alloc.
  - destruct (addCallbacks _ d _ _ s) as [s1|] eqn:Hadd; [|done].
    intros [= <- <-]. eapply (addCallbacks_kept P HP); [| |exact Hadd]; [|done].
    intros d0 s2 s2'. by apply fire_kept.
  - case_bool_decide; intros [= <- <-]; [done|]. by apply kept_verifyObjs.
Qed.

End Calls.


(** What an event of the browser is: nothing, or the handle of a load is
    given its result on the page without the handlers of the script. *)
Lemma exec_handler (e : Event) (s s' : State) (c : completion) :
  is_call e = false → exec e s = Some (s', c) →
  s' = s
  ∨ (∃ sc h readyState,
       e = Fires_onload sc readyState ∧ scripts s !! sc ≫= handlers = Some h
       ∧ callback (fire_ (budget s)) (h_deferred h) (VData DNull)
           (cleanup_ sc (h_removeScriptNode h) (h_timeout h)
              (emit (LoadCompleted sc None) s)) = Some (s', c))
  ∨ (∃ sc h,
       e = Fires_onerror sc ∧ scripts s !! sc ≫= handlers = Some h
       ∧ errback (fire_ (budget s)) (h_deferred h)
           (VError (new_Error LOAD_ERROR
                      ("Error while loading script " +:+ h_uri h)))
           (cleanup_ sc true (h_timeout h)
              (emit (LoadCompleted sc (Some LOAD_ERROR)) s)) = Some (s', c))
  ∨ (∃ k sc d uri,
       e = Timer_elapses k ∧ timers s !! k = Some (Some (timeoutTask sc d uri))
       ∧ errback (fire_ (budget s)) d
           (VError (new_Error TIMEOUT
                      ("Timeout reached for loading script " +:+ uri)))
           (cleanup_ sc true None
              (emit (LoadCompleted sc (Some TIMEOUT)) (clearTimeout k s)))
         = Some (s', c))
  ∨ (∃ k sc,
       e = Timer_elapses k ∧ timers s !! k = Some (Some (removeNodeTask sc))
       ∧ s' = modify_script sc (with_attached false) (clearTimeout k s)).
Proof.
  intros He.
  destruct e as [| | | | |sc readyState|sc|k]; try done; unfold exec.
  - destruct (scripts s !! sc ≫= handlers) as [h|] eqn:Hh;
      [|intros [= <- <-]; by left].
    unfold onload. destruct (is_ready readyState); [|intros [= <- <-]; by left].
    intros Hcb. right. left. by exists sc, h, readyState.
  - destruct (scripts s !! sc ≫= handlers) as [h|] eqn:Hh;
      [|intros [= <- <-]; by left].
    unfold onerror. intros Hcb. right. right. left. by exists sc, h.
  - destruct (timers s !! k) as [[[sc d uri|sc]|]|] eqn:Hk;
      try (intros [= <- <-]; by left); cbn [run_task].
    + intros Hcb. do 3 right. left. by exists k, sc, d, uri.
    + intros [= <- <-]. do 4 right. by exists k, sc.
Qed.

Lemma exec_frame (e : Event) (s s' : State) (c : completion) :
  exec e s = Some (s', c) →
  length (deferreds s) <= length (deferreds s')
  ∧ match e with
    | Call_safeLoadMany (u :: us) o =>
        if bool_decide (scriptsToLoad_ s = []) then
          scriptLoadingDeferred_ s' = Some (length (deferreds s))
          ∧ length (deferreds s) < length (deferreds s')
        else scriptLoadingDeferred_ s' = scriptLoadingDeferred_ s
    | _ => scriptLoadingDeferred_ s' = scriptLoadingDeferred_ s
    end.
Proof.
  intros Hexec.
  set (F := λ s0, scriptLoadingDeferred_ s0 = scriptLoadingDeferred_ s
                  ∧ length (deferreds s) <= length (deferreds s0)).
  assert (kept F) as HF by apply kept_frame.
  assert (F s) as Hs by done.
  destruct (is_call e) eqn:He.
  - pose proof (exec_call_kept F HF e s s' c He Hs Hexec) as H.
    destruct e as [[|u us] o|uri o|uri name o|d cb eb|name v| | |]; try done;
      try (by destruct H).
    case_bool_decide; [|by destruct H].
    destruct H as (s2 & [_ _] & Hlen & ->). cbn. split; [lia|done].
  - assert (F s') as [H1 H2]; [|by destruct e].
    assert (∀ sc b t tr, F (cleanup_ sc b t (emit tr s))) as Hclean.
    { intros sc b t tr. unfold F.
      destruct (cleanup_other sc b t (emit tr s)) as (-> & _ & _ & _ & ->). done. }
    assert (∀ d0 s0 s0', F s0 → fire_ (budget s) d0 s0 = Some s0' → F s0')
      as Hfire by (intros d0 s0 s0'; by apply fire_kept).
    destruct (exec_handler e s s' c He Hexec)
      as [->|[(sc & h & r & _ & _ & Hcb)|[(sc & h & _ & _ & Hcb)
          |[(k & sc & d & uri & _ & _ & Hcb)|(k & sc & _ & _ & ->)]]]]; try done.
    + eapply (callback_kept F HF _ Hfire); [|exact Hcb]. apply Hclean.
    + eapply (errback_kept F HF _ Hfire); [|exact Hcb]. apply Hclean.
    + eapply (errback_kept F HF _ Hfire); [|exact Hcb]. unfold F.
      destruct (cleanup_other sc true None
                  (emit (LoadCompleted sc (Some TIMEOUT)) (clearTimeout k s)))
        as (-> & _ & _ & _ & ->). done.
Qed.

(** While URIs wait in the queue there is a handle of the drain. *)
Lemma handle_step (e : Event) (s s' : State) (c : completion) :
  Inv s →
  (scriptsToLoad_ s ≠ [] →
   ∃ d, scriptLoadingDeferred_ s = Some d ∧ d < length (deferreds s)) →
  exec e s = Some (s', c) →
  scriptsToLoad_ s' ≠ [] →
  ∃ d, scriptLoadingDeferred_ s' = Some d ∧ d < length (deferreds s').
Proof.
  intros HI Hs Hexec Hq'.
  destruct (exec_frame e s s' c Hexec) as [Hlen Hframe].
  destruct (exec_step e s s' c HI Hexec) as [_ Hk].
  assert (scriptsToLoad_ s ≠ [] →
          scriptLoadingDeferred_ s' = scriptLoadingDeferred_ s) as Hsame.
  { intros Hq. destruct e as [[|u us] o| | | | | | |]; try done.
    by rewrite bool_decide_eq_false_2 in Hframe. }
  assert (scriptsToLoad_ s ≠ [] →
          ∃ d, scriptLoadingDeferred_ s' = Some d ∧ d < length (deferreds s'))
    as Hcarry.
  { intros Hq. destruct (Hs Hq) as (d & Hd & Hlt). exists d.
    rewrite (Hsame Hq). split; [done|lia]. }
  destruct Hk as [us Hqueue Hus _ _ _|u us o -> Hq _ _ _ _|u q sc f Hq _ _ _ _ _].
  - apply Hcarry. intros Hnil. rewrite Hnil in Hqueue. cbn in Hqueue.
    destruct us as [|u0 us]; [by rewrite Hqueue in Hq'|].
    by destruct Hus as [? _].
  - rewrite bool_decide_eq_true_2 in Hframe by done.
    destruct Hframe as [-> Hlt]. by eexists.
  - apply Hcarry. by rewrite Hq.
Qed.

Lemma run_handle (es : list Event) :
  ∀ s s' : State,
    Inv s →
    (scriptsToLoad_ s ≠ [] →
     ∃ d, scriptLoadingDeferred_ s = Some d ∧ d < length (deferreds s)) →
    run es s = Some s' →
    scriptsToLoad_ s' ≠ [] →
    ∃ d, scriptLoadingDeferred_ s' = Some d ∧ d < length (deferreds s').
Proof.
  induction es as [|e es IH]; intros s s' HI Hs; cbn [run].
  - by intros [= <-].
  - destruct (exec e s) as [[s1 c]|] eqn:He; [|done]. cbn.
    apply IH.
    + by destruct (exec_step e s s1 c HI He).
    + by eapply handle_step.
Qed.

(** X20. A batch given to the loader while URIs wait in its queue joins
    the drain that is under way: its URIs are put at the end of the
    queue, no load is started and nothing else on the page changes, and
    the handle returned is the handle of the drain, a Deferred of the
    page. *)
Theorem late_batch_joins_drain (s : State) (uris : list string)
    (o : option Options) :
  reachable s → scriptsToLoad_ s ≠ [] → uris ≠ [] →
  ∃ d, scriptLoadingDeferred_ s = Some d ∧ d < length (deferreds s)
       ∧ exec (Call_safeLoadMany uris o) s
         = Some (set_scriptsToLoad_ (scriptsToLoad_ s ++ uris) s,
                 Return (VDeferred d)).
Proof.
  intros [es Hes] Hq Huris.
  destruct (run_handle es initial s Inv_initial) as (d & Hd & Hlt); try done.
  exists d. split; [done|]. split; [done|].
  unfold exec, safeLoadMany.
  rewrite bool_decide_eq_false_2 by (by destruct uris).
  rewrite bool_decide_eq_true_2 by (by destruct (scriptsToLoad_ s)).
  cbn [scriptLoadingDeferred_ set_scriptsToLoad_ mbind option_bind].
  by rewrite Hd.
Qed.

(** [late_batch_joins_drain] at a page on which a batch of two URIs has
    been given to the loader: the second URI waits. *)
Lemma late_batch_joins_drain_witness :
  let s := default initial
             (run [Call_safeLoadMany ["a.js"; "b.js"] None] initial) in
  ∃ d, scriptLoadingDeferred_ s = Some d ∧ d < length (deferreds s)
       ∧ exec (Call_safeLoadMany ["c.js"] None) s
         = Some (set_scriptsToLoad_ ["b.js"; "c.js"] s, Return (VDeferred d)).
Proof.
  intros s. apply (late_batch_joins_drain s ["c.js"] None).
  - exists [Call_safeLoadMany ["a.js"; "b.js"] None]. vm_compute. reflexivity.
  - vm_compute. discriminate.
  - discriminate.
Defined.


(** *** The history of a load *)

Lemma history_app (sc : nat) (tr1 tr2 : list Trace) :
  history sc (tr1 ++ tr2) = history sc tr1 ++ history sc tr2.
Proof. unfold history. apply filter_app. Qed.

Lemma history_one (sc : nat) (t : Trace) :
  history sc [t] = if about sc t then [t] else [].
Proof.
  unfold history. rewrite filter_cons, filter_nil.
  destruct (about sc t); by destruct (decide _).
Qed.

Lemma Page_same (s s' : State) :
  scripts s' = scripts s → timers s' = timers s → trace s' = trace s →
  Page s → Page s'.
Proof.
  intros Hsc Htm Htr [H1 H2 H3 H4 H5].
  split; rewrite ?Hsc, ?Htm, ?Htr; done.
Qed.

Lemma kept_Page : kept Page.
Proof.
  split.
  - intros d f s. by apply Page_same.
  - intros D s. by apply Page_same.
  - intros q s. by apply Page_same.
  - intros r s. by apply Page_same.
  - intros tag b v s [H1 H2 H3 H4 H5].
    split; cbn [scripts timers trace emit]; try done;
      intros; rewrite history_app, history_one; cbn [about];
      rewrite app_nil_r; eauto.
  - intros uri o s [H1 H2 H3 H4 H5]. rewrite safeLoad_eq. cbn [snd].
    set (sc0 := length (scripts s)).
    assert (∀ sc, history sc (trace s ++ [LoadStarted sc0 uri])
                  = history sc (trace s)
                    ++ (if bool_decide (sc0 = sc) then [LoadStarted sc0 uri] else []))
      as Hhist.
    { intros sc. by rewrite history_app, history_one. }
    split; cbn [scripts timers trace].
    + intros sc Hsc. rewrite length_app in Hsc. cbn in Hsc.
      rewrite Hhist, bool_decide_eq_false_2 by (unfold sc0; lia).
      rewrite app_nil_r. apply H1. lia.
    + intros sc h Hh. rewrite Hhist.
      destruct (decide (sc0 = sc)) as [<-|Hne].
      * rewrite bool_decide_eq_true_2 by done.
        rewrite lookup_app_r, Nat.sub_diag in Hh by done.
        cbn in Hh. injection Hh as <-. cbn [h_uri].
        by rewrite (H1 sc0) by done.
      * rewrite bool_decide_eq_false_2, app_nil_r by done.
        apply H2. destruct (scripts s !! sc) as [N|] eqn:HN.
        -- by rewrite (lookup_app_l_Some _ _ _ _ HN) in Hh.
        -- apply lookup_ge_None in HN.
           rewrite lookup_app_r in Hh by done.
           destruct (sc - length (scripts s)) as [|n] eqn:Hn; [unfold sc0 in *; lia|].
           done.
    + intros sc N HN Hnone. rewrite Hhist.
      apply lookup_snoc_Some in HN as [[Hlt HN]|[-> <-]]; [|done].
      rewrite bool_decide_eq_false_2, app_nil_r by (unfold sc0; lia).
      by apply (H3 sc N).
    + intros k sc d uri' Hk.
      assert (∀ sc h N0, scripts s !! sc ≫= handlers = Some h →
                         (scripts s ++ [N0]) !! sc ≫= handlers = Some h) as Hold.
      { intros sc1 h N0 Hh. destruct (scripts s !! sc1) as [N|] eqn:HN; [|done].
        by rewrite (lookup_app_l_Some _ _ _ _ HN). }
      destruct (0 <? timeoutDuration o)%Z.
      * apply lookup_snoc_Some in Hk as [[_ Hk]|[-> [= <- <- <-]]].
        -- destruct (H4 k sc d uri' Hk) as (h & Hh & Ht). exists h.
           split; [by apply Hold|done].
        -- eexists. split; [by rewrite lookup_app_r, Nat.sub_diag|done].
      * rewrite app_nil_r in Hk.
        destruct (H4 k sc d uri' Hk) as (h & Hh & Ht). exists h.
        split; [by apply Hold|done].
    + intros sc h t Hh Ht.
      destruct (scripts s !! sc) as [N|] eqn:HN.
      * rewrite (lookup_app_l_Some _ _ _ _ HN) in Hh.
        apply lookup_app_l_Some. apply (H5 sc h t); [by rewrite HN|done].
      * apply lookup_ge_None in HN. rewrite lookup_app_r in Hh by done.
        destruct (sc - length (scripts s)) as [|n] eqn:Hn; [|done].
        assert (sc = sc0) as -> by (unfold sc0; lia).
        cbn in Hh. injection Hh as <-. cbn [h_timeout h_deferred h_uri] in *.
        destruct (0 <? timeoutDuration o)%Z; [|done].
        injection Ht as <-. by rewrite lookup_app_r, Nat.sub_diag.
Qed.

(** The page after the handlers of a script have been called for the
    end of its load. *)
Lemma Page_completed (s : State) (sc : nat) (h : Handlers) (b : bool)
    (failure : option ErrorCode) :
  Page s → scripts s !! sc ≫= handlers = Some h →
  Page (cleanup_ sc b (h_timeout h) (emit (LoadCompleted sc failure) s)).
Proof.
  intros [H1 H2 H3 H4 H5] Hh.
  set (s' := cleanup_ _ _ _ _).
  assert (scripts s' = alter (with_handlers None) sc (scripts s)) as Hsc
    by (unfold s'; by rewrite cleanup_scripts).
  assert (timers s' = from_option (λ t, <[t := None]> (timers s)) (timers s)
                        (h_timeout h)
                      ++ (if b then [Some (removeNodeTask sc)] else [])) as Htm
    by (unfold s'; by rewrite cleanup_timers).
  assert (trace s' = trace s ++ [LoadCompleted sc failure]) as Htr.
  { unfold s'.
    by destruct (cleanup_other sc b (h_timeout h) (emit (LoadCompleted sc failure) s))
      as (_ & -> & _). }
  assert (∀ sc1, history sc1 (trace s')
                 = history sc1 (trace s)
                   ++ (if bool_decide (sc = sc1) then [LoadCompleted sc failure] else []))
    as Hhist.
  { intros sc1. by rewrite Htr, history_app, history_one. }
  clearbody s'.
  split; rewrite ?Hsc, ?Htm.
  - intros sc1 Hsc1. rewrite length_alter in Hsc1.
    assert (sc ≠ sc1).
    { intros <-. destruct (scripts s !! sc) eqn:HN; [|done].
      apply lookup_lt_Some in HN. lia. }
    rewrite Hhist, bool_decide_eq_false_2, app_nil_r by done. by apply H1.
  - intros sc1 h1 Hh1. destruct (decide (sc = sc1)) as [<-|Hne].
    + by rewrite handlers_cleaned in Hh1.
    + rewrite list_lookup_alter_ne in Hh1 by done.
      rewrite Hhist, bool_decide_eq_false_2, app_nil_r by done. by apply H2.
  - intros sc1 N HN Hnone. rewrite Hhist.
    destruct (decide (sc = sc1)) as [<-|Hne].
    + rewrite bool_decide_eq_true_2 by done. rewrite (H2 sc h Hh).
      by eexists _, _.
    + rewrite list_lookup_alter_ne in HN by done.
      rewrite bool_decide_eq_false_2, app_nil_r by done. by apply (H3 sc1 N).
  - intros k sc1 d uri Hk.
    assert (timers s !! k = Some (Some (timeoutTask sc1 d uri))
            ∧ h_timeout h ≠ Some k) as [Hk0 Hne].
    { apply lookup_app_Some in Hk as [Hk1|[_ Hk1]].
      - destruct (h_timeout h) as [t|]; cbn [from_option] in Hk1; [|done].
        destruct (decide (t = k)) as [->|Hne].
        + apply list_lookup_insert_Some in Hk1 as [(_ & ? & _)|[? _]]; done.
        + rewrite list_lookup_insert_ne in Hk1 by done. split; [done|congruence].
      - destruct b; [|by destruct (k - _)].
        destruct (k - _) as [|n]; [done|by destruct n]. }
    destruct (H4 k sc1 d uri Hk0) as (h1 & Hh1 & Ht1).
    assert (sc ≠ sc1) by (intros <-; congruence).
    exists h1. by rewrite list_lookup_alter_ne.
  - intros sc1 h1 t1 Hh1 Ht1. destruct (decide (sc = sc1)) as [<-|Hne].
    + by rewrite handlers_cleaned in Hh1.
    + rewrite list_lookup_alter_ne in Hh1 by done.
      pose proof (H5 sc1 h1 t1 Hh1 Ht1) as Hk1.
      apply lookup_app_l_Some.
      destruct (h_timeout h) as [t|] eqn:Ht; cbn [from_option]; [|done].
      rewrite list_lookup_insert_ne; [done|]. intros ->.
      pose proof (H5 sc h t1 Hh Ht) as Hk. congruence.
Qed.

Lemma Page_clearTimeout (s : State) (k sc : nat) :
  timers s !! k = Some (Some (removeNodeTask sc)) →
  Page s → Page (clearTimeout k s).
Proof.
  intros Hk [H1 H2 H3 H4 H5]. split; try done.
  - intros k1 sc1 d uri Hk1. cbn [timers clearTimeout set_timers] in Hk1.
    destruct (decide (k = k1)) as [->|Hne].
    + apply list_lookup_insert_Some in Hk1 as [(_ & ? & _)|[? _]]; done.
    + rewrite list_lookup_insert_ne in Hk1 by done. by apply (H4 k1 sc1 d uri).
  - intros sc1 h1 t1 Hh1 Ht1. cbn [timers clearTimeout set_timers].
    pose proof (H5 sc1 h1 t1 Hh1 Ht1) as Hk1.
    rewrite list_lookup_insert_ne; [done|]. intros ->. congruence.
Qed.


Lemma Page_detached (s : State) (sc : nat) :
  Page s → Page (modify_script sc (with_attached false) s).
Proof.
  intros [H1 H2 H3 H4 H5].
  split; cbn [scripts timers trace modify_script set_scripts].
  - intros sc1. rewrite length_alter. apply H1.
  - intros sc1 h. rewrite lookup_handlers_attached. apply H2.
  - intros sc1 N HN Hnone. destruct (decide (sc = sc1)) as [<-|Hne].
    + rewrite list_lookup_alter_eq in HN.
      destruct (scripts s !! sc) as [N0|] eqn:HN0; [|done].
      injection HN as <-. by apply (H3 sc N0).
    + rewrite list_lookup_alter_ne in HN by done. by apply (H3 sc1 N).
  - intros k sc1 d uri Hk. destruct (H4 k sc1 d uri Hk) as (h & Hh & Ht).
    exists h. by rewrite lookup_handlers_attached.
  - intros sc1 h t. rewrite lookup_handlers_attached. apply H5.
Qed.

Lemma exec_Page (e : Event) (s s' : State) (c : completion) :
  Page s → exec e s = Some (s', c) → Page s'.
Proof.
  intros Hs Hexec.
  assert (∀ d0 s0 s0', Page s0 → fire_ (budget s) d0 s0 = Some s0' → Page s0')
    as Hfire by (intros d0 s0 s0'; apply fire_kept, kept_Page).
  destruct (is_call e) eqn:He.
  - pose proof (exec_call_kept Page kept_Page e s s' c He Hs Hexec) as H.
    destruct e as [[|u us] o|uri o|uri name o|d cb eb|name v| | |]; try done.
    case_bool_decide; [|done].
    destruct H as (s2 & H2 & _ & ->). by apply (Page_same s2).
  - destruct (exec_handler e s s' c He Hexec)
      as [->|[(sc & h & r & _ & Hh & Hcb)|[(sc & h & _ & Hh & Hcb)
          |[(k & sc & d & uri & _ & Hk & Hcb)|(k & sc & _ & Hk & ->)]]]]; try done.
    + eapply (callback_kept Page kept_Page _ Hfire); [|exact Hcb].
      by apply Page_completed.
    + eapply (errback_kept Page kept_Page _ Hfire); [|exact Hcb].
      by apply Page_completed.
    + eapply (errback_kept Page kept_Page _ Hfire); [|exact Hcb].
      destruct (page_timer s Hs k sc d uri Hk) as (h & Hh & Ht).
      change (cleanup_ sc true None
                (emit (LoadCompleted sc (Some TIMEOUT)) (clearTimeout k s)))
        with (cleanup_ sc true (Some k) (emit (LoadCompleted sc (Some TIMEOUT)) s)).
      rewrite <- Ht. by apply Page_completed.
    + by apply Page_detached, (Page_clearTimeout s k sc).
Qed.

Lemma Page_initial : Page initial.
Proof. by split. Qed.

Lemma run_Page (es : list Event) :
  ∀ s s' : State, Page s → run es s = Some s' → Page s'.
Proof.
  induction es as [|e es IH]; intros s s' Hs; cbn [run]; [by intros [= <-]|].
  destruct (exec e s) as [[s1 c]|] eqn:He; [|done]. cbn.
  apply IH. by eapply exec_Page.
Qed.

(** X21. On every page that the calls of the loader and the events of
    the browser bring about, the trace tells of each script element that
    its load has started, once, and that it has completed at most once,
    after its start and with the handlers taken off the element; of a
    script that still has its handlers it tells the start only, and of a
    script that does not exist nothing. No load completes twice, none
    completes before it has started, and none starts twice. *)
Theorem load_history (s : State) (sc : nat) :
  reachable s →
  match scripts s !! sc with
  | None => history sc (trace s) = []
  | Some N =>
      ∃ u,
        (history sc (trace s) = [LoadStarted sc u]
         ∨ ∃ failure,
             handlers N = None
             ∧ history sc (trace s) = [LoadStarted sc u; LoadCompleted sc failure])
        ∧ ∀ h, handlers N = Some h →
               h_uri h = u ∧ history sc (trace s) = [LoadStarted sc u]
  end.
Proof.
  intros [es Hes].
  pose proof (run_Page es initial s Page_initial Hes) as [H1 H2 H3 H4 _].
  destruct (scripts s !! sc) as [N|] eqn:HN.
  - destruct (handlers N) as [h|] eqn:Hh.
    + assert (history sc (trace s) = [LoadStarted sc (h_uri h)]) as Hhist
        by (apply H2; by rewrite HN).
      exists (h_uri h). split; [by left|]. by intros h' [= <-].
    + destruct (H3 sc N HN Hh) as (u & failure & Hhist).
      exists u. split; [|done]. right. by exists failure.
  - apply H1. by apply lookup_ge_None.
Qed.

(** [load_history] at a page on which the first URI of a batch has
    failed and the second is loading. *)
Lemma load_history_witness :
  let s := default initial
             (run [Call_safeLoadMany ["a.js"; "b.js"] None; Fires_onerror 0;
                   Timer_elapses 0] initial) in
  (∃ u failure,
     history 0 (trace s) = [LoadStarted 0 u; LoadCompleted 0 failure])
  ∧ history 1 (trace s) = [LoadStarted 1 "b.js"].
Proof.
  intros s.
  assert (reachable s) as Hs.
  { exists [Call_safeLoadMany ["a.js"; "b.js"] None; Fires_onerror 0;
            Timer_elapses 0].
    vm_compute. reflexivity. }
  split.
  - pose proof (load_history s 0 Hs) as H0.
    assert (history 0 (trace s)
            = [LoadStarted 0 "a.js"; LoadCompleted 0 (Some LOAD_ERROR)]) as Hc
      by (vm_compute; reflexivity).
    destruct (scripts s !! 0) as [N|].
    + destruct H0 as (u & [Hh|(failure & _ & Hh)] & _).
      * rewrite Hc in Hh. discriminate.
      * by exists u, failure.
    + rewrite Hc in H0. discriminate.
  - pose proof (load_history s 1 Hs) as H1.
    assert (∃ h, scripts s !! 1 ≫= handlers = Some h ∧ h_uri h = "b.js")
      as (h & Hh & Huri) by (eexists; split; vm_compute; reflexivity).
    destruct (scripts s !! 1) as [N|]; [|done]. cbn in Hh.
    destruct H1 as (u & _ & Hlive).
    destruct (Hlive h Hh) as [<- Hhist]. by rewrite <- Huri.
Defined.


(** *** The turn of the drain *)

(** What [popAndLoadNextScript] does when a URI waits: the URI leaves the
    queue and its load starts, and the Deferred of the load is given the
    next turn if more URIs wait. *)
Lemma pop_result (fire : nat → State → option State) (o : option Options)
    (s : State) (u : string) (q : list string) :
  scriptsToLoad_ s = u :: q →
  ∃ s2 D',
    do_popAndLoadNextScript fire o s = Some (s2, length (deferreds s))
    ∧ scriptsToLoad_ s2 = q
    ∧ trace s2 = trace s ++ [LoadStarted (length (scripts s)) u]
    ∧ deferreds s2 = deferreds s ++ [D']
    ∧ fired_ D' = false
    ∧ scope_script D' = Some (length (scripts s))
    ∧ sequence_ D' = if bool_decide (q = []) then [] else [pop_entry o].
Proof.
  intros Hq. unfold do_popAndLoadNextScript. rewrite Hq. cbn [head tail default].
  rewrite safeLoad_eq. cbv zeta.
  cbn [scriptsToLoad_ set_scriptsToLoad_ deferreds scripts timers trace].
  change (id u) with u.
  destruct q as [|u' q]; eexists _, _; (split; [|]).
  - rewrite (bool_decide_eq_false_2 (length (@nil string) ≠ 0))
      by (intros H; by apply H).
    cbn [mbind option_bind]. reflexivity.
  - by cbn.
  - rewrite (bool_decide_eq_true_2 (length (u' :: q) ≠ 0)) by done.
    unfold addBoth, addCallbacks, hasFired.
    cbn [deferreds modify set_deferreds].
    rewrite alter_fresh, lookup_app_r, Nat.sub_diag by done.
    cbn [lookup list_lookup fired_ with_sequence_ mbind option_bind].
    reflexivity.
  - cbn. rewrite alter_fresh. by repeat split.
Qed.


Lemma blocked_exit {A : Type} (l : list (option fn * option fn))
    (f : option fn * option fn → list (option fn * option fn) → A) (x : A) :
  match l, true with
  | entry :: rest, false => f entry rest
  | _, _ => x
  end = x.
Proof. by destruct l. Qed.

(** X22. When the load that has the turn of the drain fails while URIs
    wait in the queue: the next URI leaves the queue and its load starts
    at once; the callbacks that callers have hung on the Deferred of the
    failed load are not run and its failure is forgotten: the Deferred,
    no longer in error, waits for the Deferred of the new load, which
    will continue it and, if more URIs wait, has the next turn. *)
Theorem failed_turn_passes_on (s : State) (sc d : nat) (h : Handlers)
    (D : Deferred) (o : option Options) (u : string) (q : list string)
    (cbs : list (option nat * option nat)) :
  scripts s !! sc ≫= handlers = Some h → h_deferred h = d →
  deferreds s !! d = Some D → fired_ D = false → blocked_ D = false →
  sequence_ D = pop_entry o :: observers cbs →
  scriptsToLoad_ s = u :: q →
  let d' := length (deferreds s) in
  let sc' := length (scripts s) in
  ∃ s',
    exec (Fires_onerror sc) s = Some (s', Return VUndefined)
    ∧ trace s' = trace s ++ [LoadCompleted sc (Some LOAD_ERROR); LoadStarted sc' u]
    ∧ scriptsToLoad_ s' = q
    ∧ deferreds s' !! d =
        Some {| sequence_ := observers cbs; defaultScope_ := defaultScope_ D;
                fired_ := true; hadError_ := false; result_ := VDeferred d';
                blocked_ := true; blocking_ := blocking_ D |}
    ∧ ∃ D', deferreds s' !! d' = Some D' ∧ fired_ D' = false
            ∧ scope_script D' = Some sc'
            ∧ sequence_ D' =
                (if bool_decide (q = []) then [] else [pop_entry o])
                ++ [(Some (continue_ d true), Some (continue_ d false))].
Proof.
  intros Hh Hhd Hd Hfired Hblocked Hseq Hq d' sc'.
  assert (d < d') as Hlt by (by apply lookup_lt_Some in Hd).
  destruct (budget s) as [|[|fuel]] eqn:Hfuel; [unfold budget in Hfuel; lia..|].
  unfold exec. rewrite Hh, Hfuel. unfold onerror. rewrite Hhd.
  set (error := VError _).
  set (s0 := cleanup_ sc true (h_timeout h)
               (emit (LoadCompleted sc (Some LOAD_ERROR)) s)).
  destruct (cleanup_other sc true (h_timeout h)
              (emit (LoadCompleted sc (Some LOAD_ERROR)) s))
    as (Hd0 & Ht0 & _ & Hq0 & _).
  fold s0 in Hd0, Ht0, Hq0. cbn [deferreds trace scriptsToLoad_ emit] in Hd0, Ht0, Hq0.
  assert (Hsc0 : length (scripts s0) = length (scripts s)).
  { unfold s0. rewrite cleanup_scripts. cbn. by rewrite length_alter. }
  clearbody s0.
  unfold errback, hasFired. rewrite Hd0, Hd, Hfired.
  unfold updateResult_, fire_, current_result.
  rewrite lookup_modify, Hd0, Hd.
  cbn [fmap option_fmap option_map result_ with_hadError_ with_result_ with_fired_
       negb].
  (* the turn of the drain *)
  rewrite fire_loop_S. unfold fire_body at 1. rewrite lookup_modify, Hd0, Hd.
  cbn [fmap option_fmap option_map sequence_ blocked_ hadError_ with_hadError_
       with_result_ with_fired_ negb fst snd]. rewrite Hseq, Hblocked.
  unfold pop_entry at 1. cbn [fst snd invoke]. rewrite !modify_modify.
  set (s1 := modify d _ s0).
  assert (Hd1 : deferreds s1 !! d
                = Some {| sequence_ := observers cbs;
                          defaultScope_ := defaultScope_ D;
                          fired_ := true; hadError_ := true; result_ := error;
                          blocked_ := false; blocking_ := blocking_ D |}).
  { unfold s1. rewrite lookup_modify, Hd0, Hd. cbn.
    unfold with_result_, with_sequence_, with_hadError_, with_fired_. cbn.
    by rewrite Hblocked. }
  assert (Hlen1 : length (deferreds s1) = d')
    by (unfold s1; cbn; by rewrite length_alter, Hd0).
  assert (Hq1 : scriptsToLoad_ s1 = u :: q) by (unfold s1; cbn; by rewrite Hq0).
  assert (Ht1 : trace s1 = trace s ++ [LoadCompleted sc (Some LOAD_ERROR)])
    by exact Ht0.
  assert (Hsc1 : length (scripts s1) = sc') by exact Hsc0.
  clearbody s1.
  destruct (pop_result (fire_ (S fuel)) o s1 u q Hq1)
    as (s2 & D' & Hpop & Hq2 & Ht2 & Hd2 & Hf' & Hscope' & Hseq').
  rewrite Hpop, Hlen1. cbn [mbind option_bind].
  rewrite bool_decide_eq_false_2 by done. cbn [is_VDeferred isError].
  rewrite Hlen1, Hsc1 in *.
  assert (Hd2d : deferreds s2 !! d = deferreds s1 !! d)
    by (rewrite Hd2; apply lookup_app_l; lia).
  assert (Hd2n : deferreds s2 !! d' = Some D')
    by (rewrite Hd2, lookup_app_r, Hlen1, Nat.sub_diag by lia; done).
  clear Hpop Hd2. rewrite !modify_modify.
  (* the Deferred waits *)
  rewrite fire_loop_S. unfold fire_body. rewrite lookup_modify, Hd2d, Hd1.
  cbn [fmap option_fmap option_map compose sequence_ blocked_ hadError_ result_
       with_hadError_ with_result_ with_blocked_ andb].
  rewrite (blocked_exit _ (λ _ _, None)). rewrite !modify_modify.
  unfold addCallbacks, hasFired.
  rewrite lookup_modify, lookup_modify_ne, Hd2n by lia.
  cbn [fmap option_fmap option_map fired_ with_sequence_]. rewrite Hf'.
  cbn [mbind option_bind]. rewrite modify_modify.
  eexists. split; [reflexivity|]. split; [|split; [|split]].
  - cbn [trace modify set_deferreds]. by rewrite Ht2, Ht1, <- (assoc (++)).
  - by cbn [scriptsToLoad_ modify set_deferreds].
  - rewrite lookup_modify_ne, lookup_modify, Hd2d, Hd1 by lia. cbn.
    unfold with_result_, with_hadError_, with_blocked_. cbn.
    by rewrite bool_decide_eq_false_2.
  - rewrite lookup_modify, lookup_modify_ne, Hd2n by lia. cbn.
    eexists. split; [reflexivity|]. split; [exact Hf'|]. split; [exact Hscope'|].
    cbn. by rewrite Hseq'.
Qed.


(** [failed_turn_passes_on] at a batch of two URIs, on whose handle a
    caller has hung callbacks: the first load fails. *)
Lemma failed_turn_passes_on_witness :
  let s := default initial
             (run [Call_safeLoadMany ["a.js"; "b.js"] None;
                   Call_addCallbacks 0 (Some 1) (Some 2)] initial) in
  ∃ s', exec (Fires_onerror 0) s = Some (s', Return VUndefined)
        ∧ trace s' = [LoadStarted 0 "a.js"; LoadCompleted 0 (Some LOAD_ERROR);
                      LoadStarted 1 "b.js"]
        ∧ scriptsToLoad_ s' = []
        ∧ current_result 0 s' = VDeferred 1.
Proof.
  intros s.
  destruct (failed_turn_passes_on s 0 0
              {| h_deferred := 0; h_timeout := Some 0;
                 h_removeScriptNode := false; h_uri := "a.js" |}
              (default (new_Deferred None) (deferreds s !! 0))
              None "b.js" [] [(Some 1, Some 2)])
    as (s' & H1 & H2 & H3 & H4 & _); try (vm_compute; reflexivity).
  exists s'. split; [exact H1|]. split; [exact H2|]. split; [exact H3|].
  unfold current_result. by rewrite H4.
Defined.

(** *** The end of the chain *)

(** A Deferred whose one entry continues another, which waits for it
    with callbacks of callers, is given its result: the other is
    continued with the result and runs the callbacks of its path. *)
Lemma chain_continued (fuel dl d : nat) (b : bool) (v : value) (s : State)
    (Dl D : Deferred) (cbs : list (option nat * option nat)) :
  S (S (length cbs)) < fuel →
  deferreds s !! dl = Some Dl → blocked_ Dl = false →
  sequence_ Dl = [(Some (continue_ d true), Some (continue_ d false))] →
  d ≠ dl → deferreds s !! d = Some D → sequence_ D = observers cbs →
  is_VDeferred v = false →
  ∃ s',
    updateResult_ (fire_ fuel) dl b v s = Some s'
    ∧ deferreds s' !! d =
        Some {| sequence_ := []; defaultScope_ := defaultScope_ D;
                fired_ := true; hadError_ := negb b; result_ := v;
                blocked_ := false; blocking_ := blocking_ D |}
    ∧ deferreds s' !! dl =
        Some {| sequence_ := []; defaultScope_ := defaultScope_ Dl;
                fired_ := true; hadError_ := negb b; result_ := v;
                blocked_ := false; blocking_ := blocking_ Dl |}
    ∧ trace s' = trace s ++ observed (negb b) v cbs
    ∧ scripts s' = scripts s ∧ timers s' = timers s.
Proof.
  intros Hfuel Hdl Hbl Hseql Hne Hd Hseq Hv.
  destruct fuel as [|[|fuel]]; [lia..|].
  unfold updateResult_ at 1, fire_ at 1, current_result.
  rewrite lookup_modify, Hdl.
  cbn [fmap option_fmap option_map result_ with_hadError_ with_result_ with_fired_].
  rewrite fire_loop_S. unfold fire_body at 1. rewrite lookup_modify, Hdl.
  cbn [fmap option_fmap option_map sequence_ blocked_ hadError_ with_hadError_
       with_result_ with_fired_]. rewrite Hseql, Hbl.
  cbn [fst snd]. rewrite !modify_modify.
  set (s1 := modify dl _ s).
  assert (Hd1 : deferreds s1 !! d = Some D)
    by (unfold s1; by rewrite lookup_modify_ne).
  assert (Hdl1 : deferreds s1 !! dl
                 = Some {| sequence_ := []; defaultScope_ := defaultScope_ Dl;
                           fired_ := true; hadError_ := negb b; result_ := v;
                           blocked_ := false; blocking_ := blocking_ Dl |}).
  { unfold s1. rewrite lookup_modify, Hdl. cbn.
    unfold with_result_, with_sequence_, with_hadError_, with_fired_. cbn.
    by rewrite Hbl. }
  assert (Hother : trace s1 = trace s ∧ scripts s1 = scripts s
                   ∧ timers s1 = timers s) by done.
  destruct Hother as (Ht1 & Hsc1 & Htm1). clearbody s1.
  assert (invoke (fire_ (S fuel))
            (if negb b then continue_ d false else continue_ d true)
            (negb b) v s1
          = Some (emits (observed (negb b) v cbs)
                    (modify d (λ D, {| sequence_ := [];
                                       defaultScope_ := defaultScope_ D;
                                       fired_ := true; hadError_ := negb b;
                                       result_ := v; blocked_ := false;
                                       blocking_ := blocking_ D |})
                       (modify d (with_blocked_ false) s1)),
                  Return VUndefined)) as Hinv.
  { assert (∀ isSuccess, isSuccess = b →
              invoke (fire_ (S fuel)) (continue_ d isSuccess) (negb b) v s1
              = Some (emits (observed (negb b) v cbs)
                        (modify d (λ D, {| sequence_ := [];
                                           defaultScope_ := defaultScope_ D;
                                           fired_ := true; hadError_ := negb b;
                                           result_ := v; blocked_ := false;
                                           blocking_ := blocking_ D |})
                           (modify d (with_blocked_ false) s1)),
                      Return VUndefined)) as H.
    { intros isSuccess ->. cbn [invoke]. unfold do_continue_.
      rewrite (settle_observers _ d b v _ (with_blocked_ false D) cbs);
        [done|lia|by rewrite lookup_modify, Hd1|done|done|done]. }
    destruct b; cbn [negb]; by apply H. }
  replace (if negb b then Some (continue_ d false) else Some (continue_ d true))
    with (Some (if negb b then continue_ d false else continue_ d true))
    by (by destruct b).
  rewrite Hinv. rewrite bool_decide_eq_true_2 by done. rewrite Hv.
  set (s2 := emits _ _).
  assert (Hdl2 : deferreds s2 !! dl = deferreds s1 !! dl).
  { unfold s2. cbn [deferreds emits]. by rewrite !lookup_modify_ne. }
  rewrite fire_loop_S. unfold fire_body. rewrite Hdl2, Hdl1.
  cbn [sequence_ blocked_]. unfold STRICT_ERRORS. cbn [andb].
  eexists. split; [reflexivity|]. split; [|split; [|split; [|split]]].
  - rewrite lookup_modify_ne by done. unfold s2. cbn [deferreds emits].
    rewrite !lookup_modify, Hd1. done.
  - rewrite lookup_modify, Hdl2, Hdl1. done.
  - cbn [trace modify set_deferreds s2 emits]. by rewrite Ht1.
  - cbn [scripts modify set_deferreds s2 emits]. exact Hsc1.
  - cbn [timers modify set_deferreds s2 emits]. exact Htm1.
Qed.

(** X23. When the last load of a drain succeeds, a Deferred that waits
    for its Deferred, as the handle of the drain does after an earlier
    load has completed, is continued: it succeeds with [null], given to
    the callbacks of the callers on their success path. *)
Theorem last_load_settles_handle (s : State) (sc dl d : nat) (h : Handlers)
    (readyState : option string) (Dl D : Deferred)
    (cbs : list (option nat * option nat)) :
  scripts s !! sc ≫= handlers = Some h → h_deferred h = dl →
  is_ready readyState = true →
  deferreds s !! dl = Some Dl → fired_ Dl = false → blocked_ Dl = false →
  sequence_ Dl = [(Some (continue_ d true), Some (continue_ d false))] →
  d ≠ dl → deferreds s !! d = Some D → sequence_ D = observers cbs →
  ∃ s',
    exec (Fires_onload sc readyState) s = Some (s', Return VUndefined)
    ∧ deferreds s' !! d =
        Some {| sequence_ := []; defaultScope_ := defaultScope_ D;
                fired_ := true; hadError_ := false; result_ := VData DNull;
                blocked_ := false; blocking_ := blocking_ D |}
    ∧ trace s' = trace s ++ LoadCompleted sc None
                             :: observed false (VData DNull) cbs.
Proof.
  intros Hh Hhd Hready Hdl Hfired Hbl Hseql Hne Hd Hseq.
  pose proof (sequence_le_budget s d D Hd) as Hbudget.
  rewrite Hseq in Hbudget. unfold observers in Hbudget.
  rewrite length_fmap in Hbudget.
  unfold exec. rewrite Hh. unfold onload. rewrite Hready, Hhd.
  set (s0 := cleanup_ sc (h_removeScriptNode h) (h_timeout h)
               (emit (LoadCompleted sc None) s)).
  destruct (cleanup_other sc (h_removeScriptNode h) (h_timeout h)
              (emit (LoadCompleted sc None) s)) as (Hd0 & Ht0 & _).
  fold s0 in Hd0, Ht0. cbn [deferreds trace emit] in Hd0, Ht0. clearbody s0.
  unfold callback, hasFired. rewrite Hd0, Hdl, Hfired.
  destruct (chain_continued (budget s) dl d true (VData DNull) s0 Dl D cbs)
    as (s' & -> & Hd' & _ & Ht' & _); try done; [lia|by rewrite Hd0..|].
  cbn [mbind option_bind]. exists s'. split; [done|]. split; [exact Hd'|].
  by rewrite Ht', Ht0, <- (assoc (++)).
Qed.

(** X24. When the last load of a drain fails, a Deferred that waits for
    its Deferred is continued on the failure path: it fails with the
    [LOAD_ERROR] error of that load, given to the callbacks of the
    callers on their failure path. *)
Theorem last_load_fails_handle (s : State) (sc dl d : nat) (h : Handlers)
    (Dl D : Deferred) (cbs : list (option nat * option nat)) :
  scripts s !! sc ≫= handlers = Some h → h_deferred h = dl →
  deferreds s !! dl = Some Dl → fired_ Dl = false → blocked_ Dl = false →
  sequence_ Dl = [(Some (continue_ d true), Some (continue_ d false))] →
  d ≠ dl → deferreds s !! d = Some D → sequence_ D = observers cbs →
  let error := VError (new_Error LOAD_ERROR
                         ("Error while loading script " +:+ h_uri h)) in
  ∃ s',
    exec (Fires_onerror sc) s = Some (s', Return VUndefined)
    ∧ deferreds s' !! d =
        Some {| sequence_ := []; defaultScope_ := defaultScope_ D;
                fired_ := true; hadError_ := true; result_ := error;
                blocked_ := false; blocking_ := blocking_ D |}
    ∧ trace s' = trace s ++ LoadCompleted sc (Some LOAD_ERROR)
                             :: observed true error cbs.
Proof.
  intros Hh Hhd Hdl Hfired Hbl Hseql Hne Hd Hseq error.
  pose proof (sequence_le_budget s d D Hd) as Hbudget.
  rewrite Hseq in Hbudget. unfold observers in Hbudget.
  rewrite length_fmap in Hbudget.
  unfold exec. rewrite Hh. unfold onerror. rewrite Hhd. fold error.
  set (s0 := cleanup_ sc true (h_timeout h)
               (emit (LoadCompleted sc (Some LOAD_ERROR)) s)).
  destruct (cleanup_other sc true (h_timeout h)
              (emit (LoadCompleted sc (Some LOAD_ERROR)) s)) as (Hd0 & Ht0 & _).
  fold s0 in Hd0, Ht0. cbn [deferreds trace emit] in Hd0, Ht0. clearbody s0.
  unfold errback, hasFired. rewrite Hd0, Hdl, Hfired.
  destruct (chain_continued (budget s) dl d false error s0 Dl D cbs)
    as (s' & -> & Hd' & _ & Ht' & _); try done; [lia|by rewrite Hd0..|].
  cbn [mbind option_bind]. exists s'. split; [done|]. split; [exact Hd'|].
  by rewrite Ht', Ht0, <- (assoc (++)).
Qed.

(** [last_load_settles_handle] at a batch of two URIs, on whose handle a
    caller has hung callbacks, of which the first load has failed. *)
Lemma last_load_settles_handle_witness :
  let s := default initial
             (run [Call_safeLoadMany ["a.js"; "b.js"] None;
                   Call_addCallbacks 0 (Some 1) (Some 2);
                   Fires_onerror 0] initial) in
  ∃ s', exec (Fires_onload 1 None) s = Some (s', Return VUndefined)
        ∧ current_result 0 s' = VData DNull
        ∧ trace s' = [LoadStarted 0 "a.js"; LoadCompleted 0 (Some LOAD_ERROR);
                      LoadStarted 1 "b.js"; LoadCompleted 1 None;
                      Observed 1 false (VData DNull)].
Proof.
  intros s.
  destruct (last_load_settles_handle s 1 1 0
              {| h_deferred := 1; h_timeout := Some 2;
                 h_removeScriptNode := false; h_uri := "b.js" |}
              None
              (default (new_Deferred None) (deferreds s !! 1))
              (default (new_Deferred None) (deferreds s !! 0))
              [(Some 1, Some 2)])
    as (s' & H1 & H2 & H3); try (vm_compute; reflexivity); [lia|].
  exists s'. split; [exact H1|]. split; [|exact H3].
  unfold current_result. by rewrite H2.
Defined.

(** [last_load_fails_handle] at a batch of two URIs, on whose handle a
    caller has hung callbacks, of which the first load has succeeded. *)
Lemma last_load_fails_handle_witness :
  let s := default initial
             (run [Call_safeLoadMany ["a.js"; "b.js"] None;
                   Call_addCallbacks 0 (Some 1) (Some 2);
                   Fires_onload 0 None] initial) in
  ∃ s', exec (Fires_onerror 1) s = Some (s', Return VUndefined)
        ∧ trace s' =
            [LoadStarted 0 "a.js"; LoadCompleted 0 None;
             LoadStarted 1 "b.js"; LoadCompleted 1 (Some LOAD_ERROR);
             Observed 2 true
               (VError (new_Error LOAD_ERROR "Error while loading script b.js"))].
Proof.
  intros s.
  destruct (last_load_fails_handle s 1 1 0
              {| h_deferred := 1; h_timeout := Some 1;
                 h_removeScriptNode := false; h_uri := "b.js" |}
              (default (new_Deferred None) (deferreds s !! 1))
              (default (new_Deferred None) (deferreds s !! 0))
              [(Some 1, Some 2)])
    as (s' & H1 & _ & H3); try (vm_compute; reflexivity); [lia|].
  exists s'. split; [exact H1|exact H3].
Defined.

End JsLoaderMore.

(** ** The turn of the drain *)
Module JsLoaderTurn.
Import JsLoader JsLoaderSpec JsLoaderInv JsLoaderMore.
Local Open Scope nat_scope.
Local Arguments fire_loop : simpl never.

(** *** The handlers of a script stay until its load ends *)





(** *** The load that has the turn ends *)




(** *** While URIs wait, a load in progress has the turn *)








(** *** The order of the loads of a batch *)



End JsLoaderTurn.
